(** * Scylla: gossip endpoint state, autoupdating underlying reader, memtable

    A shallow embedding of
    - [gms/endpoint_state.hh]   (class [endpoint_state]),
    - [read_context.hh]         (classes [cache::autoupdating_underlying_reader]
                                 and [cache::read_context]),
    - [cql3/statements/alter_type_statement.cc]
                                (adding, altering and renaming the fields of a
                                 user type and announcing the change),
    - [main.cc]                 (the start-up checks and the signal handlers),
    together with a model of the memtable contract exercised by
    [test/boost/memtable_test.cc]. *)

From Stdlib Require Import ZArith Lia List String Ascii Bool.
From stdpp Require Import gmap strings list fin_maps sorting.

Local Open Scope Z_scope.

(* ===================================================================== *)
(** * gms/endpoint_state.hh *)
(* ===================================================================== *)

Module gms.

(** [gms::versioned_value]: an [int version] and an [sstring value]. *)
Record versioned_value := VersionedValue {
  version : Z;
  value : string
}.

(** [gms::heart_beat_state]: generation and version numbers. *)
Record heart_beat_state := HeartBeatState {
  hb_generation : Z;
  hb_version : Z
}.

(** The piece before the first comma: [boost::split(pieces, value,
    boost::is_any_of(","))] followed by [pieces[0]].  Splitting never
    yields an empty vector, the empty string gives one empty piece. *)
Fixpoint first_piece (s : string) : string :=
  match s with
  | EmptyString => EmptyString
  | String c rest =>
      if Ascii.eqb c ","%char then EmptyString else String c (first_piece rest)
  end.

Section EndpointState.

(** [gms::application_state] is an enumeration declared in
    [gms/application_state.hh]; it is the key type of the ordered map. *)
Context {application_state : Type}
        `{Countable application_state}.

(** The enumerator [application_state::STATUS]. *)
Variable STATUS : application_state.

(** [versioned_value::STATUS_NORMAL]. *)
Variable STATUS_NORMAL : string.

(** The value-initialised [versioned_value] that
    [std::map::operator[]] inserts for a key that is not in the map. *)
Variable default_versioned_value : versioned_value.

Record endpoint_state := EndpointState {
  _heart_beat_state : heart_beat_state;
  _application_state : gmap application_state versioned_value;
  _update_timestamp : Z;
  _is_alive : bool;
  _is_normal : bool
}.

(** [get_application_state_ptr(key)]: pointer to the entry or null. *)
Definition get_application_state_ptr (es : endpoint_state)
    (key : application_state) : option versioned_value :=
  _application_state es !! key.

Definition get_status (es : endpoint_state) : string :=
  match get_application_state_ptr es STATUS with
  | None => EmptyString
  | Some app_state => first_piece (value app_state)
  end.

Definition is_normal (es : endpoint_state) : bool := _is_normal es.

Definition update_is_normal (es : endpoint_state) : endpoint_state :=
  {| _heart_beat_state := _heart_beat_state es;
     _application_state := _application_state es;
     _update_timestamp := _update_timestamp es;
     _is_alive := _is_alive es;
     _is_normal := String.eqb (get_status es) STATUS_NORMAL |}.

Definition set_application_state_map (es : endpoint_state)
    (m : gmap application_state versioned_value) : endpoint_state :=
  {| _heart_beat_state := _heart_beat_state es;
     _application_state := m;
     _update_timestamp := _update_timestamp es;
     _is_alive := _is_alive es;
     _is_normal := _is_normal es |}.

(** [_application_state[key]]: the entry for [key], value-initialised
    when the key was not in the map. *)
Definition stored (es : endpoint_state) (key : application_state)
    : versioned_value :=
  default default_versioned_value (_application_state es !! key).

(** [add_application_state(key, value)]. *)
Definition add_application_state (key : application_state)
    (v : versioned_value) (es : endpoint_state) : endpoint_state :=
  update_is_normal
    (set_application_state_map es (<[key := v]> (_application_state es))).

(** [apply_application_state(key, value)] (both overloads, which differ
    only in moving or copying [value]):
<<
    auto&& e = _application_state[key];
    if (e.version < value.version) { e = value; }
    update_is_normal();
>> *)
Definition apply_application_state (key : application_state)
    (v : versioned_value) (es : endpoint_state) : endpoint_state :=
  let e := stored es key in
  let e' := if version e <? version v then v else e in
  update_is_normal
    (set_application_state_map es (<[key := e']> (_application_state es))).

(** A run of [apply_application_state(key, value)] calls, first call
    first. *)
Definition apply_application_states
    (calls : list (application_state * versioned_value))
    (es : endpoint_state) : endpoint_state :=
  foldl (fun acc kv => apply_application_state kv.1 kv.2 acc) es calls.

(** [apply_application_state(const endpoint_state& es)]: one call per
    entry of the other state's map, then [update_is_normal()]. *)
Definition apply_application_state_from (other : endpoint_state)
    (es : endpoint_state) : endpoint_state :=
  update_is_normal
    (apply_application_states (map_to_list (_application_state other)) es).

(** ** Properties *)

Lemma update_is_normal_map es :
  _application_state (update_is_normal es) = _application_state es.
Proof. reflexivity. Qed.

Lemma update_is_normal_idem es :
  update_is_normal (update_is_normal es) = update_is_normal es.
Proof. reflexivity. Qed.

Lemma apply_application_state_map key v es :
  _application_state (apply_application_state key v es) =
  <[key := if version (stored es key) <? version v then v else stored es key]>
    (_application_state es).
Proof. reflexivity. Qed.

Lemma stored_apply_same key v es :
  stored (apply_application_state key v es) key =
  if version (stored es key) <? version v then v else stored es key.
Proof.
  unfold stored at 1. rewrite apply_application_state_map.
  by rewrite lookup_insert_eq.
Qed.

Lemma stored_apply_other key key' v es :
  key ≠ key' ->
  stored (apply_application_state key v es) key' = stored es key'.
Proof.
  intros Hne. unfold stored. rewrite apply_application_state_map.
  by rewrite lookup_insert_ne.
Qed.

Lemma lookup_apply_other key key' v es :
  key ≠ key' ->
  _application_state (apply_application_state key v es) !! key' =
  _application_state es !! key'.
Proof.
  intros Hne. rewrite apply_application_state_map.
  by rewrite lookup_insert_ne.
Qed.

(** One call never lowers the version stored under any key. *)
Lemma stored_version_mono_step key v es key' :
  version (stored es key') <= version (stored (apply_application_state key v es) key').
Proof.
  destruct (decide (key = key')) as [->|Hne].
  - rewrite stored_apply_same.
    destruct (Z.ltb_spec (version (stored es key')) (version v)); lia.
  - rewrite stored_apply_other by done. lia.
Qed.

Lemma stored_version_mono_run calls : forall es key',
  version (stored es key') <= version (stored (apply_application_states calls es) key').
Proof.
  induction calls as [|[k v] calls IH]; intros es key'; simpl.
  - lia.
  - etransitivity; [apply (stored_version_mono_step k v es key')|].
    apply IH.
Qed.

Lemma apply_application_state_idem key v es :
  apply_application_state key v (apply_application_state key v es) =
  apply_application_state key v es.
Proof.
  unfold apply_application_state at 1.
  rewrite stored_apply_same.
  set (e := stored es key).
  assert (Hfix :
    (if version (if version e <? version v then v else e) <? version v
     then v else (if version e <? version v then v else e)) =
    (if version e <? version v then v else e)).
  { destruct (Z.ltb_spec (version e) (version v)) as [Hlt|Hge].
    - by rewrite Z.ltb_irrefl.
    - destruct (Z.ltb_spec (version e) (version v)); [lia|done]. }
  rewrite Hfix.
  rewrite apply_application_state_map. fold e.
  unfold apply_application_state. fold e.
  unfold update_is_normal, set_application_state_map, get_status,
    get_application_state_ptr; simpl.
  by rewrite insert_insert_eq.
Qed.

Lemma first_piece_prefix (s : string) :
  exists rest, s = (first_piece s ++ rest)%string.
Proof.
  induction s as [|c s [rest IH]]; [by exists EmptyString|].
  cbn. destruct (Ascii.eqb c ","); [by eexists|].
  exists rest. exact (f_equal (String c) IH).
Qed.

(** [add_application_state(key, value)] stores [value] under [key]
    whatever was there, leaves the other keys alone and recomputes
    [_is_normal]. *)
Theorem add_application_state_overwrites :
  forall (es : endpoint_state) (key : application_state) (v : versioned_value),
    _application_state (add_application_state key v es) !! key = Some v
    /\ (forall key' : application_state, key <> key' ->
          _application_state (add_application_state key v es) !! key'
          = _application_state es !! key')
    /\ is_normal (add_application_state key v es)
       = String.eqb (get_status (add_application_state key v es)) STATUS_NORMAL.
Proof.
  intros es key v. unfold add_application_state. cbn.
  split; [by rewrite lookup_insert_eq|]. split; [|done].
  intros key' Hne. by rewrite lookup_insert_ne.
Qed.

(** After [apply_application_state], [is_normal()] tells whether the
    status, the text of the STATUS entry up to its first comma and the
    empty string when there is no such entry, is STATUS_NORMAL. *)
Theorem is_normal_follows_status :
  forall (es : endpoint_state) (key : application_state) (v : versioned_value),
    let es' := apply_application_state key v es in
    is_normal es' = String.eqb (get_status es') STATUS_NORMAL
    /\ get_status es'
       = match _application_state es' !! STATUS with
         | Some app_state => first_piece (value app_state)
         | None => EmptyString
         end
    /\ (forall app_state, _application_state es' !! STATUS = Some app_state ->
          exists rest, value app_state = (get_status es' ++ rest)%string).
Proof.
  intros es key v es'. split; [done|]. split; [done|].
  intros app_state Hs. unfold get_status, get_application_state_ptr.
  rewrite Hs. apply first_piece_prefix.
Qed.

(** C10. [apply_application_state(key, value)] overwrites the entry for
    [key] exactly when the version stored there (the value-initialised
    entry's version when the key was absent) is strictly below the
    incoming version, and leaves every other key alone; hence over any
    run of calls, and over the overload that takes a whole
    [endpoint_state], the version stored under each key never decreases;
    and applying the same pair twice gives the state that applying it
    once gives. *)
Theorem apply_application_state_versioned :
  forall (es : endpoint_state) (key : application_state) (v : versioned_value),
    let e := stored es key in
    let es' := apply_application_state key v es in
    _application_state es' !! key
      = Some (if version e <? version v then v else e)
    /\ (_application_state es' !! key = Some v /\ e <> v
          <-> version e < version v /\ e <> v)
    /\ (forall key' : application_state, key <> key' ->
          _application_state es' !! key' = _application_state es !! key')
    /\ (forall calls (key' : application_state),
          version (stored es key')
            <= version (stored (apply_application_states calls es) key'))
    /\ (forall other (key' : application_state),
          version (stored es key')
            <= version (stored (apply_application_state_from other es) key'))
    /\ apply_application_state key v es' = es'.
Proof.
  intros es key v e es'.
  assert (Hlk : _application_state es' !! key
                = Some (if version e <? version v then v else e)).
  { subst es' e. by rewrite apply_application_state_map, lookup_insert_eq. }
  split; [exact Hlk|].
  split.
  { rewrite Hlk.
    destruct (Z.ltb_spec (version e) (version v)) as [Hlt|Hge].
    - tauto.
    - split; [intros [Heq Hne]; congruence | lia]. }
  split; [intros key' Hne; by apply lookup_apply_other|].
  split; [intros calls key'; apply stored_version_mono_run|].
  split.
  { intros other key'. unfold apply_application_state_from.
    change (stored (update_is_normal ?x) key') with (stored x key').
    apply stored_version_mono_run. }
  apply apply_application_state_idem.
Qed.

(** ** The rest of the class *)

(** [versioned_value::SHUTDOWN]. *)
Variable SHUTDOWN : string.

(** [heart_beat_state(int32_t gen)], declared in [gms/heart_beat_state.hh]. *)
Variable heart_beat_state_of_generation : Z -> heart_beat_state.

(** The constructors; [now] is what [clk::now()] returns.
<<
    endpoint_state()
        : _heart_beat_state(0), _update_timestamp(clk::now()), _is_alive(true)
    { update_is_normal(); }
>> *)
Definition endpoint_state_new (now : Z) : endpoint_state :=
  update_is_normal
    {| _heart_beat_state := heart_beat_state_of_generation 0;
       _application_state := ∅;
       _update_timestamp := now;
       _is_alive := true;
       _is_normal := false |}.

(** [endpoint_state(heart_beat_state initial_hb_state)]. *)
Definition endpoint_state_of_heart_beat (initial_hb_state : heart_beat_state)
    (now : Z) : endpoint_state :=
  update_is_normal
    {| _heart_beat_state := initial_hb_state;
       _application_state := ∅;
       _update_timestamp := now;
       _is_alive := true;
       _is_normal := false |}.

(** [endpoint_state(heart_beat_state&& initial_hb_state,
    const std::map<application_state, versioned_value>& application_state)]. *)
Definition endpoint_state_of_application_state
    (initial_hb_state : heart_beat_state)
    (application_state_map : gmap application_state versioned_value)
    (now : Z) : endpoint_state :=
  update_is_normal
    {| _heart_beat_state := initial_hb_state;
       _application_state := application_state_map;
       _update_timestamp := now;
       _is_alive := true;
       _is_normal := false |}.

Definition get_heart_beat_state (es : endpoint_state) : heart_beat_state :=
  _heart_beat_state es.

Definition get_application_state_map (es : endpoint_state)
    : gmap application_state versioned_value :=
  _application_state es.

Definition get_update_timestamp (es : endpoint_state) : Z :=
  _update_timestamp es.

(** [update_timestamp()]: [_update_timestamp = clk::now()]. *)
Definition update_timestamp (now : Z) (es : endpoint_state) : endpoint_state :=
  {| _heart_beat_state := _heart_beat_state es;
     _application_state := _application_state es;
     _update_timestamp := now;
     _is_alive := _is_alive es;
     _is_normal := _is_normal es |}.

(** [set_heart_beat_state_and_update_timestamp(hbs)]:
    [update_timestamp(); _heart_beat_state = hbs;] *)
Definition set_heart_beat_state_and_update_timestamp (hbs : heart_beat_state)
    (now : Z) (es : endpoint_state) : endpoint_state :=
  let es := update_timestamp now es in
  {| _heart_beat_state := hbs;
     _application_state := _application_state es;
     _update_timestamp := _update_timestamp es;
     _is_alive := _is_alive es;
     _is_normal := _is_normal es |}.

Definition is_alive (es : endpoint_state) : bool := _is_alive es.

Definition set_alive (alive : bool) (es : endpoint_state) : endpoint_state :=
  {| _heart_beat_state := _heart_beat_state es;
     _application_state := _application_state es;
     _update_timestamp := _update_timestamp es;
     _is_alive := alive;
     _is_normal := _is_normal es |}.

Definition mark_alive (es : endpoint_state) : endpoint_state :=
  set_alive true es.

Definition mark_dead (es : endpoint_state) : endpoint_state :=
  set_alive false es.

(** [is_shutdown()]: [get_status() == sstring(versioned_value::SHUTDOWN)]. *)
Definition is_shutdown (es : endpoint_state) : bool :=
  String.eqb (get_status es) SHUTDOWN.

(** The member functions that change an [endpoint_state] without handing
    out a reference to its private map. *)
Inductive operation :=
| op_set_heart_beat_state_and_update_timestamp (hbs : heart_beat_state) (now : Z)
| op_add_application_state (key : application_state) (v : versioned_value)
| op_apply_application_state (key : application_state) (v : versioned_value)
| op_apply_application_state_from (other : endpoint_state)
| op_update_timestamp (now : Z)
| op_set_alive (alive : bool)
| op_mark_alive
| op_mark_dead.

Definition perform (op : operation) (es : endpoint_state) : endpoint_state :=
  match op with
  | op_set_heart_beat_state_and_update_timestamp hbs now =>
      set_heart_beat_state_and_update_timestamp hbs now es
  | op_add_application_state key v => add_application_state key v es
  | op_apply_application_state key v => apply_application_state key v es
  | op_apply_application_state_from other =>
      apply_application_state_from other es
  | op_update_timestamp now => update_timestamp now es
  | op_set_alive alive => set_alive alive es
  | op_mark_alive => mark_alive es
  | op_mark_dead => mark_dead es
  end.

(** A run of calls, first call first. *)
Definition perform_all (ops : list operation) (es : endpoint_state)
    : endpoint_state :=
  foldl (fun acc op => perform op acc) es ops.

(** Whether a comma occurs in a string. *)
Fixpoint has_comma (s : string) : bool :=
  match s with
  | EmptyString => false
  | String c rest => Ascii.eqb c ","%char || has_comma rest
  end.

(** ** Properties of the rest of the class *)

Lemma apply_application_states_frame calls : forall es,
  _heart_beat_state (apply_application_states calls es) = _heart_beat_state es
  /\ _update_timestamp (apply_application_states calls es) = _update_timestamp es
  /\ _is_alive (apply_application_states calls es) = _is_alive es.
Proof.
  induction calls as [|[k v] calls IH]; intros es; [done|].
  exact (IH (apply_application_state k v es)).
Qed.

(** What a run of calls with pairwise different keys leaves under a key. *)
Lemma apply_application_states_lookup calls : forall es key,
  NoDup calls.*1 ->
  _application_state (apply_application_states calls es) !! key
  = match (list_to_map calls : gmap application_state versioned_value) !! key with
    | Some v =>
        Some (if version (stored es key) <? version v then v else stored es key)
    | None => _application_state es !! key
    end.
Proof.
  induction calls as [|[k v] calls IH]; intros es key Hnd.
  - cbn. by rewrite lookup_empty.
  - cbn in Hnd. apply NoDup_cons in Hnd as [Hk Hnd].
    cbn [apply_application_states foldl].
    change (foldl _ ?e calls) with (apply_application_states calls e).
    rewrite (IH _ key Hnd). cbn [list_to_map foldr].
    destruct (decide (k = key)) as [->|Hne].
    + rewrite lookup_insert_eq.
      rewrite (not_elem_of_list_to_map_1 calls key Hk).
      by rewrite apply_application_state_map, lookup_insert_eq.
    + rewrite lookup_insert_ne by done.
      rewrite stored_apply_other by done.
      by rewrite lookup_apply_other.
Qed.

Lemma apply_application_state_from_lookup other es key :
  _application_state (apply_application_state_from other es) !! key
  = match _application_state other !! key with
    | Some v =>
        Some (if version (stored es key) <? version v then v else stored es key)
    | None => _application_state es !! key
    end.
Proof.
  unfold apply_application_state_from. rewrite update_is_normal_map.
  rewrite apply_application_states_lookup by apply NoDup_fst_map_to_list.
  by rewrite list_to_map_to_list.
Qed.

Lemma update_is_normal_ext es1 es2 :
  _heart_beat_state es1 = _heart_beat_state es2 ->
  _application_state es1 = _application_state es2 ->
  _update_timestamp es1 = _update_timestamp es2 ->
  _is_alive es1 = _is_alive es2 ->
  update_is_normal es1 = update_is_normal es2.
Proof.
  intros Hhb Hmap Hts Halive.
  unfold update_is_normal, get_status, get_application_state_ptr.
  by rewrite Hhb, Hmap, Hts, Halive.
Qed.

Lemma newer_of_newer (e v : versioned_value) :
  (if version (if version e <? version v then v else e) <? version v
   then v else (if version e <? version v then v else e))
  = (if version e <? version v then v else e).
Proof.
  destruct (Z.ltb_spec (version e) (version v)) as [Hlt|Hge].
  - by rewrite Z.ltb_irrefl.
  - destruct (Z.ltb_spec (version e) (version v)); [lia|done].
Qed.

Lemma first_piece_no_comma (s : string) : has_comma (first_piece s) = false.
Proof.
  induction s as [|c s IH]; [done|]. cbn.
  destruct (Ascii.eqb c ",") eqn:Hc; [done|]. cbn. by rewrite Hc.
Qed.

Lemma first_piece_split (s : string) :
  s = first_piece s
  \/ exists rest, s = (first_piece s ++ String ","%char rest)%string.
Proof.
  induction s as [|c s IH]; [by left|]. cbn.
  destruct (Ascii.eqb_spec c ","%char) as [->|Hc].
  - right. by exists s.
  - destruct IH as [IH|[rest IH]].
    + left. exact (f_equal (String c) IH).
    + right. exists rest. exact (f_equal (String c) IH).
Qed.

Lemma first_piece_whole (s : string) :
  has_comma s = false -> first_piece s = s.
Proof.
  induction s as [|c s IH]; [done|]. cbn.
  destruct (Ascii.eqb c ","); [done|]. cbn. intros Hs.
  exact (f_equal (String c) (IH Hs)).
Qed.

Lemma first_piece_before_comma (s rest : string) :
  has_comma s = false ->
  first_piece (s ++ String ","%char rest) = s.
Proof.
  induction s as [|c s IH]; intros Hs.
  - done.
  - cbn in Hs. apply orb_false_elim in Hs as [Hc Hs].
    change (first_piece (String c (s ++ String ","%char rest)) = String c s)%string.
    cbn [first_piece]. rewrite Hc.
    exact (f_equal (String c) (IH Hs)).
Qed.

(** X5. [apply_application_state(const endpoint_state&)] merges key by
    key: under a key of the other state the newer of the two entries is
    left, the local one when the versions are equal and the
    value-initialised one standing for a missing local entry; a key the
    other state does not have keeps what it had; and the order in which
    the other state's entries are visited does not matter. *)
Theorem apply_application_state_from_keeps_newer :
  forall (other es : endpoint_state),
    (forall key : application_state,
       _application_state (apply_application_state_from other es) !! key
       = match _application_state other !! key with
         | Some v =>
             Some (if version (stored es key) <? version v
                   then v else stored es key)
         | None => _application_state es !! key
         end)
    /\ (forall calls,
          calls ≡ₚ map_to_list (_application_state other) ->
          update_is_normal (apply_application_states calls es)
          = apply_application_state_from other es)
    /\ _heart_beat_state (apply_application_state_from other es)
       = _heart_beat_state es
    /\ _update_timestamp (apply_application_state_from other es)
       = _update_timestamp es
    /\ _is_alive (apply_application_state_from other es) = _is_alive es.
Proof.
  intros other es.
  split; [intros key; apply apply_application_state_from_lookup|].
  split.
  { intros calls Hperm. unfold apply_application_state_from.
    assert (Hnd : NoDup calls.*1).
    { rewrite Hperm. apply NoDup_fst_map_to_list. }
    destruct (apply_application_states_frame calls es) as (Hhb & Hts & Hal).
    destruct (apply_application_states_frame
                (map_to_list (_application_state other)) es)
      as (Hhb' & Hts' & Hal').
    apply update_is_normal_ext; [congruence| |congruence|congruence].
    apply map_eq. intros key.
    rewrite !apply_application_states_lookup
      by (done || apply NoDup_fst_map_to_list).
    by rewrite (list_to_map_proper calls _ Hnd Hperm). }
  unfold apply_application_state_from.
  destruct (apply_application_states_frame
              (map_to_list (_application_state other)) es)
    as (Hhb & Hts & Hal).
  done.
Qed.

(** X6. Merging the same state in a second time changes nothing, and so
    does merging a state into itself, as far as the map goes. *)
Theorem apply_application_state_from_idempotent :
  forall (other es : endpoint_state),
    apply_application_state_from other (apply_application_state_from other es)
    = apply_application_state_from other es
    /\ _application_state (apply_application_state_from es es)
       = _application_state es.
Proof.
  intros other es. split.
  - assert (Hmap :
      _application_state
        (apply_application_state_from other
           (apply_application_state_from other es))
      = _application_state (apply_application_state_from other es)).
    { apply map_eq. intros key.
      rewrite (apply_application_state_from_lookup other
                 (apply_application_state_from other es) key).
      destruct (_application_state other !! key) as [v|] eqn:Hv; [|done].
      unfold stored.
      rewrite !apply_application_state_from_lookup, Hv. cbn.
      fold (stored es key). by rewrite newer_of_newer. }
    set (es1 := apply_application_state_from other es) in *.
    unfold apply_application_state_from at 1.
    unfold apply_application_state_from in Hmap at 1.
    rewrite update_is_normal_map in Hmap.
    destruct (apply_application_states_frame
                (map_to_list (_application_state other)) es1)
      as (Hhb & Hts & Hal).
    transitivity (update_is_normal es1).
    + by apply update_is_normal_ext.
    + unfold es1, apply_application_state_from. apply update_is_normal_idem.
  - apply map_eq. intros key.
    rewrite apply_application_state_from_lookup.
    destruct (_application_state es !! key) as [v|] eqn:Hv; [|done].
    unfold stored. rewrite Hv. cbn. by rewrite Z.ltb_irrefl.
Qed.

Lemma stored_apply_application_state_from other es key :
  stored (apply_application_state_from other es) key
  = match _application_state other !! key with
    | Some v => if version (stored es key) <? version v then v else stored es key
    | None => stored es key
    end.
Proof.
  unfold stored at 1. rewrite apply_application_state_from_lookup.
  by destruct (_application_state other !! key).
Qed.

Lemma apply_application_state_from_frame other es :
  _heart_beat_state (apply_application_state_from other es) = _heart_beat_state es
  /\ _update_timestamp (apply_application_state_from other es)
     = _update_timestamp es
  /\ _is_alive (apply_application_state_from other es) = _is_alive es.
Proof.
  unfold apply_application_state_from.
  exact (apply_application_states_frame
           (map_to_list (_application_state other)) es).
Qed.

Lemma apply_application_state_from_ext other1 es1 other2 es2 :
  _heart_beat_state es1 = _heart_beat_state es2 ->
  _update_timestamp es1 = _update_timestamp es2 ->
  _is_alive es1 = _is_alive es2 ->
  _application_state (apply_application_state_from other1 es1)
  = _application_state (apply_application_state_from other2 es2) ->
  apply_application_state_from other1 es1
  = apply_application_state_from other2 es2.
Proof.
  intros Hhb Hts Hal Hmap. unfold apply_application_state_from in *.
  rewrite !update_is_normal_map in Hmap.
  destruct (apply_application_states_frame
              (map_to_list (_application_state other1)) es1) as (H1 & H2 & H3).
  destruct (apply_application_states_frame
              (map_to_list (_application_state other2)) es2) as (H4 & H5 & H6).
  apply update_is_normal_ext; congruence.
Qed.

(** X21. Two states merged into a third one after the other leave, under
    every key, the same version whichever is merged first: the highest of
    the three.  When the two never hold different entries of the same
    version under a key, the whole resulting states are the same. *)
Theorem apply_application_state_from_commutes :
  forall (a b es : endpoint_state),
    (forall key : application_state,
       version (stored (apply_application_state_from a
                          (apply_application_state_from b es)) key)
       = version (stored (apply_application_state_from b
                            (apply_application_state_from a es)) key)
       /\ version (stored (apply_application_state_from a es) key)
          = match _application_state a !! key with
            | Some v => Z.max (version (stored es key)) (version v)
            | None => version (stored es key)
            end)
    /\ ((forall (key : application_state) va vb,
           _application_state a !! key = Some va ->
           _application_state b !! key = Some vb ->
           version va = version vb -> va = vb) ->
        apply_application_state_from a (apply_application_state_from b es)
        = apply_application_state_from b (apply_application_state_from a es)).
Proof.
  intros a b es. split.
  - intros key. rewrite !stored_apply_application_state_from.
    destruct (_application_state a !! key) as [va|];
      destruct (_application_state b !! key) as [vb|];
      repeat match goal with
             | |- context [version (stored es key) <? ?y] =>
                 destruct (Z.ltb_spec (version (stored es key)) y);
                 cbn beta iota
             end;
      repeat match goal with
             | |- context [?x <? ?y] =>
                 destruct (Z.ltb_spec x y); cbn beta iota
             end; split; lia.
  - intros Hties.
    assert (Hmap :
      _application_state
        (apply_application_state_from a (apply_application_state_from b es))
      = _application_state
          (apply_application_state_from b (apply_application_state_from a es))).
    { apply map_eq. intros key.
      rewrite !apply_application_state_from_lookup.
      rewrite !stored_apply_application_state_from.
      destruct (_application_state a !! key) as [va|] eqn:Ha;
        destruct (_application_state b !! key) as [vb|] eqn:Hb; try done.
      specialize (Hties key va vb Ha Hb).
      repeat match goal with
             | |- context [version (stored es key) <? ?y] =>
                 destruct (Z.ltb_spec (version (stored es key)) y);
                 cbn beta iota
             end;
      repeat match goal with
             | |- context [?x <? ?y] =>
                 destruct (Z.ltb_spec x y); cbn beta iota
             end; try done; try lia; f_equal;
        try (apply Hties; lia); try (symmetry; apply Hties; lia). }
    destruct (apply_application_state_from_frame b es) as (Hb1 & Hb2 & Hb3).
    destruct (apply_application_state_from_frame a es) as (Hd1 & Hd2 & Hd3).
    apply apply_application_state_from_ext; [congruence..|exact Hmap].
Qed.

(** X7. Whatever constructor made an [endpoint_state] and whatever calls
    of its member functions followed, [is_normal()] says whether
    [get_status()] is STATUS_NORMAL; the calls that do not touch the map
    leave both alone. *)
Theorem is_normal_is_kept_in_step_with_status :
  forall (initial_hb_state : heart_beat_state)
         (application_state_map : gmap application_state versioned_value)
         (now : Z) (ops : list operation),
    let agrees es := is_normal es = String.eqb (get_status es) STATUS_NORMAL in
    agrees (perform_all ops (endpoint_state_new now))
    /\ agrees (perform_all ops (endpoint_state_of_heart_beat initial_hb_state now))
    /\ agrees (perform_all ops
                 (endpoint_state_of_application_state initial_hb_state
                    application_state_map now))
    /\ is_normal (endpoint_state_new now) = String.eqb EmptyString STATUS_NORMAL
    /\ is_alive (endpoint_state_new now) = true.
Proof.
  intros hb m now ops agrees.
  assert (Hstep : forall op es, agrees es -> agrees (perform op es)).
  { intros op es Hes. destruct op; try done; exact Hes. }
  assert (Hrun : forall es, agrees es -> agrees (perform_all ops es)).
  { induction ops as [|op ops IH]; intros es Hes; [done|].
    cbn. apply IH, Hstep, Hes. }
  repeat split; try apply Hrun; done.
Qed.

(** X8. [get_status()] is the text of the STATUS entry before its first
    comma: it holds no comma, and the entry's text is the status itself or
    the status, a comma and more.  So [is_shutdown()] holds exactly when
    the STATUS entry reads SHUTDOWN or starts with SHUTDOWN and a comma. *)
Theorem is_shutdown_reads_the_first_piece :
  forall (es : endpoint_state),
    has_comma SHUTDOWN = false ->
    SHUTDOWN <> EmptyString ->
    has_comma (get_status es) = false
    /\ (forall app_state,
          _application_state es !! STATUS = Some app_state ->
          value app_state = get_status es
          \/ exists rest,
               value app_state = (get_status es ++ String ","%char rest)%string)
    /\ (is_shutdown es = true <->
        exists app_state,
          _application_state es !! STATUS = Some app_state
          /\ (value app_state = SHUTDOWN
              \/ exists rest,
                   value app_state = (SHUTDOWN ++ String ","%char rest)%string)).
Proof.
  intros es Hcomma Hne.
  unfold is_shutdown, get_status, get_application_state_ptr.
  destruct (_application_state es !! STATUS) as [app_state|] eqn:Hs.
  - split; [apply first_piece_no_comma|].
    split.
    { intros ? [= <-]. apply first_piece_split. }
    rewrite String.eqb_eq. split.
    + intros Heq. exists app_state. split; [done|].
      rewrite <- Heq. apply first_piece_split.
    + intros (? & [= <-] & [Hv|[rest Hv]]); rewrite Hv.
      * by apply first_piece_whole.
      * by apply first_piece_before_comma.
  - split; [done|]. split; [done|].
    rewrite String.eqb_eq. split.
    + intros Heq. by destruct Hne.
    + by intros (? & ? & _).
Qed.

End EndpointState.

(** ** Concrete runs *)

(** A state whose STATUS entry (key 0) announces a shutdown. *)
Definition example_leaving : @endpoint_state nat _ _ :=
  EndpointState (HeartBeatState 1 7)
    {[ 0%nat := VersionedValue 3 "shutdown,true" ]} 0 true false.

Lemma is_shutdown_reads_the_first_piece_witness :
  is_shutdown 0%nat "shutdown" example_leaving = true
  /\ has_comma (get_status 0%nat example_leaving) = false.
Proof.
  destruct (is_shutdown_reads_the_first_piece 0%nat "shutdown" example_leaving
              eq_refl ltac:(discriminate)) as (Hcomma & _ & Hiff).
  split; [|exact Hcomma].
  apply Hiff. exists (VersionedValue 3 "shutdown,true").
  split; [reflexivity|]. right. by exists "true"%string.
Defined.

End gms.

(* ===================================================================== *)
(** * read_context.hh: the autoupdating underlying reader *)
(* ===================================================================== *)

Module cache.

(** ** Collaborators declared outside [read_context.hh] *)

(** [utils::phased_barrier::phase_type] and the statistics counters are
    [uint64_t]; [++] wraps at 2^64. *)
Definition phase_type := Z.
Definition uint64_max : Z := 2 ^ 64.
Definition incr64 (x : Z) : Z := (x + 1) mod uint64_max.

(** Modelled from the spec: [dht::decorated_key], ordered by
    [dht::ring_position_comparator], is declared outside the files at hand.
    The spec (6) has the fragments of a source "in partition-key order": a
    key is a position on the ring, here an integer with its usual order. *)
Definition decorated_key := Z.

(** Modelled from the spec: [dht::ring_position_view], a position between
    keys, built by [for_range_start] and [for_after_key]. *)
Inductive ring_position_view :=
| rpv_min
| rpv_before_key (k : decorated_key)
| rpv_after_key (k : decorated_key).

Record range_bound := RangeBound {
  bound_value : decorated_key;
  is_inclusive : bool
}.

(** Modelled from the spec: [dht::partition_range], a key range with
    optional start and end bounds, each inclusive or exclusive. *)
Record partition_range := PartitionRange {
  range_start : option range_bound;
  range_end : option range_bound
}.

(** The value-initialised range ([_range = { }]): unbounded on both sides. *)
Definition full_range : partition_range := PartitionRange None None.

Definition after_start (r : partition_range) (k : decorated_key) : bool :=
  match range_start r with
  | None => true
  | Some b => if is_inclusive b then bound_value b <=? k else bound_value b <? k
  end.

Definition before_end (r : partition_range) (k : decorated_key) : bool :=
  match range_end r with
  | None => true
  | Some b => if is_inclusive b then k <=? bound_value b else k <? bound_value b
  end.

Definition contains (r : partition_range) (k : decorated_key) : bool :=
  after_start r k && before_end r k.

(** Modelled from the spec: [partition_range::split_after] is declared
    outside the repository files at hand.  The spec (4.5) has the remaining
    range start "re-anchored just after the last fully-emitted key": the
    part of the range strictly after [k], nothing when the range ends at or
    before [k], and the whole range when [k] lies before it. *)
Definition split_after (r : partition_range) (k : decorated_key)
    : option partition_range :=
  if contains r k &&
     match range_end r with None => true | Some e => negb (k =? bound_value e) end
  then Some (PartitionRange (Some (RangeBound k false)) (range_end r))
  else match range_end r with
       | Some e => if bound_value e <=? k then None else Some r
       | None => Some r
       end.

(** Modelled from the spec: [ring_position_view::for_range_start] and
    [for_after_key], the positions just before the first key a range admits
    and just after a key. *)
Definition for_range_start (r : partition_range) : ring_position_view :=
  match range_start r with
  | None => rpv_min
  | Some b => if is_inclusive b then rpv_before_key (bound_value b)
              else rpv_after_key (bound_value b)
  end.

Definition for_after_key (k : decorated_key) : ring_position_view :=
  rpv_after_key k.

(** Modelled from the spec: [mutation_fragment], the stream elements of
    the mutation source contract (spec 6): partition start, rows, partition
    end. *)
Inductive mutation_fragment :=
| partition_start (key : decorated_key)
| clustering_row (row : Z)
| partition_end.

Definition is_partition_start (mf : mutation_fragment) : bool :=
  match mf with partition_start _ => true | _ => false end.

Definition is_end_of_partition (mf : mutation_fragment) : bool :=
  match mf with partition_end => true | _ => false end.

(** One partition of a mutation source: its key and its rows. *)
Record partition := Partition {
  pkey : decorated_key;
  prows : list Z
}.

(** Modelled from the spec: a [mutation_source] (spec 6) produces, for a key
    range, "a lazy, restartable, forward-only sequence of partition-start /
    row / tombstone / partition-end fragments in partition-key order,
    supporting fast_forward_to(new_range) and explicit close".  A source is
    the list of its partitions in key order. *)
Definition mutation_source := list partition.

Definition fragments_of_partition (p : partition) : list mutation_fragment :=
  partition_start (pkey p) :: map clustering_row (prows p) ++ [partition_end].

Definition fragments_of (ps : list partition) : list mutation_fragment :=
  concat (map fragments_of_partition ps).

Definition restrict (src : mutation_source) (r : partition_range)
    : list partition :=
  List.filter (fun p => contains r (pkey p)) src.

(** Modelled from the spec: [flat_mutation_reader] (spec 6), a forward-only
    stream over a key range of a source: the source it reads and the
    fragments it has yet to produce. *)
Record flat_mutation_reader := FlatMutationReader {
  rd_source : mutation_source;
  rd_buffer : list mutation_fragment
}.

Definition make_reader (src : mutation_source) (r : partition_range)
    : flat_mutation_reader :=
  FlatMutationReader src (fragments_of (restrict src r)).

(** Modelled from the spec: [next_partition()] leaves the current
    partition, if inside one, and stops before the next partition start. *)
Fixpoint skip_to_partition_start (fs : list mutation_fragment)
    : list mutation_fragment :=
  match fs with
  | [] => []
  | partition_start k :: _ => fs
  | _ :: rest => skip_to_partition_start rest
  end.

Definition next_partition (rd : flat_mutation_reader) : flat_mutation_reader :=
  FlatMutationReader (rd_source rd) (skip_to_partition_start (rd_buffer rd)).

(** Modelled from the spec: [is_end_of_stream() && is_buffer_empty()],
    nothing is left to produce. *)
Definition at_end (rd : flat_mutation_reader) : bool :=
  match rd_buffer rd with [] => true | _ => false end.

(** Modelled from the spec: [operator()()], the next fragment, if any. *)
Definition pop (rd : flat_mutation_reader)
    : option mutation_fragment * flat_mutation_reader :=
  match rd_buffer rd with
  | [] => (None, rd)
  | mf :: rest => (Some mf, FlatMutationReader (rd_source rd) rest)
  end.

(** Modelled from the spec: [flat_mutation_reader::fast_forward_to(range)]
    repositions the reader of the same source on a new range (spec 6). *)
Definition reader_fast_forward_to (rd : flat_mutation_reader)
    (r : partition_range) : flat_mutation_reader :=
  make_reader (rd_source rd) r.

(** Modelled from the spec: the part of [row_cache] that the reader
    consults (spec 4.4, 4.5): the phase of a position, the snapshot of a
    phase, [snapshot_of], and the two counters of [_tracker._stats].  The
    three functions are fields, so every theorem holds for any of them. *)
Record row_cache := RowCache {
  phase_of : ring_position_view -> phase_type;
  snapshot_for_phase : phase_type -> mutation_source;
  snapshot_of : ring_position_view -> mutation_source * phase_type;
  underlying_recreations : Z;
  underlying_partition_skips : Z
}.

Definition count_recreation (c : row_cache) : row_cache :=
  RowCache (phase_of c) (snapshot_for_phase c) (snapshot_of c)
           (incr64 (underlying_recreations c)) (underlying_partition_skips c).

Definition count_partition_skip (c : row_cache) : row_cache :=
  RowCache (phase_of c) (snapshot_for_phase c) (snapshot_of c)
           (underlying_recreations c) (incr64 (underlying_partition_skips c)).

(** Modelled from the spec: [row_cache::create_underlying_reader(ctx,
    snapshot, range)], a reader of [snapshot] over [range]. *)
Definition create_underlying_reader (snapshot : mutation_source)
    (r : partition_range) : flat_mutation_reader :=
  make_reader snapshot r.

(** ** [class autoupdating_underlying_reader] *)

Record autoupdating_underlying_reader := AutoupdatingUnderlyingReader {
  _reader : option flat_mutation_reader;
  _reader_creation_phase : phase_type;
  _range : partition_range;
  _last_key : option decorated_key;
  _new_last_key : option decorated_key
}.

(** The constructor: no reader, phase 0, the value-initialised range and
    no keys. *)
Definition fresh_reader : autoupdating_underlying_reader :=
  AutoupdatingUnderlyingReader None 0 full_range None None.

(** The reader holds a reference to the cache, whose counters it bumps, and
    the environment moves the cache's phases between calls: both live in one
    store, together with the readers on which [close()] has run. *)
Record world := World {
  w_cache : row_cache;
  w_reader : autoupdating_underlying_reader;
  w_closed : list flat_mutation_reader
}.

Inductive failure :=
| absent_reader_dereferenced
| assertion_failed.

Inductive outcome (A : Type) :=
| Done (a : A) (w : world)
| Abort (f : failure).
Arguments Done {A} a w.
Arguments Abort {A} f.

Definition M (A : Type) := world -> outcome A.

Definition ret {A} (a : A) : M A := fun w => Done a w.

Definition bind {A B} (m : M A) (k : A -> M B) : M B :=
  fun w => match m w with
           | Done a w' => k a w'
           | Abort f => Abort f
           end.

Notation "x <- m ;; k" := (bind m (fun x => k))
  (at level 20, m at level 99, k at level 200, only parsing).

Definition fail {A} (f : failure) : M A := fun _ => Abort f.

Definition get_reader : M autoupdating_underlying_reader :=
  fun w => Done (w_reader w) w.

Definition put_reader (a : autoupdating_underlying_reader) : M unit :=
  fun w => Done tt (World (w_cache w) a (w_closed w)).

Definition get_cache : M row_cache := fun w => Done (w_cache w) w.

Definition modify_cache (f : row_cache -> row_cache) : M unit :=
  fun w => Done tt (World (f (w_cache w)) (w_reader w) (w_closed w)).

(** [flat_mutation_reader::close()]. *)
Definition reader_close (rd : flat_mutation_reader) : M unit :=
  fun w => Done tt (World (w_cache w) (w_reader w) (w_closed w ++ [rd])).

Definition set_reader (r : option flat_mutation_reader)
    (a : autoupdating_underlying_reader) : autoupdating_underlying_reader :=
  AutoupdatingUnderlyingReader r (_reader_creation_phase a) (_range a)
    (_last_key a) (_new_last_key a).

Definition set_reader_creation_phase (p : phase_type)
    (a : autoupdating_underlying_reader) : autoupdating_underlying_reader :=
  AutoupdatingUnderlyingReader (_reader a) p (_range a)
    (_last_key a) (_new_last_key a).

Definition set_range (r : partition_range)
    (a : autoupdating_underlying_reader) : autoupdating_underlying_reader :=
  AutoupdatingUnderlyingReader (_reader a) (_reader_creation_phase a) r
    (_last_key a) (_new_last_key a).

Definition set_last_key (k : option decorated_key)
    (a : autoupdating_underlying_reader) : autoupdating_underlying_reader :=
  AutoupdatingUnderlyingReader (_reader a) (_reader_creation_phase a)
    (_range a) k (_new_last_key a).

Definition set_new_last_key (k : option decorated_key)
    (a : autoupdating_underlying_reader) : autoupdating_underlying_reader :=
  AutoupdatingUnderlyingReader (_reader a) (_reader_creation_phase a)
    (_range a) (_last_key a) k.

(** [bool(_reader)]. *)
Definition engaged (a : autoupdating_underlying_reader) : bool :=
  match _reader a with Some _ => true | None => false end.

Definition population_range_start (a : autoupdating_underlying_reader)
    : ring_position_view :=
  match _last_key a with
  | Some k => for_after_key k
  | None => for_range_start (_range a)
  end.

Definition creation_phase (a : autoupdating_underlying_reader) : phase_type :=
  _reader_creation_phase a.

Definition range (a : autoupdating_underlying_reader) : partition_range :=
  _range a.

Section Reader.

(** What a [decorated_key] holds after it has been moved from: valid but
    unspecified.  [std::move] of an engaged [std::optional] leaves it
    engaged, holding such a key. *)
Variable moved_from_key : decorated_key -> decorated_key.

(** [close_reader()]:
    [_reader ? _reader->close() : make_ready_future<>()]. *)
Definition close_reader : M unit :=
  a <- get_reader ;;
  match _reader a with
  | Some rd => reader_close rd
  | None => ret tt
  end.

(** [close()]. *)
Definition close : M unit := close_reader.

(** [underlying()]: [*_reader]. *)
Definition underlying : M flat_mutation_reader :=
  a <- get_reader ;;
  match _reader a with
  | Some rd => ret rd
  | None => fail absent_reader_dereferenced
  end.

(** The continuation of [move_to_next_partition] that runs once
    [refresh_reader] has resolved:
<<
    _reader->next_partition().then([this] {
      if (_reader->is_end_of_stream() && _reader->is_buffer_empty()) {
          return make_ready_future<mutation_fragment_opt>();
      }
      return ( *_reader)().then([this] (auto&& mfopt) {
          if (mfopt) {
              assert(mfopt->is_partition_start());
              _new_last_key = mfopt->as_partition_start().key();
          }
          return std::move(mfopt);
      });
    });
>> *)
Definition read_partition_start : M (option mutation_fragment) :=
  rd <- underlying ;;
  let rd := next_partition rd in
  a <- get_reader ;;
  _ <- put_reader (set_reader (Some rd) a) ;;
  if at_end rd then ret None
  else
    let '(mfopt, rd') := pop rd in
    a <- get_reader ;;
    _ <- put_reader (set_reader (Some rd') a) ;;
    match mfopt with
    | Some (partition_start k) =>
        a <- get_reader ;;
        _ <- put_reader (set_new_last_key (Some k) a) ;;
        ret mfopt
    | Some _ => fail assertion_failed
    | None => ret None
    end.

(** The tail of the refresh branch, from [if (_reader)] on:
<<
    if (_reader) { ++_cache._tracker._stats.underlying_recreations; }
    auto old_reader = std::move( *_reader );
    refresh_reader = futurize_invoke([this, phase] () {
      _reader = _cache.create_underlying_reader(_read_context,
                    _cache.snapshot_for_phase(phase), _range);
      _reader_creation_phase = phase;
    }).finally([rd = std::move(old_reader)] () mutable {
      return rd.close();
    });
>> *)
Definition recreate_reader (phase : phase_type) : M unit :=
  a <- get_reader ;;
  _ <- (if engaged a then modify_cache count_recreation else ret tt) ;;
  old_reader <- underlying ;;
  c <- get_cache ;;
  a <- get_reader ;;
  _ <- put_reader
         (set_reader_creation_phase phase
            (set_reader
               (Some (create_underlying_reader (snapshot_for_phase c phase)
                        (_range a)))
               a)) ;;
  reader_close old_reader.

(** [_last_key = std::move(_new_last_key);] *)
Definition take_last_key (a : autoupdating_underlying_reader)
    : autoupdating_underlying_reader :=
  set_new_last_key (moved_from_key <$> _new_last_key a)
    (set_last_key (_new_last_key a) a).

(** [move_to_next_partition()]. *)
Definition move_to_next_partition : M (option mutation_fragment) :=
  a <- get_reader ;;
  _ <- put_reader (take_last_key a) ;;
  a <- get_reader ;;
  let start := population_range_start a in
  c <- get_cache ;;
  let phase := phase_of c start in
  if negb (engaged a) || negb (_reader_creation_phase a =? phase)
  then
    match _last_key a with
    | Some last_key =>
        match split_after (_range a) last_key with
        | None => _ <- close_reader ;; ret None
        | Some new_range =>
            _ <- put_reader (set_last_key None (set_range new_range a)) ;;
            _ <- recreate_reader phase ;;
            read_partition_start
        end
    | None =>
        _ <- recreate_reader phase ;;
        read_partition_start
    end
  else read_partition_start.

(** The tail of [fast_forward_to]:
<<
    close_reader().then([this, snapshot, phase] () mutable {
        _reader = _cache.create_underlying_reader(_read_context, snapshot, _range);
        _reader_creation_phase = phase;
    });
>> *)
Definition replace_reader (snapshot : mutation_source) (phase : phase_type)
    : M unit :=
  _ <- close_reader ;;
  a <- get_reader ;;
  put_reader
    (set_reader_creation_phase phase
       (set_reader (Some (create_underlying_reader snapshot (_range a))) a)).

(** [fast_forward_to(range, snapshot, phase)]. *)
Definition fast_forward_to_phase (new_range : partition_range)
    (snapshot : mutation_source) (phase : phase_type) : M unit :=
  a <- get_reader ;;
  _ <- put_reader
         (set_new_last_key None (set_last_key None (set_range new_range a))) ;;
  a <- get_reader ;;
  match _reader a with
  | Some rd =>
      if _reader_creation_phase a =? phase then
        _ <- modify_cache count_partition_skip ;;
        put_reader (set_reader (Some (reader_fast_forward_to rd (_range a))) a)
      else
        _ <- modify_cache count_recreation ;;
        replace_reader snapshot phase
  | None => replace_reader snapshot phase
  end.

(** [fast_forward_to(range)]: the snapshot and phase come from
    [_cache.snapshot_of(for_range_start(_range))], read before [_range]
    is assigned. *)
Definition fast_forward_to (new_range : partition_range) : M unit :=
  a <- get_reader ;;
  c <- get_cache ;;
  let snapshot_and_phase := snapshot_of c (for_range_start (_range a)) in
  fast_forward_to_phase new_range snapshot_and_phase.1 snapshot_and_phase.2.

(** ** A read through the reader *)

(** The consumer reads the partition it has entered through
    [underlying()]: at most [fetch] fragments, and none past the partition
    end. *)
Fixpoint read_partition_body (fetch : nat) : M (list mutation_fragment) :=
  match fetch with
  | O => ret []
  | S n =>
      rd <- underlying ;;
      let '(mfopt, rd') := pop rd in
      a <- get_reader ;;
      _ <- put_reader (set_reader (Some rd') a) ;;
      match mfopt with
      | None => ret []
      | Some mf =>
          if is_end_of_partition mf then ret [mf]
          else rest <- read_partition_body n ;; ret (mf :: rest)
      end
  end.

(** Between two calls flushes and compactions move the cache's phases. *)
Definition set_phase_of (phi : ring_position_view -> phase_type)
    (c : row_cache) : row_cache :=
  RowCache phi (snapshot_for_phase c) (snapshot_of c)
    (underlying_recreations c) (underlying_partition_skips c).

(** Partition after partition until the reader reports the end; the
    [i]-th call finds the cache with the [i]-th phase assignment. *)
Fixpoint read_partitions (fetch : nat)
    (phases : list (ring_position_view -> phase_type))
    : M (list mutation_fragment) :=
  match phases with
  | [] => ret []
  | phi :: phases' =>
      _ <- modify_cache (set_phase_of phi) ;;
      mfopt <- move_to_next_partition ;;
      match mfopt with
      | None => ret []
      | Some mf =>
          body <- read_partition_body fetch ;;
          rest <- read_partitions fetch phases' ;;
          ret (mf :: body ++ rest)
      end
  end.

(** A read of [r]: the reader is set up on the snapshot of [phase0] (as
    [read_context::create_underlying] does) and then drained. *)
Definition read (fetch : nat) (r : partition_range) (phase0 : phase_type)
    (phases : list (ring_position_view -> phase_type))
    : M (list mutation_fragment) :=
  c <- get_cache ;;
  _ <- fast_forward_to_phase r (snapshot_for_phase c phase0) phase0 ;;
  read_partitions fetch phases.

(** What the consumer sees of one partition. *)
Definition emitted_partition (fetch : nat) (p : partition)
    : list mutation_fragment :=
  partition_start (pkey p)
    :: take fetch (map clustering_row (prows p) ++ [partition_end]).

Definition emitted (fetch : nat) (ps : list partition)
    : list mutation_fragment :=
  concat (map (emitted_partition fetch) ps).

(** Partitions come in strictly ascending key order. *)
Fixpoint strictly_ascending (ks : list decorated_key) : bool :=
  match ks with
  | [] => true
  | k :: rest =>
      match rest with
      | [] => true
      | k' :: _ => (k <? k') && strictly_ascending rest
      end
  end.

Definition sorted_source (src : mutation_source) : Prop :=
  strictly_ascending (map pkey src) = true.

(** The partitions after the last emitted key. *)
Definition after_key (last : option decorated_key) (ps : list partition)
    : list partition :=
  match last with
  | None => ps
  | Some k => List.filter (fun p => k <? pkey p) ps
  end.

Definition call_position (r0 : partition_range) (last : option decorated_key)
    : ring_position_view :=
  match last with
  | Some k => for_after_key k
  | None => for_range_start r0
  end.

(** [view] is the cache as each partition was first touched: the [i]-th
    call, made with the [i]-th phase assignment, finds as next partition of
    the snapshot of its phase the [i]-th partition of [view] (and none once
    [view] is used up). *)
Fixpoint first_touched (c : row_cache) (r0 : partition_range)
    (last : option decorated_key)
    (phases : list (ring_position_view -> phase_type))
    (view : list partition) : Prop :=
  match phases with
  | [] => True
  | phi :: phases' =>
      head (after_key last
              (restrict (snapshot_for_phase c (phi (call_position r0 last))) r0))
      = head view
      /\ match view with
         | [] => True
         | p :: view' => first_touched c r0 (Some (pkey p)) phases' view'
         end
  end.

(** ** Properties of the reader *)

Lemma skip_to_partition_start_shape (fs : list mutation_fragment) :
  skip_to_partition_start fs = []
  \/ exists k rest, skip_to_partition_start fs = partition_start k :: rest.
Proof.
  induction fs as [|mf fs IH]; [by left|].
  destruct mf; simpl; eauto.
Qed.

Lemma skip_to_partition_start_idem (fs : list mutation_fragment) :
  skip_to_partition_start (skip_to_partition_start fs)
  = skip_to_partition_start fs.
Proof.
  induction fs as [|mf fs IH]; [done|]. destruct mf; simpl; auto.
Qed.

(** What [read_partition_start] does when the reader is there. *)
Lemma read_partition_start_engaged (w : world) (rd : flat_mutation_reader) :
  _reader (w_reader w) = Some rd ->
  read_partition_start w =
  match skip_to_partition_start (rd_buffer rd) with
  | partition_start k :: rest =>
      Done (Some (partition_start k))
        (World (w_cache w)
           (set_new_last_key (Some k)
              (set_reader (Some (FlatMutationReader (rd_source rd) rest))
                 (w_reader w)))
           (w_closed w))
  | _ =>
      Done None
        (World (w_cache w) (set_reader (Some (next_partition rd)) (w_reader w))
           (w_closed w))
  end.
Proof.
  intros Hrd.
  unfold read_partition_start, underlying, bind, get_reader, put_reader, ret.
  rewrite Hrd. simpl.
  destruct (skip_to_partition_start_shape (rd_buffer rd)) as [He|(k & rest & He)].
  - unfold at_end, next_partition. simpl. by rewrite He.
  - unfold at_end, pop, next_partition. simpl. rewrite He. simpl. done.
Qed.

Lemma read_partition_start_absent (w : world) :
  _reader (w_reader w) = None ->
  read_partition_start w = Abort absent_reader_dereferenced.
Proof.
  intros Hrd.
  unfold read_partition_start, underlying, bind, get_reader, fail.
  by rewrite Hrd.
Qed.

(** The range that is left to read once [_last_key] has been emitted. *)
Definition remaining_range (a : autoupdating_underlying_reader)
    : option partition_range :=
  match _last_key a with
  | Some k => split_after (_range a) k
  | None => Some (_range a)
  end.

(** The phase the cache reports for the position the next call starts at. *)
Definition phase_at_call (w : world) : phase_type :=
  phase_of (w_cache w) (population_range_start (take_last_key (w_reader w))).

Definition first_partition_start (ps : list partition)
    : option mutation_fragment :=
  match ps with
  | [] => None
  | p :: _ => Some (partition_start (pkey p))
  end.

Lemma skip_fragments_of (ps : list partition) :
  skip_to_partition_start (fragments_of ps) = fragments_of ps.
Proof. by destruct ps. Qed.

(** Unfolds one call down to the store it returns. *)
Ltac run_reader :=
  cbv [move_to_next_partition recreate_reader close_reader replace_reader
       fast_forward_to_phase fast_forward_to underlying close
       bind ret fail get_reader put_reader get_cache modify_cache reader_close
       set_reader set_reader_creation_phase set_range set_last_key
       set_new_last_key take_last_key engaged population_range_start];
  cbn.

Ltac open_world w :=
  destruct w as [?c [?rdo ?cp ?rg ?lk ?nlk] ?cl];
  unfold phase_at_call, remaining_range, take_last_key, population_range_start,
    set_reader, set_reader_creation_phase, set_range, set_last_key,
    set_new_last_key, engaged in *;
  cbn in *.

Lemma move_to_next_partition_same_phase (w : world) (rd : flat_mutation_reader) :
  _reader (w_reader w) = Some rd ->
  _reader_creation_phase (w_reader w) = phase_at_call w ->
  move_to_next_partition w =
  read_partition_start
    (World (w_cache w) (take_last_key (w_reader w)) (w_closed w)).
Proof.
  intros Hrd Hph. open_world w. subst rdo.
  run_reader. rewrite <- Hph. by rewrite Z.eqb_refl.
Qed.

Lemma move_to_next_partition_exhausted (w : world) (old : flat_mutation_reader) :
  _reader (w_reader w) = Some old ->
  _reader_creation_phase (w_reader w) <> phase_at_call w ->
  remaining_range (take_last_key (w_reader w)) = None ->
  move_to_next_partition w =
  Done None
    (World (w_cache w) (take_last_key (w_reader w)) (w_closed w ++ [old])).
Proof.
  intros Hrd Hph Hrem. open_world w. subst rdo.
  apply Z.eqb_neq in Hph.
  run_reader. rewrite Hph. cbn.
  destruct nlk as [k|]; [|done].
  cbn in *. by rewrite Hrem.
Qed.

Lemma move_to_next_partition_recreate (w : world) (old : flat_mutation_reader)
    (r' : partition_range) :
  _reader (w_reader w) = Some old ->
  _reader_creation_phase (w_reader w) <> phase_at_call w ->
  remaining_range (take_last_key (w_reader w)) = Some r' ->
  move_to_next_partition w =
  read_partition_start
    (World (count_recreation (w_cache w))
       (AutoupdatingUnderlyingReader
          (Some (create_underlying_reader
                   (snapshot_for_phase (w_cache w) (phase_at_call w)) r'))
          (phase_at_call w) r' None
          (moved_from_key <$> _new_last_key (w_reader w)))
       (w_closed w ++ [old])).
Proof.
  intros Hrd Hph Hrem. open_world w. subst rdo.
  apply Z.eqb_neq in Hph.
  run_reader. rewrite Hph. cbn.
  destruct nlk as [k|]; cbn in *.
  - by rewrite Hrem.
  - by inversion Hrem.
Qed.


(** The store [read_partition_start] leaves when the reader stands before
    the partitions [ps]. *)
Definition after_partition_start (w : world) (rd : flat_mutation_reader)
    (ps : list partition) : world :=
  match ps with
  | [] =>
      World (w_cache w) (set_reader (Some (next_partition rd)) (w_reader w))
        (w_closed w)
  | p :: ps' =>
      World (w_cache w)
        (set_new_last_key (Some (pkey p))
           (set_reader
              (Some (FlatMutationReader (rd_source rd)
                       (map clustering_row (prows p) ++ partition_end
                          :: fragments_of ps')))
              (w_reader w)))
        (w_closed w)
  end.

Lemma fragments_of_cons (p : partition) (ps : list partition) :
  fragments_of (p :: ps) =
  partition_start (pkey p)
    :: map clustering_row (prows p) ++ partition_end :: fragments_of ps.
Proof.
  unfold fragments_of, fragments_of_partition. cbn.
  by rewrite <- app_assoc.
Qed.

Lemma read_partition_start_on_stream (w : world) (rd : flat_mutation_reader)
    (ps : list partition) :
  _reader (w_reader w) = Some rd ->
  skip_to_partition_start (rd_buffer rd) = fragments_of ps ->
  read_partition_start w
  = Done (first_partition_start ps) (after_partition_start w rd ps).
Proof.
  intros Hrd Hskip.
  rewrite (read_partition_start_engaged w rd Hrd), Hskip.
  destruct ps as [|p ps']; [done|].
  by rewrite fragments_of_cons.
Qed.

Lemma fast_forward_to_phase_run (w : world) (new_range : partition_range)
    (snapshot : mutation_source) (phase : phase_type) :
  fast_forward_to_phase new_range snapshot phase w =
  Done tt
    match _reader (w_reader w) with
    | Some rd =>
        if _reader_creation_phase (w_reader w) =? phase then
          World (count_partition_skip (w_cache w))
            (AutoupdatingUnderlyingReader
               (Some (reader_fast_forward_to rd new_range))
               (_reader_creation_phase (w_reader w)) new_range None None)
            (w_closed w)
        else
          World (count_recreation (w_cache w))
            (AutoupdatingUnderlyingReader
               (Some (create_underlying_reader snapshot new_range))
               phase new_range None None)
            (w_closed w ++ [rd])
    | None =>
        World (w_cache w)
          (AutoupdatingUnderlyingReader
             (Some (create_underlying_reader snapshot new_range))
             phase new_range None None)
          (w_closed w)
    end.
Proof.
  open_world w. run_reader.
  destruct rdo as [rd|]; cbn; [|done].
  by destruct (cp =? phase).
Qed.

(** The one-argument overload asks [snapshot_of] about the start of the
    range the object holds when the call begins. *)
Lemma fast_forward_to_run (w : world) (new_range : partition_range) :
  fast_forward_to new_range w =
  fast_forward_to_phase new_range
    (snapshot_of (w_cache w) (for_range_start (_range (w_reader w)))).1
    (snapshot_of (w_cache w) (for_range_start (_range (w_reader w)))).2
    w.
Proof. reflexivity. Qed.

Lemma split_after_contains (r r' : partition_range) (k : decorated_key) :
  contains r k = true ->
  split_after r k = Some r' ->
  forall x, contains r' x = (k <? x) && contains r x.
Proof.
  unfold split_after, contains, after_start, before_end.
  destruct r as [[[sv si]|] [[ev ei]|]]; cbn; intros Hk Hs x;
    repeat match goal with
    | H : context [if ?b then _ else _] |- _ => destruct b eqn:?
    | H : Some _ = Some _ |- _ => inversion H; clear H; subst
    | H : None = Some _ |- _ => discriminate H
    | H : (_ && _) = true |- _ => apply andb_prop in H; destruct H
    | H : (_ && _) = false |- _ => apply andb_false_iff in H
    | H : negb _ = true |- _ => apply negb_true_iff in H
    | H : negb _ = false |- _ => apply negb_false_iff in H
    end; cbn;
    repeat match goal with
    | |- context [if ?b then _ else _] => destruct b eqn:?
    end;
    rewrite ?andb_true_r; try lia;
    repeat match goal with
    | |- context [?a <? ?b] => destruct (Z.ltb_spec a b)
    | |- context [?a <=? ?b] => destruct (Z.leb_spec a b)
    | |- context [?a =? ?b] => destruct (Z.eqb_spec a b)
    | H : context [?a <? ?b] |- _ => destruct (Z.ltb_spec a b)
    | H : context [?a <=? ?b] |- _ => destruct (Z.leb_spec a b)
    | H : context [?a =? ?b] |- _ => destruct (Z.eqb_spec a b)
    end; cbn in *; try done; try lia; intuition (try discriminate; try lia).
Qed.

Lemma split_after_none (r : partition_range) (k : decorated_key) :
  contains r k = true ->
  split_after r k = None ->
  forall x, k < x -> contains r x = false.
Proof.
  unfold split_after, contains, after_start, before_end.
  destruct r as [[[sv si]|] [[ev ei]|]]; cbn; intros Hk Hs x Hx;
    repeat match goal with
    | H : context [if ?b then _ else _] |- _ => destruct b eqn:?
    | H : Some _ = None |- _ => discriminate H
    | H : (_ && _) = true |- _ => apply andb_prop in H; destruct H
    | H : (_ && _) = false |- _ => apply andb_false_iff in H
    | H : negb _ = true |- _ => apply negb_true_iff in H
    | H : negb _ = false |- _ => apply negb_false_iff in H
    | H : true = false |- _ => discriminate H
    | H : false = true |- _ => discriminate H
    end;
    repeat match goal with
    | H : (_ <? _) = true |- _ => apply Z.ltb_lt in H
    | H : (_ <? _) = false |- _ => apply Z.ltb_ge in H
    | H : (_ <=? _) = true |- _ => apply Z.leb_le in H
    | H : (_ <=? _) = false |- _ => apply Z.leb_gt in H
    | H : (_ =? _) = true |- _ => apply Z.eqb_eq in H
    | H : (_ =? _) = false |- _ => apply Z.eqb_neq in H
    | H : _ \/ _ |- _ => destruct H
    end;
    try (apply andb_false_iff; right);
    try (apply Z.ltb_ge; lia); try (apply Z.leb_gt; lia); try lia;
    try discriminate.
Qed.

(** *** [move_to_next_partition] when the phase has moved *)



(** *** The first call on a newly constructed reader *)


(** *** [fast_forward_to] *)

(** [fast_forward_to] as the specification words it: the range becomes
    [new_range]; an existing reader whose creation phase is the phase of the
    start of [new_range] is fast-forwarded and the skip counter incremented;
    otherwise the reader is recreated against the snapshot of that phase
    and the recreation counter incremented. *)
Definition fast_forward_as_specified (w : world) (new_range : partition_range)
    : Prop :=
  let c := w_cache w in
  let snapshot := (snapshot_of c (for_range_start new_range)).1 in
  let phase := (snapshot_of c (for_range_start new_range)).2 in
  exists w',
    fast_forward_to new_range w = Done tt w'
    /\ _range (w_reader w') = new_range
    /\ match _reader (w_reader w) with
       | Some rd =>
           if _reader_creation_phase (w_reader w) =? phase then
             _reader (w_reader w') = Some (reader_fast_forward_to rd new_range)
             /\ underlying_partition_skips (w_cache w')
                = incr64 (underlying_partition_skips c)
             /\ underlying_recreations (w_cache w') = underlying_recreations c
           else
             _reader (w_reader w')
               = Some (create_underlying_reader snapshot new_range)
             /\ underlying_recreations (w_cache w')
                = incr64 (underlying_recreations c)
             /\ underlying_partition_skips (w_cache w')
                = underlying_partition_skips c
       | None =>
           _reader (w_reader w')
             = Some (create_underlying_reader snapshot new_range)
           /\ underlying_recreations (w_cache w')
              = incr64 (underlying_recreations c)
           /\ underlying_partition_skips (w_cache w')
              = underlying_partition_skips c
       end.

(** C4 (as amended). [fast_forward_to(new_range, snapshot, phase)] sets
    the range to [new_range] and clears both keys.  A reader whose creation
    phase is [phase] is kept and fast-forwarded, and the partition-skip
    counter is incremented; a reader of another phase is closed and replaced
    by a reader of [snapshot] over [new_range], and the recreation counter
    is incremented; when there is no reader one is created and neither
    counter moves.  No call moves both counters. *)
Theorem fast_forward_to_phase_reuses_or_recreates :
  forall (w : world) (new_range : partition_range)
         (snapshot : mutation_source) (phase : phase_type),
    let c := w_cache w in
    exists w',
      fast_forward_to_phase new_range snapshot phase w = Done tt w'
      /\ _range (w_reader w') = new_range
      /\ _last_key (w_reader w') = None
      /\ _new_last_key (w_reader w') = None
      /\ match _reader (w_reader w) with
         | Some rd =>
             if _reader_creation_phase (w_reader w) =? phase then
               _reader (w_reader w') = Some (reader_fast_forward_to rd new_range)
               /\ _reader_creation_phase (w_reader w') = phase
               /\ underlying_partition_skips (w_cache w')
                  = incr64 (underlying_partition_skips c)
               /\ underlying_recreations (w_cache w') = underlying_recreations c
               /\ w_closed w' = w_closed w
             else
               _reader (w_reader w')
                 = Some (create_underlying_reader snapshot new_range)
               /\ _reader_creation_phase (w_reader w') = phase
               /\ underlying_recreations (w_cache w')
                  = incr64 (underlying_recreations c)
               /\ underlying_partition_skips (w_cache w')
                  = underlying_partition_skips c
               /\ w_closed w' = w_closed w ++ [rd]
         | None =>
             _reader (w_reader w')
               = Some (create_underlying_reader snapshot new_range)
             /\ _reader_creation_phase (w_reader w') = phase
             /\ underlying_recreations (w_cache w') = underlying_recreations c
             /\ underlying_partition_skips (w_cache w')
                = underlying_partition_skips c
             /\ w_closed w' = w_closed w
         end
      /\ (underlying_recreations (w_cache w') = underlying_recreations c
          \/ underlying_partition_skips (w_cache w')
             = underlying_partition_skips c)
      /\ phase_of (w_cache w') = phase_of c
      /\ snapshot_for_phase (w_cache w') = snapshot_for_phase c.
Proof.
  intros w new_range snapshot phase c.
  eexists. split; [apply fast_forward_to_phase_run|].
  subst c. destruct w as [c [[rd|] cp rg lk nlk] cl]; cbn.
  - destruct (Z.eqb_spec cp phase) as [->|Hne]; cbn; tauto.
  - tauto.
Qed.

(** *** Calls that cannot fail *)

(** With a reader in place [move_to_next_partition] completes: no absent
    reader is dereferenced, the assertion on the fragment holds, the
    reader stays in place, and the call returns either nothing or a
    partition start whose key it records in [_new_last_key]. *)
Theorem move_to_next_partition_engaged_completes :
  forall (w : world) (rd : flat_mutation_reader),
    _reader (w_reader w) = Some rd ->
    exists mf w',
      move_to_next_partition w = Done mf w'
      /\ engaged (w_reader w') = true
      /\ (mf = None
          \/ exists k, mf = Some (partition_start k)
                       /\ _new_last_key (w_reader w') = Some k).
Proof.
  intros w rd Hrd.
  assert (Hstart : forall w1 rd1,
            _reader (w_reader w1) = Some rd1 ->
            exists mf w',
              read_partition_start w1 = Done mf w'
              /\ engaged (w_reader w') = true
              /\ (mf = None
                  \/ exists k, mf = Some (partition_start k)
                               /\ _new_last_key (w_reader w') = Some k)).
  { intros w1 rd1 Hrd1. rewrite (read_partition_start_engaged w1 rd1 Hrd1).
    destruct (skip_to_partition_start_shape (rd_buffer rd1))
      as [->|(k & rest & ->)].
    - eexists _, _. split; [done|]. split; [done|by left].
    - eexists _, _. split; [done|]. split; [done|]. right. by exists k. }
  destruct (Z.eq_dec (_reader_creation_phase (w_reader w)) (phase_at_call w))
    as [Heq|Hne].
  - rewrite (move_to_next_partition_same_phase w rd Hrd Heq).
    apply (Hstart _ rd). by destruct w as [? [? ? ? ? ?] ?].
  - destruct (remaining_range (take_last_key (w_reader w))) as [r'|] eqn:Hrem.
    + rewrite (move_to_next_partition_recreate w rd r' Hrd Hne Hrem).
      by eapply Hstart.
    + rewrite (move_to_next_partition_exhausted w rd Hrd Hne Hrem).
      eexists _, _. split; [done|]. split; [|by left].
      destruct w as [? [? ? ? ? ?] ?]. cbn in *. by subst.
Qed.

(** [fast_forward_to(range)] never fails and always leaves a reader in
    place, positioned at the start of [range] with both keys cleared. *)
Theorem fast_forward_to_engages :
  forall (w : world) (new_range : partition_range),
    exists w',
      fast_forward_to new_range w = Done tt w'
      /\ engaged (w_reader w') = true
      /\ _range (w_reader w') = new_range
      /\ _last_key (w_reader w') = None
      /\ _new_last_key (w_reader w') = None
      /\ population_range_start (w_reader w') = for_range_start new_range.
Proof.
  intros w new_range. rewrite fast_forward_to_run, fast_forward_to_phase_run.
  eexists. split; [done|].
  destruct (_reader (w_reader w)) as [rd|]; [|done].
  by destruct (_ =? _).
Qed.

(** *** Sorted sources and the partitions after a key *)

Lemma strictly_ascending_tail (k : decorated_key) (ks : list decorated_key) :
  strictly_ascending (k :: ks) = true -> strictly_ascending ks = true.
Proof.
  destruct ks as [|k' ks]; [done|]. cbn.
  intros H. by apply andb_prop in H as [_ H].
Qed.

Lemma strictly_ascending_head (k : decorated_key) (ks : list decorated_key) :
  strictly_ascending (k :: ks) = true -> Forall (fun x => k < x) ks.
Proof.
  revert k. induction ks as [|k' ks IH]; intros k Hs; [constructor|].
  cbn in Hs. apply andb_prop in Hs as [Hlt Hs]. apply Z.ltb_lt in Hlt.
  constructor; [done|].
  eapply Forall_impl; [apply (IH k' Hs)|]. cbn. intros; lia.
Qed.

Lemma filter_all (f : partition -> bool) (ps : list partition) :
  Forall (fun p => f p = true) ps -> List.filter f ps = ps.
Proof.
  induction 1 as [|p ps Hp _ IH]; [done|]. cbn. by rewrite Hp, IH.
Qed.

Lemma filter_andb (f g : partition -> bool) (ps : list partition) :
  List.filter f (List.filter g ps) = List.filter (fun p => f p && g p) ps.
Proof.
  induction ps as [|p ps IH]; [done|]. cbn.
  destruct (g p); cbn; rewrite ?andb_false_r, ?andb_true_r;
    [destruct (f p)|]; by rewrite IH.
Qed.

Lemma sorted_source_filter (f : partition -> bool) (src : mutation_source) :
  sorted_source src -> sorted_source (List.filter f src).
Proof.
  unfold sorted_source.
  induction src as [|p ps IH]; [done|]. intros Hs. cbn.
  pose proof (strictly_ascending_head _ _ Hs) as Hall.
  specialize (IH (strictly_ascending_tail _ _ Hs)).
  destruct (f p); [|done]. cbn.
  destruct (map pkey (List.filter f ps)) as [|k ks] eqn:Hks; [done|].
  rewrite IH, andb_true_r. apply Z.ltb_lt.
  assert (Hin : In k (map pkey (List.filter f ps))) by (rewrite Hks; by left).
  apply in_map_iff in Hin as (q & <- & Hq). apply filter_In in Hq as [Hq _].
  rewrite Forall_forall in Hall. apply Hall.
  apply list_elem_of_In, in_map_iff. eauto.
Qed.

Lemma sorted_source_restrict (src : mutation_source) (r : partition_range) :
  sorted_source src -> sorted_source (restrict src r).
Proof. apply sorted_source_filter. Qed.

(** In a sorted list, what follows the first partition after [last] is
    what comes after that partition's key. *)
Lemma after_key_step (ps : list partition) (last : option decorated_key)
    (p : partition) (rest : list partition) :
  sorted_source ps ->
  after_key last ps = p :: rest ->
  after_key (Some (pkey p)) ps = rest.
Proof.
  unfold sorted_source. intros Hs Hafter.
  assert (Hgen : forall qs q, strictly_ascending (map pkey (q :: qs)) = true ->
            List.filter (fun x => pkey q <? pkey x) (q :: qs) = qs).
  { intros qs q Hq. cbn [List.filter]. rewrite Z.ltb_irrefl.
    apply filter_all. apply strictly_ascending_head in Hq.
    rewrite Forall_forall in Hq. apply Forall_forall. intros x Hx.
    apply Z.ltb_lt, Hq, list_elem_of_In, in_map_iff. exists x. split; [done|].
    by apply list_elem_of_In. }
  destruct last as [k|]; cbn in *.
  - induction ps as [|q qs IH]; [done|].
    cbn in Hafter. destruct (Z.ltb_spec k (pkey q)) as [Hlt|Hge].
    + inversion Hafter; subst q rest.
      assert (Hall : List.filter (fun x => k <? pkey x) qs = qs).
      { apply filter_all. apply strictly_ascending_head in Hs.
        rewrite Forall_forall in Hs. apply Forall_forall. intros x Hx.
        apply Z.ltb_lt.
        assert (pkey p < pkey x); [|lia].
        apply Hs, list_elem_of_In, in_map_iff. exists x. split; [done|].
        by apply list_elem_of_In. }
      rewrite Hall. by apply (Hgen qs p).
    + cbn [List.filter].
      assert (Hq : pkey q < pkey p).
      { assert (Hin : In p (List.filter (fun x => k <? pkey x) qs))
          by (rewrite Hafter; by left).
        apply filter_In in Hin as [Hin _].
        apply strictly_ascending_head in Hs. rewrite Forall_forall in Hs.
        apply Hs, list_elem_of_In, in_map_iff. eauto. }
      destruct (Z.ltb_spec (pkey p) (pkey q)); [lia|].
      apply IH; [|done]. by apply strictly_ascending_tail in Hs.
  - subst ps. by apply (Hgen rest p).
Qed.

Lemma after_key_head (src : mutation_source) (r0 : partition_range)
    (last : option decorated_key) (p : partition) (rest : list partition) :
  after_key last (restrict src r0) = p :: rest ->
  contains r0 (pkey p) = true
  /\ match last with Some k => k < pkey p | None => True end.
Proof.
  intros Hafter.
  assert (Hin : In p (after_key last (restrict src r0)))
    by (rewrite Hafter; by left).
  destruct last as [k|]; cbn in Hin.
  - apply filter_In in Hin as [Hin Hk]. apply filter_In in Hin as [_ Hc].
    split; [done|]. by apply Z.ltb_lt.
  - apply filter_In in Hin as [_ Hc]. done.
Qed.

Lemma skip_partition_body (rows : list Z) (n : nat)
    (fs : list mutation_fragment) :
  skip_to_partition_start
    (drop n (map clustering_row rows ++ [partition_end]) ++ fs)
  = skip_to_partition_start fs.
Proof.
  revert n. induction rows as [|row rows IH]; intros n.
  - destruct n as [|n]; cbn; [done|]. by rewrite drop_nil.
  - destruct n as [|n]; cbn.
    + apply (IH 0%nat).
    + apply IH.
Qed.

(** *** The invariant of a read *)

Lemma read_partition_body_run (fetch : nat) :
  forall (w : world) (rd : flat_mutation_reader) (rows : list Z)
         (rest : list mutation_fragment),
    _reader (w_reader w) = Some rd ->
    rd_buffer rd = map clustering_row rows ++ partition_end :: rest ->
    exists rd',
      read_partition_body fetch w
      = Done (take fetch (map clustering_row rows ++ [partition_end]))
          (World (w_cache w) (set_reader (Some rd') (w_reader w)) (w_closed w))
      /\ skip_to_partition_start (rd_buffer rd')
         = skip_to_partition_start rest.
Proof.
  induction fetch as [|n IH]; intros w rd rows rest Hrd Hbuf.
  - exists rd. open_world w. subst rdo. split; [done|].
    rewrite Hbuf. clear. induction rows as [|row rows IH]; [done|]. done.
  - destruct rd as [src buf]. cbn in Hbuf. subst buf.
    open_world w. subst rdo.
    destruct rows as [|row rows].
    + eexists (FlatMutationReader src rest). split; [|done].
      cbn [read_partition_body]. run_reader. by rewrite take_nil.
    + destruct (IH (World c
                      (AutoupdatingUnderlyingReader
                         (Some (FlatMutationReader src
                                  (map clustering_row rows ++ partition_end :: rest)))
                         cp rg lk nlk) cl)
                   _ rows rest eq_refl eq_refl) as (rd' & Hrun & Hskip).
      exists rd'. split; [|done].
      cbn [read_partition_body]. run_reader.
      unfold set_reader in Hrun. cbn in Hrun.
      by rewrite Hrun.
Qed.

(** The reader stands right after the partition [last] of a read of [r0]
    (before the first partition when [last] is empty). *)
Definition positioned (c : row_cache) (r0 : partition_range)
    (last : option decorated_key) (w : world) : Prop :=
  snapshot_for_phase (w_cache w) = snapshot_for_phase c
  /\ _new_last_key (w_reader w) = last
  /\ match last with
     | None => _range (w_reader w) = r0
     | Some k =>
         contains (_range (w_reader w)) k = true
         /\ forall x, k < x -> contains (_range (w_reader w)) x = contains r0 x
     end
  /\ exists rd,
       _reader (w_reader w) = Some rd
       /\ skip_to_partition_start (rd_buffer rd)
          = fragments_of
              (after_key last
                 (restrict
                    (snapshot_for_phase c (_reader_creation_phase (w_reader w)))
                    r0)).

Lemma restrict_remaining (src : mutation_source) (rg r' r0 : partition_range)
    (k : decorated_key) :
  (forall x, contains r' x = (k <? x) && contains rg x) ->
  (forall x, k < x -> contains rg x = contains r0 x) ->
  restrict src r' = after_key (Some k) (restrict src r0).
Proof.
  intros Hr' Hrg. unfold restrict, after_key. rewrite filter_andb.
  apply filter_ext. intros p. rewrite Hr'.
  destruct (Z.ltb_spec k (pkey p)) as [Hlt|Hge]; [|done].
  cbn. by rewrite Hrg.
Qed.

Lemma restrict_exhausted (src : mutation_source) (rg r0 : partition_range)
    (k : decorated_key) :
  (forall x, k < x -> contains rg x = false) ->
  (forall x, k < x -> contains rg x = contains r0 x) ->
  after_key (Some k) (restrict src r0) = [].
Proof.
  intros Hnone Hrg. unfold restrict, after_key. rewrite filter_andb.
  induction src as [|p ps IH]; [done|]. cbn.
  destruct (Z.ltb_spec k (pkey p)) as [Hlt|Hge]; [|done].
  cbn. by rewrite <- Hrg, Hnone.
Qed.

(** One call from a positioned reader, whatever the phase the cache now
    reports: it returns the start of the next partition of the snapshot of
    that phase and leaves the reader inside that partition. *)
Lemma move_to_next_partition_positioned (c : row_cache) (r0 : partition_range)
    (last : option decorated_key) (w : world)
    (phi : ring_position_view -> phase_type) :
  positioned c r0 last w ->
  let phase := phi (call_position r0 last) in
  let ps := after_key last (restrict (snapshot_for_phase c phase) r0) in
  exists w',
    move_to_next_partition
      (World (set_phase_of phi (w_cache w)) (w_reader w) (w_closed w))
    = Done (first_partition_start ps) w'
    /\ (_reader_creation_phase (w_reader w) = phase ->
        underlying_recreations (w_cache w')
        = underlying_recreations (w_cache w))
    /\ match ps with
       | [] => True
       | p :: ps' =>
           snapshot_for_phase (w_cache w') = snapshot_for_phase c
           /\ _new_last_key (w_reader w') = Some (pkey p)
           /\ contains (_range (w_reader w')) (pkey p) = true
           /\ (forall x, pkey p < x ->
                 contains (_range (w_reader w')) x = contains r0 x)
           /\ _reader_creation_phase (w_reader w') = phase
           /\ exists src,
                _reader (w_reader w')
                = Some (FlatMutationReader src
                          (map clustering_row (prows p) ++ partition_end
                             :: fragments_of ps'))
       end.
Proof.
  intros (Hsnap & Hnlk & Hrange & rd & Hrd & Hskip) phase ps.
  set (w1 := World (set_phase_of phi (w_cache w)) (w_reader w) (w_closed w)).
  assert (Hphase : phase_at_call w1 = phase).
  { subst phase w1. unfold phase_at_call, call_position. cbn.
    unfold population_range_start. cbn. rewrite Hnlk.
    destruct last; [done|]. by rewrite Hrange. }
  assert (Hhead : forall p ps', ps = p :: ps' ->
            contains r0 (pkey p) = true
            /\ match last with Some k => k < pkey p | None => True end).
  { intros p ps' Hps. by apply (after_key_head _ _ _ _ _ Hps). }
  assert (Hkeep : forall p ps', ps = p :: ps' ->
            contains (_range (w_reader w)) (pkey p) = true
            /\ forall x, pkey p < x ->
                 contains (_range (w_reader w)) x = contains r0 x).
  { intros p ps' Hps. destruct (Hhead p ps' Hps) as [Hin Hlt].
    destruct last as [k|].
    - destruct Hrange as [_ Hrg]. split; [by rewrite Hrg|].
      intros x Hx. apply Hrg. lia.
    - by rewrite Hrange. }
  destruct (Z.eq_dec (_reader_creation_phase (w_reader w)) phase) as [Heq|Hne].
  - (* the reader is still of the right phase *)
    rewrite (move_to_next_partition_same_phase w1 rd Hrd)
      by (by rewrite Hphase).
    rewrite (read_partition_start_on_stream _ rd ps);
      [| done | by rewrite Hskip, Heq].
    eexists. split; [done|].
    split; [intros _; by destruct ps|].
    destruct ps as [|p ps'] eqn:Hps; [done|].
    destruct (Hkeep p ps' eq_refl) as [Hin Hrg].
    destruct w as [c0 [rdo cp rg lk nlk] cl]. cbn in *.
    repeat split; eauto.
  - (* the phase has moved *)
    destruct (remaining_range (take_last_key (w_reader w1))) as [r'|] eqn:Hrem.
    + assert (Hps : restrict (snapshot_for_phase c phase) r' = ps).
      { subst ps. unfold remaining_range in Hrem. cbn in Hrem.
        rewrite Hnlk in Hrem. destruct last as [k|].
        - destruct Hrange as [Hin Hrg].
          apply (restrict_remaining _ (_range (w_reader w))); [|done].
          by apply split_after_contains.
        - inversion Hrem. by rewrite Hrange. }
      rewrite (move_to_next_partition_recreate w1 rd r' Hrd)
        by (by rewrite ?Hphase).
      rewrite Hphase.
      change (snapshot_for_phase (w_cache w1)) with (snapshot_for_phase (w_cache w)).
      rewrite Hsnap.
      rewrite (read_partition_start_on_stream _
                 (create_underlying_reader (snapshot_for_phase c phase) r') ps);
        [| done
         | unfold create_underlying_reader, make_reader; cbn [rd_buffer];
           rewrite Hps; apply skip_fragments_of].
      eexists. split; [done|].
      split; [done|].
      destruct ps as [|p ps'] eqn:Hpseq; [done|].
      destruct (Hhead p ps' eq_refl) as [Hin Hlt].
      assert (Hr' : contains r' (pkey p) = true
                    /\ forall x, pkey p < x -> contains r' x = contains r0 x).
      { unfold remaining_range in Hrem. cbn in Hrem. rewrite Hnlk in Hrem.
        destruct last as [k|].
        - destruct Hrange as [Hink Hrg].
          pose proof (split_after_contains _ _ _ Hink Hrem) as Hc.
          split.
          + rewrite Hc, Hrg by done.
            rewrite Hin, andb_true_r. by apply Z.ltb_lt.
          + intros x Hx. rewrite Hc.
            destruct (Z.ltb_spec k x); [cbn; apply Hrg; lia|lia].
        - inversion Hrem; subst r'. rewrite Hrange. done. }
      destruct Hr' as [Hr'in Hr'rg].
      cbn. repeat split; eauto.
    + (* nothing of the range is left *)
      rewrite (move_to_next_partition_exhausted w1 rd Hrd)
        by (by rewrite ?Hphase).
      assert (Hps : ps = []).
      { subst ps. unfold remaining_range in Hrem. cbn in Hrem.
        rewrite Hnlk in Hrem. destruct last as [k|]; [|done].
        destruct Hrange as [Hin Hrg].
        apply (restrict_exhausted _ (_range (w_reader w))); [|done].
        by apply split_after_none. }
      rewrite Hps. eexists. by repeat split.
Qed.

Lemma emitted_cons (fetch : nat) (p : partition) (ps : list partition) :
  emitted fetch (p :: ps) =
  partition_start (pkey p)
    :: take fetch (map clustering_row (prows p) ++ [partition_end])
    ++ emitted fetch ps.
Proof. reflexivity. Qed.

(** From a positioned reader the calls emit, partition by partition, the
    view the phases define. *)
Lemma read_partitions_positioned (c : row_cache) (r0 : partition_range)
    (fetch : nat) :
  (forall p, sorted_source (snapshot_for_phase c p)) ->
  forall (phases : list (ring_position_view -> phase_type))
         (view : list partition) (last : option decorated_key) (w : world),
    positioned c r0 last w ->
    first_touched c r0 last phases view ->
    (length view < length phases)%nat ->
    exists w',
      read_partitions fetch phases w = Done (emitted fetch view) w'
      /\ (Forall (fun phi => forall pos,
                    phi pos = _reader_creation_phase (w_reader w)) phases ->
          underlying_recreations (w_cache w')
          = underlying_recreations (w_cache w)).
Proof.
  intros Hsorted.
  induction phases as [|phi phases IH]; intros view last w Hpos Hview Hlen.
  - cbn in Hlen. lia.
  - destruct Hview as [Hhead Hview].
    destruct (move_to_next_partition_positioned c r0 last w phi Hpos)
      as (w1 & Hmove & Hcount & Hafter).
    set (phase := phi (call_position r0 last)) in *.
    set (ps := after_key last (restrict (snapshot_for_phase c phase) r0)) in *.
    cbn [read_partitions]. unfold bind at 1. unfold modify_cache at 1.
    unfold bind at 1. rewrite Hmove.
    destruct view as [|p view'].
    + destruct ps as [|q ps']; [|done]. cbn. eexists. split; [done|].
      intros Hall. apply Hcount. inversion Hall; subst. symmetry. eauto.
    + destruct ps as [|q ps'] eqn:Hps; [done|].
      cbn in Hhead. inversion Hhead; subst q. clear Hhead.
      destruct Hafter as (Hsnap1 & Hnlk1 & Hin1 & Hrg1 & Hcp1 & src & Hrd1).
      destruct (read_partition_body_run fetch w1 _ (prows p) (fragments_of ps')
                  Hrd1 eq_refl) as (rd2 & Hbody & Hskip2).
      set (w2 := World (w_cache w1) (set_reader (Some rd2) (w_reader w1))
                   (w_closed w1)) in *.
      assert (Hpos2 : positioned c r0 (Some (pkey p)) w2).
      { split; [done|]. split; [done|]. split; [done|].
        exists rd2. split; [done|].
        rewrite Hskip2, skip_fragments_of. f_equal.
        cbn. rewrite Hcp1. symmetry.
        apply (after_key_step _ last); [|done].
        apply sorted_source_restrict, Hsorted. }
      cbn in Hlen.
      destruct (IH view' (Some (pkey p)) w2 Hpos2 Hview ltac:(lia))
        as (w3 & Hrest & Hcount3).
      cbn [first_partition_start]. unfold bind at 1. rewrite Hbody.
      unfold bind at 1. rewrite Hrest.
      eexists. split; [by rewrite emitted_cons|].
      intros Hall. inversion Hall as [|? ? Hphi Hall']; subst.
      rewrite Hcount3.
      * cbn. apply Hcount. symmetry. apply Hphi.
      * cbn. rewrite Hcp1. eapply Forall_impl; [exact Hall'|].
        cbn. intros phi' Hphi' pos. rewrite Hphi'. symmetry. apply Hphi.
Qed.

(** The cache that never moves: one snapshot, one phase. *)
Definition fixed_cache (c : row_cache) (fixed : mutation_source)
    (phase0 : phase_type) : row_cache :=
  RowCache (fun _ => phase0) (fun _ => fixed) (snapshot_of c)
    (underlying_recreations c) (underlying_partition_skips c).

Lemma first_touched_fixed (c : row_cache) (fixed : mutation_source)
    (phase0 : phase_type) (r0 : partition_range) (n : nat) :
  sorted_source fixed ->
  forall (last : option decorated_key),
    first_touched (fixed_cache c fixed phase0) r0 last
      (replicate n (fun _ => phase0)) (after_key last (restrict fixed r0)).
Proof.
  intros Hsorted. induction n as [|n IH]; intros last; [done|].
  cbn. split; [done|].
  destruct (after_key last (restrict fixed r0)) as [|p view'] eqn:Hview; [done|].
  rewrite <- (after_key_step (restrict fixed r0) last p view');
    [apply IH| |done].
  by apply sorted_source_restrict.
Qed.

Lemma positioned_after_fast_forward (c : row_cache) (r0 : partition_range)
    (phase0 : phase_type) (closed : list flat_mutation_reader) :
  positioned c r0 None
    (World c
       (AutoupdatingUnderlyingReader
          (Some (create_underlying_reader (snapshot_for_phase c phase0) r0))
          phase0 r0 None None)
       closed).
Proof.
  repeat split. eexists. split; [done|]. apply skip_fragments_of.
Qed.

(** C2. A read set up on its range and then drained call by call, while
    flushes and compactions move the cache's phases between the calls in any
    way (so that the underlying reader is recreated any number of times),
    emits, fragment for fragment and in the same order, what the same read
    emits against one fixed snapshot under a phase that never moves and
    without any recreation; the fixed snapshot is the cache as each
    partition was first touched. *)
Theorem read_is_phase_transparent :
  forall (c : row_cache) (fixed : mutation_source) (r0 : partition_range)
         (phase0 : phase_type)
         (phases : list (ring_position_view -> phase_type)) (fetch : nat),
    (forall p, sorted_source (snapshot_for_phase c p)) ->
    sorted_source fixed ->
    first_touched c r0 None phases (restrict fixed r0) ->
    (length (restrict fixed r0) < length phases)%nat ->
    exists w' w'',
      read fetch r0 phase0 phases (World c fresh_reader [])
      = Done (emitted fetch (restrict fixed r0)) w'
      /\ read fetch r0 phase0 (replicate (length phases) (fun _ => phase0))
           (World (fixed_cache c fixed phase0) fresh_reader [])
         = Done (emitted fetch (restrict fixed r0)) w''
      /\ underlying_recreations (w_cache w'') = underlying_recreations c.
Proof.
  intros c fixed r0 phase0 phases fetch Hsorted Hfixed Hview Hlen.
  destruct (read_partitions_positioned c r0 fetch Hsorted phases
              (restrict fixed r0) None _
              (positioned_after_fast_forward c r0 phase0 []) Hview Hlen)
    as (w' & Hrun & _).
  destruct (read_partitions_positioned (fixed_cache c fixed phase0) r0 fetch
              (fun _ => Hfixed) (replicate (length phases) (fun _ => phase0))
              (restrict fixed r0) None _
              (positioned_after_fast_forward (fixed_cache c fixed phase0)
                 r0 phase0 [])
              (first_touched_fixed c fixed phase0 r0 _ Hfixed None)
              ltac:(by rewrite length_replicate))
    as (w'' & Hrun' & Hcount).
  exists w', w''. split; [|split].
  - unfold read, bind at 1, get_cache. unfold bind at 1.
    rewrite fast_forward_to_phase_run. exact Hrun.
  - unfold read, bind at 1, get_cache. unfold bind at 1.
    rewrite fast_forward_to_phase_run. exact Hrun'.
  - rewrite Hcount; [done|].
    apply Forall_forall. intros phi Hphi pos.
    apply elem_of_replicate in Hphi as [-> _]. done.
Qed.

(** ** A read under arbitrary phase changes *)

(** The partitions a read of [r0] comes by: each call finds the next
    partition after the last one in the snapshot of the phase the cache
    reports for the call's position, and the read ends at the first call
    that finds none. *)
Fixpoint touched (c : row_cache) (r0 : partition_range)
    (last : option decorated_key)
    (phases : list (ring_position_view -> phase_type)) : list partition :=
  match phases with
  | [] => []
  | phi :: phases' =>
      match after_key last
              (restrict (snapshot_for_phase c (phi (call_position r0 last))) r0)
      with
      | [] => []
      | p :: _ => p :: touched c r0 (Some (pkey p)) phases'
      end
  end.

(** The keys of the partitions that start in a stream of fragments. *)
Fixpoint partition_keys (fs : list mutation_fragment) : list decorated_key :=
  match fs with
  | [] => []
  | partition_start k :: rest => k :: partition_keys rest
  | _ :: rest => partition_keys rest
  end.

Lemma read_partitions_touched (c : row_cache) (r0 : partition_range)
    (fetch : nat) :
  (forall p, sorted_source (snapshot_for_phase c p)) ->
  forall (phases : list (ring_position_view -> phase_type))
         (last : option decorated_key) (w : world),
    positioned c r0 last w ->
    exists w',
      read_partitions fetch phases w
      = Done (emitted fetch (touched c r0 last phases)) w'.
Proof.
  intros Hsorted.
  induction phases as [|phi phases IH]; intros last w Hpos.
  - by eexists.
  - destruct (move_to_next_partition_positioned c r0 last w phi Hpos)
      as (w1 & Hmove & _ & Hafter).
    cbn [read_partitions touched]. unfold bind at 1. unfold modify_cache at 1.
    unfold bind at 1. rewrite Hmove.
    destruct (after_key last
                (restrict (snapshot_for_phase c (phi (call_position r0 last))) r0))
      as [|p ps'] eqn:Hps.
    + by eexists.
    + destruct Hafter as (Hsnap1 & Hnlk1 & Hin1 & Hrg1 & Hcp1 & src & Hrd1).
      destruct (read_partition_body_run fetch w1 _ (prows p) (fragments_of ps')
                  Hrd1 eq_refl) as (rd2 & Hbody & Hskip2).
      set (w2 := World (w_cache w1) (set_reader (Some rd2) (w_reader w1))
                   (w_closed w1)) in *.
      assert (Hpos2 : positioned c r0 (Some (pkey p)) w2).
      { split; [done|]. split; [done|]. split; [done|].
        exists rd2. split; [done|].
        rewrite Hskip2, skip_fragments_of. f_equal.
        cbn. rewrite Hcp1. symmetry.
        apply (after_key_step _ last); [|done].
        apply sorted_source_restrict, Hsorted. }
      destruct (IH (Some (pkey p)) w2 Hpos2) as (w3 & Hrest).
      cbn [first_partition_start]. unfold bind at 1. rewrite Hbody.
      unfold bind at 1. rewrite Hrest.
      eexists. by rewrite emitted_cons.
Qed.

Lemma partition_keys_app (fs gs : list mutation_fragment) :
  partition_keys (fs ++ gs) = partition_keys fs ++ partition_keys gs.
Proof.
  induction fs as [|mf fs IH]; [done|]. destruct mf; cbn; by rewrite ?IH.
Qed.

Lemma partition_keys_body (fetch : nat) (rows : list Z) :
  partition_keys (take fetch (map clustering_row rows ++ [partition_end])) = [].
Proof.
  revert fetch.
  induction rows as [|row rows IH]; intros [|n]; cbn; rewrite ?take_nil; auto.
Qed.

Lemma partition_keys_emitted (fetch : nat) (ps : list partition) :
  partition_keys (emitted fetch ps) = map pkey ps.
Proof.
  induction ps as [|p ps IH]; [done|].
  rewrite emitted_cons. cbn [partition_keys map].
  by rewrite partition_keys_app, partition_keys_body, IH.
Qed.

Lemma ascending_above (k : decorated_key) (ks : list decorated_key) :
  Forall (fun x => k < x) ks ->
  strictly_ascending ks = true ->
  strictly_ascending (k :: ks) = true.
Proof.
  intros Hall Hs. destruct ks as [|k' ks]; [done|].
  cbn [strictly_ascending]. cbn [strictly_ascending] in Hs. rewrite Hs.
  inversion Hall; subst. rewrite andb_true_r. by apply Z.ltb_lt.
Qed.

Lemma touched_moves_forward (c : row_cache) (r0 : partition_range) :
  forall (phases : list (ring_position_view -> phase_type))
         (last : option decorated_key),
    strictly_ascending (map pkey (touched c r0 last phases)) = true
    /\ Forall (fun k => contains r0 k = true
                        /\ match last with Some l => l < k | None => True end)
         (map pkey (touched c r0 last phases))
    /\ (length (touched c r0 last phases) <= length phases)%nat.
Proof.
  induction phases as [|phi phases IH]; intros last; [by repeat constructor|].
  cbn [touched].
  destruct (after_key last
              (restrict (snapshot_for_phase c (phi (call_position r0 last))) r0))
    as [|p ps'] eqn:Hps.
  - repeat split; [constructor|cbn; lia].
  - destruct (after_key_head _ _ _ _ _ Hps) as [Hin Hlt].
    destruct (IH (Some (pkey p))) as (Hasc & Hall & Hlen).
    split; [|split].
    + cbn [map]. apply ascending_above; [|done].
      eapply Forall_impl; [exact Hall|]. cbn. tauto.
    + cbn [map]. constructor; [done|].
      eapply Forall_impl; [exact Hall|]. cbn. intros k [Hk Hpk].
      split; [done|]. destruct last; [lia|done].
    + cbn. lia.
Qed.

(** X9. However flushes and compactions move the cache's phases during a
    read, the read completes, never steps outside its range and never goes
    back: the partitions it emits have strictly ascending keys, all within
    the range, each the next partition after its predecessor in the
    snapshot the cache reported at that call, and there is at most one
    partition per call. *)
Theorem read_moves_forward_within_its_range :
  forall (c : row_cache) (r0 : partition_range) (phase0 : phase_type)
         (phases : list (ring_position_view -> phase_type)) (fetch : nat),
    (forall p, sorted_source (snapshot_for_phase c p)) ->
    exists out w',
      read fetch r0 phase0 phases (World c fresh_reader []) = Done out w'
      /\ out = emitted fetch (touched c r0 None phases)
      /\ strictly_ascending (partition_keys out) = true
      /\ Forall (fun k => contains r0 k = true) (partition_keys out)
      /\ (length (partition_keys out) <= length phases)%nat.
Proof.
  intros c r0 phase0 phases fetch Hsorted.
  destruct (read_partitions_touched c r0 fetch Hsorted phases None _
              (positioned_after_fast_forward c r0 phase0 []))
    as (w' & Hrun).
  destruct (touched_moves_forward c r0 phases None) as (Hasc & Hall & Hlen).
  exists (emitted fetch (touched c r0 None phases)), w'.
  split.
  { unfold read, bind at 1, get_cache. unfold bind at 1.
    rewrite fast_forward_to_phase_run. exact Hrun. }
  split; [done|]. rewrite partition_keys_emitted.
  split; [done|]. split.
  - eapply Forall_impl; [exact Hall|]. cbn. tauto.
  - by rewrite length_map.
Qed.

End Reader.


(** ** Concrete runs *)

Definition example_source : mutation_source :=
  [Partition 1 [10; 11]; Partition 3 [30]; Partition 5 []].

(** A later snapshot: it differs from [example_source] only before key 3. *)
Definition example_later : mutation_source :=
  [Partition 0 [99]; Partition 1 [77]; Partition 3 [30]; Partition 5 []].

Definition example_snapshots (p : phase_type) : mutation_source :=
  if p =? 0 then example_source else example_later.

Definition example_cache : row_cache :=
  RowCache (fun _ => 0) example_snapshots (fun _ => (example_source, 0)) 0 0.

(** The cache once its phase has advanced to 1 everywhere. *)
Definition advanced_cache : row_cache :=
  RowCache (fun _ => 1) example_snapshots (fun _ => (example_later, 1)) 0 0.

(** The range [[1, 5]]. *)
Definition example_range : partition_range :=
  PartitionRange (Some (RangeBound 1 true)) (Some (RangeBound 5 true)).

Definition example_phases : list (ring_position_view -> phase_type) :=
  [fun _ => 0; fun _ => 1; fun _ => 0; fun _ => 1].



(** A reader of phase 0 that has emitted the last partition of
    [example_range]. *)
Definition reader_after_5 : flat_mutation_reader :=
  FlatMutationReader example_source [].

Definition world_after_5 : world :=
  World advanced_cache
    (AutoupdatingUnderlyingReader (Some reader_after_5) 0 example_range
       None (Some 5))
    [].

Lemma example_snapshots_sorted (p : phase_type) :
  sorted_source (snapshot_for_phase example_cache p).
Proof. cbn. unfold example_snapshots. by destruct (p =? 0). Qed.

(** The schedule of [example_phases] recreates the reader twice and the
    read still emits [example_source] over [example_range]. *)
Example example_read_recreates_twice :
  exists w',
    read id 9 example_range 0 example_phases (World example_cache fresh_reader [])
    = Done (fragments_of example_source) w'
    /\ underlying_recreations (w_cache w') = 2
    /\ length (w_closed w') = 3%nat.
Proof. eexists. split; [vm_compute; reflexivity|]. by vm_compute. Qed.

Lemma read_is_phase_transparent_witness :
  exists w' w'',
    read id 2 example_range 0 example_phases (World example_cache fresh_reader [])
    = Done (emitted 2 (restrict example_source example_range)) w'
    /\ read id 2 example_range 0 (replicate (length example_phases) (fun _ => 0))
         (World (fixed_cache example_cache example_source 0) fresh_reader [])
       = Done (emitted 2 (restrict example_source example_range)) w''
    /\ underlying_recreations (w_cache w'')
       = underlying_recreations example_cache.
Proof.
  apply (read_is_phase_transparent id example_cache example_source
           example_range 0 example_phases 2).
  - exact example_snapshots_sorted.
  - reflexivity.
  - cbn. repeat split; reflexivity.
  - cbn. lia.
Defined.



Lemma move_to_next_partition_engaged_completes_witness :
  exists mf w',
    move_to_next_partition id world_after_5 = Done mf w'
    /\ engaged (w_reader w') = true
    /\ (mf = None
        \/ exists k, mf = Some (partition_start k)
                     /\ _new_last_key (w_reader w') = Some k).
Proof.
  apply (move_to_next_partition_engaged_completes id world_after_5
           reader_after_5 eq_refl).
Defined.

(** C4 (counterexample). On a reader that holds no underlying reader yet,
    [fast_forward_to] creates one and leaves the recreation counter alone. *)
Lemma fast_forward_as_specified_fails_without_reader :
  ~ fast_forward_as_specified (World example_cache fresh_reader [])
      example_range.
Proof.
  intros (w' & Hrun & _ & _ & Hcount & _).
  rewrite fast_forward_to_run, fast_forward_to_phase_run in Hrun.
  inversion Hrun; subst w'. vm_compute in Hcount. discriminate.
Qed.

(** The schedule of [example_phases] moves the phase at every call; the
    read still walks [example_range] once, upwards. *)
Lemma read_moves_forward_within_its_range_witness :
  exists out w',
    read id 9 example_range 0 example_phases (World example_cache fresh_reader [])
    = Done out w'
    /\ partition_keys out = [1; 3; 5].
Proof.
  destruct (read_moves_forward_within_its_range id example_cache example_range
              0 example_phases 9 example_snapshots_sorted)
    as (out & w' & Hrun & Hout & _).
  exists out, w'. split; [exact Hrun|]. rewrite Hout. reflexivity.
Defined.

(** ** [class read_context] *)

Module context.

(** The counters of [_cache._tracker._stats] that a read context bumps
    ([uint64_t], so [++] wraps), and how many times it has marked each of
    the two meters [_cache._stats.reads_with_misses] and
    [_cache._stats.reads_with_no_misses]. *)
Record read_stats := ReadStats {
  reads : Z;
  reads_done : Z;
  reads_with_misses : Z;
  reads_with_misses_marks : nat;
  reads_with_no_misses_marks : nat
}.

(** The members of [read_context] that its inline member functions read or
    write.  The member [_underlying] is the reader of the store [world]. *)
Record read_context := ReadContext {
  _range : partition_range;
  _range_query : bool;
  _underlying_created : Z;
  _underlying_snapshot : option mutation_source;
  _key : option decorated_key;
  _partition_exists : bool;
  _phase : phase_type
}.

Section ReadContext.

(** [query::is_single_partition], declared in [query-request.hh]. *)
Variable is_single_partition : partition_range -> bool.

(** [read_context::create_underlying()], defined outside
    [read_context.hh]. *)
Variable create_underlying : read_context -> M read_context.

(** The constructor.  [_partition_exists] and [_phase] have no initialiser:
    they start with whatever they happen to hold.  The result is empty when
    [range.start()] is dereferenced without holding a bound.
<<
    , _range_query(!query::is_single_partition(range))
    , _underlying(_cache, *this)
    {
        ++_cache._tracker._stats.reads;
        if (!_range_query) {
            _key = range.start()->value().as_decorated_key();
        }
    }
>> *)
Definition read_context_new (range : partition_range)
    (indeterminate_exists : bool) (indeterminate_phase : phase_type)
    (stats : read_stats) : option read_context * read_stats :=
  let range_query := negb (is_single_partition range) in
  let stats :=
    ReadStats (incr64 (reads stats)) (reads_done stats)
      (reads_with_misses stats) (reads_with_misses_marks stats)
      (reads_with_no_misses_marks stats) in
  if negb range_query then
    match range_start range with
    | Some b =>
        (Some (ReadContext range range_query 0 None (Some (bound_value b))
                 indeterminate_exists indeterminate_phase), stats)
    | None => (None, stats)
    end
  else
    (Some (ReadContext range range_query 0 None None
             indeterminate_exists indeterminate_phase), stats).

(** The destructor.
<<
    ++_cache._tracker._stats.reads_done;
    if (_underlying_created) {
        _cache._stats.reads_with_misses.mark();
        ++_cache._tracker._stats.reads_with_misses;
    } else {
        _cache._stats.reads_with_no_misses.mark();
    }
>> *)
Definition read_context_delete (ctx : read_context) (stats : read_stats)
    : read_stats :=
  let stats :=
    ReadStats (reads stats) (incr64 (reads_done stats))
      (reads_with_misses stats) (reads_with_misses_marks stats)
      (reads_with_no_misses_marks stats) in
  if negb (_underlying_created ctx =? 0) then
    ReadStats (reads stats) (reads_done stats)
      (incr64 (reads_with_misses stats)) (S (reads_with_misses_marks stats))
      (reads_with_no_misses_marks stats)
  else
    ReadStats (reads stats) (reads_done stats)
      (reads_with_misses stats) (reads_with_misses_marks stats)
      (S (reads_with_no_misses_marks stats)).

(** [on_underlying_created()]: [++_underlying_created]. *)
Definition on_underlying_created (ctx : read_context) : read_context :=
  ReadContext (_range ctx) (_range_query ctx)
    (incr64 (_underlying_created ctx)) (_underlying_snapshot ctx) (_key ctx)
    (_partition_exists ctx) (_phase ctx).

(** [enter_partition(dk, snapshot, phase)]. *)
Definition enter_partition_with_snapshot (dk : decorated_key)
    (snapshot : mutation_source) (phase : phase_type) (ctx : read_context)
    : read_context :=
  ReadContext (_range ctx) (_range_query ctx) (_underlying_created ctx)
    (Some snapshot) (Some dk) (_partition_exists ctx) phase.

(** [enter_partition(dk, phase)]. *)
Definition enter_partition (dk : decorated_key) (phase : phase_type)
    (ctx : read_context) : read_context :=
  ReadContext (_range ctx) (_range_query ctx) (_underlying_created ctx)
    None (Some dk) (_partition_exists ctx) phase.

Definition set_partition_exists (exists_ : bool) (ctx : read_context)
    : read_context :=
  ReadContext (_range ctx) (_range_query ctx) (_underlying_created ctx)
    (_underlying_snapshot ctx) (_key ctx) exists_ (_phase ctx).

(** [ensure_underlying()].
<<
    if (_underlying_snapshot) {
        return create_underlying().then([this] {
            return _underlying.underlying()().then([this] (mutation_fragment_opt&& mfopt) {
                _partition_exists = bool(mfopt);
            });
        });
    }
    _partition_exists = true;
    return make_ready_future<>();
>> *)
Definition ensure_underlying (ctx : read_context) : M read_context :=
  match _underlying_snapshot ctx with
  | Some _ =>
      ctx <- create_underlying ctx ;;
      rd <- underlying ;;
      let '(mfopt, rd') := pop rd in
      a <- get_reader ;;
      _ <- put_reader (set_reader (Some rd') a) ;;
      ret (set_partition_exists
             (match mfopt with Some _ => true | None => false end) ctx)
  | None => ret (set_partition_exists true ctx)
  end.

(** [key()]: [*_key]; empty when [_key] holds nothing. *)
Definition key (ctx : read_context) : option decorated_key := _key ctx.

Definition partition_exists (ctx : read_context) : bool :=
  _partition_exists ctx.

Definition phase (ctx : read_context) : phase_type := _phase ctx.

Definition is_range_query (ctx : read_context) : bool := _range_query ctx.

(** [close()]: [_underlying.close()]. *)
Definition close_context : M unit := close.

(** The calls a reader makes on its context between construction and
    destruction. *)
Inductive context_call :=
| call_on_underlying_created
| call_enter_partition (dk : decorated_key) (phase : phase_type)
| call_enter_partition_with_snapshot (dk : decorated_key)
    (snapshot : mutation_source) (phase : phase_type).

Definition perform_call (call : context_call) (ctx : read_context)
    : read_context :=
  match call with
  | call_on_underlying_created => on_underlying_created ctx
  | call_enter_partition dk phase => enter_partition dk phase ctx
  | call_enter_partition_with_snapshot dk snapshot phase =>
      enter_partition_with_snapshot dk snapshot phase ctx
  end.

Definition perform_calls (calls : list context_call) (ctx : read_context)
    : read_context :=
  foldl (fun acc call => perform_call call acc) ctx calls.

Definition is_creation (call : context_call) : bool :=
  match call with call_on_underlying_created => true | _ => false end.

(** How many underlying readers the calls report as created. *)
Definition creations (calls : list context_call) : nat :=
  length (List.filter is_creation calls).

(** ** Properties *)

Lemma incr64_mod (x : Z) : incr64 (x mod uint64_max) = (x + 1) mod uint64_max.
Proof. unfold incr64. by rewrite Zplus_mod_idemp_l. Qed.

Lemma underlying_created_counts (calls : list context_call) :
  forall (ctx : read_context) (x : Z),
    _underlying_created ctx = x mod uint64_max ->
    _underlying_created (perform_calls calls ctx)
    = (x + Z.of_nat (creations calls)) mod uint64_max.
Proof.
  induction calls as [|call calls IH]; intros ctx x Hx.
  - cbn. by rewrite Z.add_0_r.
  - cbn [perform_calls foldl].
    change (foldl _ ?c calls) with (perform_calls calls c).
    destruct call; unfold creations; cbn [List.filter is_creation length].
    + rewrite (IH _ (x + 1)).
      * f_equal. fold (creations calls). lia.
      * cbn. rewrite Hx. apply incr64_mod.
    + by rewrite (IH _ x).
    + by rewrite (IH _ x).
Qed.

(** X10. Between its construction and its destruction a read context
    counts itself once in [reads] and once in [reads_done], and it is
    classified exactly once: as a read with misses when
    [on_underlying_created()] was called in between (a number of times
    that is not a multiple of 2^64, the width of the counter), and as a
    read with no misses otherwise. *)
Theorem every_read_is_counted_and_classified_once :
  forall (range : partition_range) (indeterminate_exists : bool)
         (indeterminate_phase : phase_type) (stats stats1 : read_stats)
         (ctx : read_context) (calls : list context_call),
    read_context_new range indeterminate_exists indeterminate_phase stats
    = (Some ctx, stats1) ->
    let stats2 := read_context_delete (perform_calls calls ctx) stats1 in
    reads stats2 = incr64 (reads stats)
    /\ reads_done stats2 = incr64 (reads_done stats)
    /\ (reads_with_misses_marks stats2 + reads_with_no_misses_marks stats2
        = S (reads_with_misses_marks stats + reads_with_no_misses_marks stats))%nat
    /\ (if Z.of_nat (creations calls) mod uint64_max =? 0
        then reads_with_misses stats2 = reads_with_misses stats
             /\ reads_with_misses_marks stats2 = reads_with_misses_marks stats
             /\ reads_with_no_misses_marks stats2
                = S (reads_with_no_misses_marks stats)
        else reads_with_misses stats2 = incr64 (reads_with_misses stats)
             /\ reads_with_misses_marks stats2
                = S (reads_with_misses_marks stats)
             /\ reads_with_no_misses_marks stats2
                = reads_with_no_misses_marks stats).
Proof.
  intros range ex ph stats stats1 ctx calls Hnew stats2.
  assert (Hctx : _underlying_created ctx = 0 mod uint64_max
                 /\ stats1 = ReadStats (incr64 (reads stats)) (reads_done stats)
                               (reads_with_misses stats)
                               (reads_with_misses_marks stats)
                               (reads_with_no_misses_marks stats)).
  { unfold read_context_new in Hnew.
    destruct (negb (negb (is_single_partition range))).
    - destruct (range_start range); inversion Hnew; by subst.
    - inversion Hnew; by subst. }
  destruct Hctx as [Hcreated ->].
  pose proof (underlying_created_counts calls ctx 0 Hcreated) as Hcount.
  rewrite Z.add_0_l in Hcount.
  subst stats2. unfold read_context_delete. rewrite Hcount.
  destruct (Z.of_nat (creations calls) mod uint64_max =? 0); cbn.
  - repeat split; lia.
  - repeat split; lia.
Qed.

(** X11. After [enter_partition(dk, phase)], [ensure_underlying()] touches
    neither the underlying reader nor the cache and reports the partition
    as existing; after [enter_partition(dk, snapshot, phase)] it takes one
    fragment from the reader that [create_underlying()] has set up and
    reports whether there was one, and it fails on the absent reader when
    [create_underlying()] has set none up. *)
Theorem ensure_underlying_after_enter_partition :
  forall (ctx : read_context) (dk : decorated_key) (phase0 : phase_type)
         (w : world),
    (exists ctx',
       ensure_underlying (enter_partition dk phase0 ctx) w = Done ctx' w
       /\ partition_exists ctx' = true
       /\ key ctx' = Some dk
       /\ phase ctx' = phase0
       /\ _underlying_created ctx' = _underlying_created ctx)
    /\ (forall snapshot ctx1 w1,
          create_underlying
            (enter_partition_with_snapshot dk snapshot phase0 ctx) w
          = Done ctx1 w1 ->
          match _reader (w_reader w1) with
          | None =>
              ensure_underlying
                (enter_partition_with_snapshot dk snapshot phase0 ctx) w
              = Abort absent_reader_dereferenced
          | Some rd =>
              ensure_underlying
                (enter_partition_with_snapshot dk snapshot phase0 ctx) w
              = Done (set_partition_exists (negb (at_end rd)) ctx1)
                  (World (w_cache w1)
                     (set_reader
                        (Some (FlatMutationReader (rd_source rd)
                                 (tail (rd_buffer rd))))
                        (w_reader w1))
                     (w_closed w1))
          end)
    /\ (forall snapshot f,
          create_underlying
            (enter_partition_with_snapshot dk snapshot phase0 ctx) w
          = Abort f ->
          ensure_underlying
            (enter_partition_with_snapshot dk snapshot phase0 ctx) w
          = Abort f).
Proof.
  intros ctx dk phase0 w. split; [|split].
  - eexists. split; [reflexivity|]. done.
  - intros snapshot ctx1 w1 Hcreate.
    unfold ensure_underlying, underlying, get_reader, put_reader, ret, fail,
      bind.
    cbn [enter_partition_with_snapshot _underlying_snapshot].
    rewrite Hcreate. cbn beta iota.
    destruct (_reader (w_reader w1)) as [rd|]; [|done].
    destruct rd as [src [|mf buf]]; reflexivity.
  - intros snapshot f Hcreate. unfold ensure_underlying, bind.
    cbn [enter_partition_with_snapshot _underlying_snapshot].
    by rewrite Hcreate.
Qed.

End ReadContext.

(** ** Concrete runs *)

(** A range read during which one underlying reader is created. *)
Lemma every_read_is_counted_and_classified_once_witness :
  exists ctx stats1,
    read_context_new (fun _ => false) example_range false 0
      (ReadStats 0 0 0 0 0)
    = (Some ctx, stats1)
    /\ reads_with_misses
         (read_context_delete
            (perform_calls [call_enter_partition 3 0; call_on_underlying_created]
               ctx)
            stats1)
       = 1.
Proof.
  eexists _, _. split; [reflexivity|].
  pose proof (every_read_is_counted_and_classified_once (fun _ => false)
                example_range false 0 (ReadStats 0 0 0 0 0) _ _
                [call_enter_partition 3 0; call_on_underlying_created]
                eq_refl) as (_ & _ & _ & Hmisses).
  vm_compute in Hmisses. exact (proj1 Hmisses).
Defined.

End context.

End cache.

(* ===================================================================== *)
(** * The memtable contract exercised by test/boost/memtable_test.cc *)
(* ===================================================================== *)

Module memtable_model.

Import cache.

(** ** Merging maps entry by entry *)

Section JoinMaps.

Context {K : Type} `{Countable K} {A : Type}.
Variable join : A -> A -> A.
Hypothesis join_comm : forall a b, join a b = join b a.
Hypothesis join_assoc : forall a b c, join a (join b c) = join (join a b) c.
Hypothesis join_idem : forall a, join a a = a.

Definition join_maps (m1 m2 : gmap K A) : gmap K A :=
  union_with (fun a b => Some (join a b)) m1 m2.

Lemma lookup_join_maps (m1 m2 : gmap K A) (i : K) :
  join_maps m1 m2 !! i =
  match m1 !! i, m2 !! i with
  | Some a, Some b => Some (join a b)
  | Some a, None => Some a
  | None, o => o
  end.
Proof.
  unfold join_maps. rewrite lookup_union_with.
  by destruct (m1 !! i), (m2 !! i).
Qed.

Lemma join_maps_comm (m1 m2 : gmap K A) : join_maps m1 m2 = join_maps m2 m1.
Proof.
  apply map_eq. intros i. rewrite !lookup_join_maps.
  destruct (m1 !! i), (m2 !! i); try done. by rewrite join_comm.
Qed.

Lemma join_maps_assoc (m1 m2 m3 : gmap K A) :
  join_maps m1 (join_maps m2 m3) = join_maps (join_maps m1 m2) m3.
Proof.
  apply map_eq. intros i. rewrite !lookup_join_maps.
  destruct (m1 !! i), (m2 !! i), (m3 !! i); try done. by rewrite join_assoc.
Qed.

Lemma join_maps_idem (m : gmap K A) : join_maps m m = m.
Proof.
  apply map_eq. intros i. rewrite !lookup_join_maps.
  destruct (m !! i); try done. by rewrite join_idem.
Qed.

Lemma join_maps_empty_l (m : gmap K A) : join_maps ∅ m = m.
Proof. apply map_eq. intros i. by rewrite lookup_join_maps, lookup_empty. Qed.

Lemma join_maps_empty_r (m : gmap K A) : join_maps m ∅ = m.
Proof.
  apply map_eq. intros i. rewrite lookup_join_maps, lookup_empty.
  by destruct (m !! i).
Qed.

End JoinMaps.

(** ** The mutation data model *)

(** Modelled from the spec: the "partition/row mutation data model" that
    the core consumes (spec 1) is not in the repository files at hand.  A
    cell carries its write timestamp and its value, a deleted cell no
    value. *)
Record atomic_cell := AtomicCell {
  timestamp : Z;
  cell_value : option Z
}.

(** Modelled from the spec: writes converge "via per-cell timestamp
    comparison" (spec 6), whatever the order they arrive in: the later
    timestamp wins; between equal timestamps a deletion wins over a value
    and the larger value over the smaller. *)
Definition reconcile (a b : atomic_cell) : atomic_cell :=
  if timestamp a <? timestamp b then b
  else if timestamp b <? timestamp a then a
  else match cell_value a, cell_value b with
       | None, _ => a
       | _, None => b
       | Some x, Some y => if x <=? y then b else a
       end.

(** A cell is addressed by clustering key and column name. *)
Abbreviation partition_data := (gmap (Z * string) atomic_cell).

(** All partitions of a table, by partition key. *)
Abbreviation database := (gmap Z partition_data).

Definition merge_partition (a b : partition_data) : partition_data :=
  join_maps reconcile a b.

Definition merge_database (a b : database) : database :=
  join_maps merge_partition a b.

Arguments join_maps : simpl never.
Arguments merge_partition : simpl never.
Arguments merge_database : simpl never.

Ltac decide_comparisons :=
  repeat (cbv beta iota delta [reconcile timestamp cell_value];
          match goal with
          | |- context [?u <? ?v] =>
              first [rewrite (proj2 (Z.ltb_lt u v)) by lia
                    |rewrite (proj2 (Z.ltb_ge u v)) by lia]
          | |- context [?u <=? ?v] =>
              first [rewrite (proj2 (Z.leb_le u v)) by lia
                    |rewrite (proj2 (Z.leb_gt u v)) by lia]
          end);
  cbv beta iota delta [reconcile timestamp cell_value];
  try done; try (f_equal; try lia; f_equal; lia).

Lemma reconcile_comm (a b : atomic_cell) : reconcile a b = reconcile b a.
Proof.
  destruct a as [ta [x|]], b as [tb [y|]];
    destruct (Z.lt_trichotomy ta tb) as [?|[?|?]];
    try destruct (Z.lt_trichotomy x y) as [?|[?|?]];
    decide_comparisons.
Qed.

Lemma reconcile_idem (a : atomic_cell) : reconcile a a = a.
Proof. destruct a as [ta [x|]]; decide_comparisons. Qed.

Lemma reconcile_assoc (a b c : atomic_cell) :
  reconcile a (reconcile b c) = reconcile (reconcile a b) c.
Proof.
  destruct a as [ta [x|]], b as [tb [y|]], c as [tc [z|]];
    destruct (Z.lt_trichotomy ta tb) as [?|[?|?]];
    destruct (Z.lt_trichotomy tb tc) as [?|[?|?]];
    destruct (Z.lt_trichotomy ta tc) as [?|[?|?]]; try lia;
    try destruct (Z.le_gt_cases x y);
    try destruct (Z.le_gt_cases y z);
    try destruct (Z.le_gt_cases x z);
    decide_comparisons.
Qed.

Lemma merge_partition_empty_l (a : partition_data) : merge_partition ∅ a = a.
Proof. apply join_maps_empty_l. Qed.

Lemma merge_partition_empty_r (a : partition_data) : merge_partition a ∅ = a.
Proof. apply join_maps_empty_r. Qed.

Lemma merge_partition_comm (a b : partition_data) :
  merge_partition a b = merge_partition b a.
Proof. apply join_maps_comm, reconcile_comm. Qed.

Lemma merge_partition_assoc (a b c : partition_data) :
  merge_partition a (merge_partition b c)
  = merge_partition (merge_partition a b) c.
Proof. apply join_maps_assoc, reconcile_assoc. Qed.

Lemma merge_partition_idem (a : partition_data) : merge_partition a a = a.
Proof. apply join_maps_idem, reconcile_idem. Qed.

Lemma merge_database_comm (a b : database) :
  merge_database a b = merge_database b a.
Proof. apply join_maps_comm, merge_partition_comm. Qed.

Lemma merge_database_assoc (a b c : database) :
  merge_database a (merge_database b c)
  = merge_database (merge_database a b) c.
Proof. apply join_maps_assoc, merge_partition_assoc. Qed.

Lemma merge_database_idem (a : database) : merge_database a a = a.
Proof. apply join_maps_idem, merge_partition_idem. Qed.

(** ** Mutations, version chains and the memtable *)

(** A schema is the set of its regular columns. *)
Abbreviation schema := (gset string).

(** Modelled from the spec: a mutation (spec 1, 3) is the data written to
    one partition key under a schema. *)
Record mutation := Mutation {
  m_schema : schema;
  m_key : Z;
  m_partition : partition_data
}.

(** Modelled from the spec: a Partition Entry with its Partition Version
    Chain (spec 3, 4.2).  [versions] holds the chain newest first; [apply]
    prepends a version and never touches the older ones.  [streamed] counts
    the oldest versions that a flush has already handed to its consumer:
    what is above them is the "not-yet-durable in-memory data" of 4.3. *)
Record partition_entry := PartitionEntry {
  versions : list partition_data;
  streamed : nat
}.

(** Modelled from the spec: "the chain, read oldest-to-newest and merged,
    always reconstructs the same logical partition" (spec 3). *)
Definition squash (chain : list partition_data) : partition_data :=
  foldr merge_partition ∅ chain.

Definition content (e : partition_entry) : partition_data :=
  squash (versions e).

Definition pending_versions (e : partition_entry) : list partition_data :=
  take (length (versions e) - streamed e) (versions e).

Definition streamed_versions (e : partition_entry) : list partition_data :=
  drop (length (versions e) - streamed e) (versions e).

(** Modelled from the spec: the Memtable (spec 2, 3, 4.3): the indexed
    partition entries, the active schema, the source that [mark_flushed]
    installs, and Dirty Memory Accounting: "real dirty (live Memtable
    bytes)", "virtual dirty (bytes not yet guaranteed durable, used by the
    flush scheduler)" and the bytes the flush has accounted as flushed so
    far. *)
Record memtable := Memtable {
  _schema : schema;
  partitions : gmap Z partition_entry;
  _underlying : option database;
  real_dirty : Z;
  virtual_dirty : Z;
  flushed_memory : Z
}.

(** [make_lw_shared<memtable>(s)]: an empty memtable. *)
Definition empty_memtable (s : schema) : memtable :=
  Memtable s ∅ None 0 0 0.

(** Modelled from the spec: the result of [compact()] on a chain (4.2):
    one version with the same logical content. *)
Definition compact_entry (e : partition_entry) : partition_entry :=
  PartitionEntry
    (squash (pending_versions e)
       :: match streamed e with
          | O => []
          | S _ => [squash (streamed_versions e)]
          end)
    (match streamed e with O => O | S _ => 1%nat end).

Section Memtable.

(** The bytes a partition's data occupy in memory, as the allocator
    charges them; the allocator is outside the core. *)
Variable occupancy : partition_data -> Z.

(** Modelled from the spec: [apply(mutation)] (4.3, 7) "finds-or-creates
    the Partition Entry for the mutation's key, appends a version, updates
    dirty-memory counters", where the delta may be negative; a mutation of
    another schema is "rejected synchronously at apply, no partial state
    change". *)
Definition apply (m : mutation) (mt : memtable) : option memtable :=
  if decide (m_schema m = _schema mt) then
    let e := default (PartitionEntry [] 0) (partitions mt !! m_key m) in
    let e' := PartitionEntry (m_partition m :: versions e) (streamed e) in
    let delta := occupancy (content e') - occupancy (content e) in
    Some (Memtable (_schema mt) (<[m_key m := e']> (partitions mt))
            (_underlying mt) (real_dirty mt + delta) (virtual_dirty mt + delta)
            (flushed_memory mt))
  else None.

(** [for (auto&& m : partitions) mt->apply(m);] *)
Definition apply_all (ms : list mutation) (mt : memtable) : option memtable :=
  foldl (fun acc m => acc ≫= apply m) (Some mt) ms.

(** Modelled from the spec: [as_data_source()] (4.3) "returns a
    mutation-source view over the memtable's current snapshot of entries";
    once [mark_flushed] has installed a source, that source with the
    in-memory data "layered on top". *)
Definition as_data_source (mt : memtable) : database :=
  match _underlying mt with
  | None => content <$> partitions mt
  | Some src => merge_database src (content <$> partitions mt)
  end.


(** Modelled from the spec: [mark_flushed(new_source)] (4.3, 9)
    "substitutes the externally-visible source for already-flushed
    partitions with new_source, preserving any not-yet-durable in-memory
    data layered on top"; it is "an atomic pointer-swap equivalent
    (replace-source-reference)". *)
Definition keep_pending (e : partition_entry) : option partition_entry :=
  match streamed e, pending_versions e with
  | S _, [] => None
  | _, vs => Some (PartitionEntry vs 0)
  end.

Definition mark_flushed (new_source : database) (mt : memtable) : memtable :=
  Memtable (_schema mt) (omap keep_pending (partitions mt)) (Some new_source)
    (real_dirty mt) (virtual_dirty mt) (flushed_memory mt).

(** Modelled from the spec: in-memory compaction (4.2 [compact()]) merges
    the versions of every chain; it "must preserve exact logical
    content". *)
Definition full_compaction (mt : memtable) : memtable :=
  Memtable (_schema mt) (compact_entry <$> partitions mt) (_underlying mt)
    (real_dirty mt) (virtual_dirty mt) (flushed_memory mt).

End Memtable.

(** ** Readers *)

(** Modelled from the spec: a reader of a mutation source (spec 6)
    produces the partitions of a key range "in partition-key order,
    supporting fast_forward_to(new_range)".  It holds the schema it was
    created with, its range and the last key it produced. *)
Record reader := Reader {
  rd_schema : schema;
  rd_range : partition_range;
  rd_last : option Z
}.

Definition make_flat_reader (s : schema) (r : partition_range) : reader :=
  Reader s r None.

Definition fast_forward_to (r : partition_range) (rd : reader) : reader :=
  Reader (rd_schema rd) r None.

Definition min_key (ks : list Z) : option Z :=
  foldr (fun k acc => Some (match acc with None => k | Some k' => Z.min k k' end))
        None ks.

Definition after_last (last : option Z) (k : Z) : bool :=
  match last with None => true | Some l => l <? k end.

(** The keys the reader has still to produce. *)
Definition candidates (db : database) (rd : reader) : list Z :=
  List.filter (fun k => contains (rd_range rd) k && after_last (rd_last rd) k)
    (elements (dom db)).

(** The cells of the columns a schema knows. *)
Definition upgrade (s : schema) (data : partition_data) : partition_data :=
  filter (fun kv => kv.1.2 ∈ s) data.

(** One step of a reader over a source: the next partition in key order,
    as a mutation of the reader's schema. *)
Definition reader_next (db : database) (rd : reader)
    : option mutation * reader :=
  match min_key (candidates db rd) with
  | None => (None, rd)
  | Some k =>
      (Some (Mutation (rd_schema rd) k
               (upgrade (rd_schema rd) (default ∅ (db !! k)))),
       Reader (rd_schema rd) (rd_range rd) (Some k))
  end.

(** All that a reader has still to produce. *)
Fixpoint scan (fuel : nat) (db : database) (rd : reader) : list mutation :=
  match fuel with
  | O => []
  | S n =>
      match reader_next db rd with
      | (None, _) => []
      | (Some m, rd') => m :: scan n db rd'
      end
  end.

(** The stream a source produces for a schema and a range. *)
Definition produce (db : database) (s : schema) (r : partition_range)
    : list mutation :=
  scan (size db) db (make_flat_reader s r).

(** What a consumer does with a reader: pull the next mutation, or
    fast-forward to another range. *)
Inductive reader_op :=
| next_mutation
| forward_to (r : partition_range).

Fixpoint run (ops : list reader_op) (db : database) (rd : reader)
    : list (option mutation) * reader :=
  match ops with
  | [] => ([], rd)
  | next_mutation :: ops' =>
      let '(m, rd') := reader_next db rd in
      let '(out, rd'') := run ops' db rd' in
      (m :: out, rd'')
  | forward_to r :: ops' => run ops' db (fast_forward_to r rd)
  end.

(** Merging mutations directly. *)
Definition merge_mutations (ms : list mutation) : database :=
  foldr (fun m acc => merge_database {[m_key m := m_partition m]} acc) ∅ ms.

(** ** Convergence of [apply] *)

Lemma squash_app (l1 l2 : list partition_data) :
  squash (l1 ++ l2) = merge_partition (squash l1) (squash l2).
Proof.
  induction l1 as [|v l1 IH]; cbn.
  - unfold merge_partition. by rewrite join_maps_empty_l.
  - fold (squash (l1 ++ l2)) (squash l1). by rewrite IH, merge_partition_assoc.
Qed.

Lemma content_pending_streamed (e : partition_entry) :
  content e
  = merge_partition (squash (pending_versions e)) (squash (streamed_versions e)).
Proof.
  unfold content, pending_versions, streamed_versions.
  by rewrite <- squash_app, take_drop.
Qed.

Lemma content_compact_entry (e : partition_entry) :
  content (compact_entry e) = content e.
Proof.
  rewrite (content_pending_streamed e).
  unfold compact_entry, content. cbn.
  destruct (streamed e) eqn:Hs; cbn.
  - unfold streamed_versions. rewrite Hs, Nat.sub_0_r, drop_all. cbn.
    done.
  - unfold merge_partition at 2. by rewrite join_maps_empty_r.
Qed.

Lemma merge_mutations_cons (m : mutation) (ms : list mutation) :
  merge_mutations (m :: ms)
  = merge_database {[m_key m := m_partition m]} (merge_mutations ms).
Proof. reflexivity. Qed.

Lemma merge_mutations_permutation (ms ms' : list mutation) :
  ms' ≡ₚ ms -> merge_mutations ms' = merge_mutations ms.
Proof.
  induction 1 as [|m l1 l2 _ IH|m1 m2 l|l1 l2 l3 _ IH1 _ IH2].
  - done.
  - by rewrite !merge_mutations_cons, IH.
  - rewrite !merge_mutations_cons, !merge_database_assoc.
    by rewrite (merge_database_comm {[m_key m1 := _]}).
  - by rewrite IH1.
Qed.

Lemma merge_mutations_absorbs (ms : list mutation) (m : mutation) :
  In m ms ->
  merge_database {[m_key m := m_partition m]} (merge_mutations ms)
  = merge_mutations ms.
Proof.
  intros Hin. apply list_elem_of_In, list_elem_of_split in Hin as (l1 & l2 & ->).
  rewrite (merge_mutations_permutation (m :: l1 ++ l2) (l1 ++ m :: l2))
    by (by rewrite Permutation_middle).
  rewrite merge_mutations_cons.
  by rewrite merge_database_assoc, merge_database_idem.
Qed.

Section Convergence.

Variable occupancy : partition_data -> Z.

Lemma as_data_source_apply (m : mutation) (mt mt' : memtable) :
  apply occupancy m mt = Some mt' ->
  _schema mt' = _schema mt
  /\ as_data_source mt'
     = merge_database {[m_key m := m_partition m]} (as_data_source mt).
Proof.
  unfold apply. destruct (decide (m_schema m = _schema mt)); [|done].
  intros [= <-]. split; [done|].
  assert (Hmem : content <$> <[m_key m :=
              PartitionEntry
                (m_partition m
                   :: versions (default (PartitionEntry [] 0)
                                  (partitions mt !! m_key m)))
                (streamed (default (PartitionEntry [] 0)
                             (partitions mt !! m_key m)))]> (partitions mt)
            = merge_database {[m_key m := m_partition m]}
                (content <$> partitions mt)).
  { apply map_eq. intros k. unfold merge_database.
    rewrite lookup_join_maps, lookup_fmap.
    destruct (decide (k = m_key m)) as [->|Hne].
    - rewrite lookup_insert_eq, lookup_singleton_eq, lookup_fmap. cbn.
      destruct (partitions mt !! m_key m) as [e0|]; cbn; [done|].
      unfold content. cbn. unfold merge_partition.
      by rewrite join_maps_empty_r.
    - rewrite lookup_insert_ne, lookup_singleton_ne, lookup_fmap by done.
      done. }
  unfold as_data_source. cbn. rewrite Hmem.
  destruct (_underlying mt) as [src|]; [|done].
  rewrite !merge_database_assoc.
  by rewrite (merge_database_comm src).
Qed.

Lemma apply_all_merges (ms : list mutation) :
  forall (mt : memtable),
    Forall (fun m => m_schema m = _schema mt) ms ->
    exists mt',
      apply_all occupancy ms mt = Some mt'
      /\ _schema mt' = _schema mt
      /\ as_data_source mt'
         = merge_database (merge_mutations ms) (as_data_source mt).
Proof.
  induction ms as [|m ms IH]; intros mt Hall.
  - exists mt. cbn. unfold merge_database. by rewrite join_maps_empty_l.
  - inversion Hall as [|? ? Hm Hms]; subst.
    destruct (apply occupancy m mt) as [mt1|] eqn:Happ.
    2: { unfold apply in Happ. by rewrite decide_True in Happ. }
    destruct (as_data_source_apply m mt mt1 Happ) as [Hs1 Hd1].
    destruct (IH mt1) as (mt' & Hrun & Hs' & Hd').
    { by rewrite Hs1. }
    exists mt'. split; [|split].
    + unfold apply_all. cbn. rewrite Happ. exact Hrun.
    + by rewrite Hs', Hs1.
    + rewrite Hd', Hd1, merge_mutations_cons.
      rewrite !merge_database_assoc.
      by rewrite (merge_database_comm (merge_mutations ms)).
Qed.

Lemma as_data_source_full_compaction (mt : memtable) :
  as_data_source (full_compaction mt) = as_data_source mt.
Proof.
  unfold as_data_source, full_compaction. cbn.
  assert (Hc : content <$> (compact_entry <$> partitions mt)
               = content <$> partitions mt).
  { rewrite <- map_fmap_compose. apply map_fmap_ext.
    intros k e _. apply content_compact_entry. }
  by rewrite Hc.
Qed.

End Convergence.

(** ** Readers produce the partitions in key order *)

Lemma min_key_None (ks : list Z) : min_key ks = None <-> ks = [].
Proof. destruct ks; cbn; split; done. Qed.

Lemma min_key_least (ks : list Z) (k : Z) :
  min_key ks = Some k -> In k ks /\ forall k', In k' ks -> k <= k'.
Proof.
  revert k. induction ks as [|k0 ks IH]; intros k; [done|].
  cbn. fold (min_key ks). destruct (min_key ks) as [k1|] eqn:Hmin.
  - intros [= <-]. destruct (IH k1 eq_refl) as [Hin Hle].
    split.
    + destruct (Z.min_spec k0 k1) as [[_ ->]|[_ ->]]; [by left|by right].
    + intros k' [<-|Hk']; [lia|]. specialize (Hle k' Hk'). lia.
  - intros [= <-]. apply min_key_None in Hmin as ->.
    split; [by left|]. intros k' [<-|[]]. lia.
Qed.

Lemma filter_length_lt (f g : Z -> bool) (l : list Z) (x : Z) :
  (forall y, f y = true -> g y = true) ->
  In x l -> g x = true -> f x = false ->
  (length (List.filter f l) < length (List.filter g l))%nat.
Proof.
  intros Hfg Hin Hgx Hfx.
  assert (Hle : forall l', (length (List.filter f l')
                            <= length (List.filter g l'))%nat).
  { induction l' as [|y l' IH]; cbn; [lia|].
    destruct (f y) eqn:Hf.
    - rewrite (Hfg y Hf). cbn. lia.
    - destruct (g y); cbn; lia. }
  induction l as [|y l IH]; [done|]. cbn.
  destruct Hin as [->|Hin].
  - rewrite Hfx, Hgx. cbn. specialize (Hle l). lia.
  - specialize (IH Hin). destruct (f y) eqn:Hf.
    + rewrite (Hfg y Hf). cbn. lia.
    + destruct (g y); cbn; lia.
Qed.

Lemma strictly_ascending_cons (k : Z) (ks : list Z) :
  Forall (fun k' => k < k') ks ->
  strictly_ascending ks = true ->
  strictly_ascending (k :: ks) = true.
Proof.
  intros Hall Hs. destruct ks as [|k' ks]; [done|].
  cbn in *. inversion Hall; subst. rewrite Hs, andb_true_r.
  by apply Z.ltb_lt.
Qed.

(** A reader step yields the least key of the source that lies in the
    range and after the last key produced, and nothing when there is
    none. *)
Lemma reader_next_least (db : database) (rd : reader) :
  match reader_next db rd with
  | (Some m, rd') =>
      m_schema m = rd_schema rd
      /\ db !! m_key m = Some (default ∅ (db !! m_key m))
      /\ m_partition m = upgrade (rd_schema rd) (default ∅ (db !! m_key m))
      /\ contains (rd_range rd) (m_key m) = true
      /\ after_last (rd_last rd) (m_key m) = true
      /\ (forall k, is_Some (db !! k) -> contains (rd_range rd) k = true ->
            after_last (rd_last rd) k = true -> m_key m <= k)
      /\ rd' = Reader (rd_schema rd) (rd_range rd) (Some (m_key m))
  | (None, rd') =>
      rd' = rd
      /\ forall k, is_Some (db !! k) -> contains (rd_range rd) k = true ->
           after_last (rd_last rd) k = false
  end.
Proof.
  unfold reader_next.
  destruct (min_key (candidates db rd)) as [k|] eqn:Hmin.
  - apply min_key_least in Hmin as [Hin Hle].
    unfold candidates in Hin, Hle. apply filter_In in Hin as [Hdom Hk].
    apply andb_prop in Hk as [Hrange Hafter].
    apply list_elem_of_In, elem_of_elements, elem_of_dom in Hdom as [d Hd].
    cbn. unfold decorated_key in *. rewrite Hd. cbn. repeat split; try done.
    intros k' Hk' Hr' Ha'. apply Hle, filter_In. split.
    + by apply list_elem_of_In, elem_of_elements, elem_of_dom.
    + by rewrite Hr', Ha'.
  - split; [done|]. intros k Hk Hr.
    apply min_key_None in Hmin.
    destruct (after_last (rd_last rd) k) eqn:Ha; [|done].
    assert (Hin : In k (candidates db rd)).
    { apply filter_In. split.
      - by apply list_elem_of_In, elem_of_elements, elem_of_dom.
      - by rewrite Hr, Ha. }
    rewrite Hmin in Hin. done.
Qed.


(** Given enough steps a reader produces every partition of its range
    that lies after its last key, once, in key order. *)
Lemma scan_complete (fuel : nat) :
  forall (db : database) (rd : reader),
    (length (candidates db rd) <= fuel)%nat ->
    (forall k d, db !! k = Some d -> contains (rd_range rd) k = true ->
       after_last (rd_last rd) k = true ->
       In (Mutation (rd_schema rd) k (upgrade (rd_schema rd) d))
          (scan fuel db rd))
    /\ Forall (fun m => after_last (rd_last rd) (m_key m) = true)
         (scan fuel db rd)
    /\ strictly_ascending (m_key <$> scan fuel db rd) = true.
Proof.
  induction fuel as [|fuel IH]; intros db rd Hlen.
  - assert (Hnil : candidates db rd = [])
      by (destruct (candidates db rd); [done|cbn in Hlen; lia]).
    cbn. split; [|by split]. intros k d Hd Hr Ha.
    assert (Hin : In k (candidates db rd)).
    { apply filter_In. split; [|by rewrite Hr, Ha].
      apply list_elem_of_In, elem_of_elements. by apply elem_of_dom_2 in Hd. }
    rewrite Hnil in Hin. done.
  - cbn [scan]. unfold reader_next.
    destruct (min_key (candidates db rd)) as [k|] eqn:Hmin.
    2: { apply min_key_None in Hmin. split; [|by split]. intros k d Hd Hr Ha.
         assert (Hin : In k (candidates db rd)).
         { apply filter_In. split; [|by rewrite Hr, Ha].
           apply list_elem_of_In, elem_of_elements.
           by apply elem_of_dom_2 in Hd. }
         rewrite Hmin in Hin. done. }
    apply min_key_least in Hmin as [Hin Hleast].
    pose proof Hin as Hin'. apply filter_In in Hin' as [Hdom Hk].
    apply andb_prop in Hk as [Hrange Hafter].
    set (rd' := Reader (rd_schema rd) (rd_range rd) (Some k)).
    assert (Hlt : forall k', after_last (Some k) k' = true ->
              after_last (rd_last rd) k' = true).
    { intros k' Hk'. cbn in Hk'. apply Z.ltb_lt in Hk'.
      destruct (rd_last rd) as [l|]; [|done]. cbn in *.
      apply Z.ltb_lt in Hafter. apply Z.ltb_lt. lia. }
    destruct (IH db rd') as (Hall & Hafterall & Hasc).
    { assert (Hstrict :
        (length (candidates db rd') < length (candidates db rd))%nat).
      { unfold candidates. apply (filter_length_lt _ _ _ k).
        - intros y Hy. apply andb_prop in Hy as [Hy1 Hy2]. cbn in Hy1, Hy2.
          by rewrite Hy1, (Hlt y Hy2).
        - done.
        - by rewrite Hrange, Hafter.
        - cbn. by rewrite Z.ltb_irrefl, andb_false_r. }
      lia. }
    split; [|split].
    + intros k' d Hd Hr Ha. destruct (decide (k' = k)) as [->|Hne].
      * left. unfold decorated_key in *. by rewrite Hd.
      * right. apply Hall; [done|done|]. cbn. apply Z.ltb_lt.
        assert (k <= k'); [|lia].
        apply Hleast, filter_In. split; [|by rewrite Hr, Ha].
        apply list_elem_of_In, elem_of_elements. by apply elem_of_dom_2 in Hd.
    + constructor; [done|].
      eapply Forall_impl; [exact Hafterall|]. cbn. intros m'. apply Hlt.
    + cbn. apply strictly_ascending_cons; [|done].
      apply Forall_fmap. eapply Forall_impl; [exact Hafterall|].
      cbn. intros m' Hm'. by apply Z.ltb_lt.
Qed.

(** The stream of a source holds every partition of the range, once, in
    key order. *)
Lemma produce_complete (db : database) (s : schema) (r : partition_range) :
  (forall k d, db !! k = Some d -> contains r k = true ->
     In (Mutation s k (upgrade s d)) (produce db s r))
  /\ strictly_ascending (m_key <$> produce db s r) = true.
Proof.
  destruct (scan_complete (size db) db (make_flat_reader s r))
    as (Hall & _ & Hasc).
  { unfold candidates. etransitivity; [apply List.filter_length_le|].
    rewrite <- (size_dom (D := gset Z)). done. }
  split; [|exact Hasc]. intros k d Hd Hr. by apply Hall.
Qed.

Section Conformance.

Variable occupancy : partition_data -> Z.

(** C1. Applied in any order to an empty memtable, mutations of the
    memtable's schema are all accepted, and the memtable as a mutation
    source holds exactly what merging the mutations directly by per-cell
    timestamp gives, also after an in-memory compaction; so for every schema
    and range it produces the stream of that merge, which holds every merged
    partition of the range once and in key order; applying again a mutation
    that was already applied leaves that state as it is. *)
Theorem memtable_conforms_to_mutation_source :
  forall (s : schema) (ms ms' : list mutation),
    ms' ≡ₚ ms ->
    Forall (fun m => m_schema m = s) ms ->
    exists mt,
      apply_all occupancy ms' (empty_memtable s) = Some mt
      /\ as_data_source mt = merge_mutations ms
      /\ as_data_source (full_compaction mt) = merge_mutations ms
      /\ (forall s' r,
            produce (as_data_source mt) s' r = produce (merge_mutations ms) s' r
            /\ strictly_ascending (m_key <$> produce (as_data_source mt) s' r)
               = true
            /\ forall k d, merge_mutations ms !! k = Some d ->
                 contains r k = true ->
                 In (Mutation s' k (upgrade s' d))
                    (produce (as_data_source mt) s' r))
      /\ (forall m, In m ms ->
            exists mt2,
              apply occupancy m mt = Some mt2
              /\ as_data_source mt2 = as_data_source mt).
Proof.
  intros s ms ms' Hperm Hall.
  destruct (apply_all_merges occupancy ms' (empty_memtable s))
    as (mt & Hrun & Hs & Hd).
  { cbn. by rewrite Hperm. }
  assert (Hsrc : as_data_source mt = merge_mutations ms).
  { rewrite Hd. cbn. rewrite fmap_empty. unfold merge_database.
    rewrite join_maps_empty_r. by apply merge_mutations_permutation. }
  exists mt. split; [done|]. split; [done|].
  split; [by rewrite as_data_source_full_compaction|].
  split.
  { intros s' r. rewrite Hsrc. split; [done|].
    destruct (produce_complete (merge_mutations ms) s' r) as [Hin Hasc].
    split; [exact Hasc|exact Hin]. }
  intros m Hin.
  destruct (apply occupancy m mt) as [mt2|] eqn:Happ.
  - exists mt2. split; [done|].
    destruct (as_data_source_apply occupancy m mt mt2 Happ) as [_ ->].
    rewrite Hsrc. by apply merge_mutations_absorbs.
  - unfold apply in Happ. rewrite decide_True in Happ; [done|].
    rewrite Hs. cbn. rewrite Forall_forall in Hall.
    by apply Hall, list_elem_of_In.
Qed.

End Conformance.

(** ** Swapping the schema *)


(** ** [mark_flushed] *)

(** [a] holds nothing that [b] does not hold. *)
Definition within (a b : option partition_data) : Prop :=
  union_with (fun x y => Some (merge_partition x y)) a b = b.

(** What the flush has handed to its consumer of partition [k]. *)
Definition streamed_data (mt : memtable) (k : Z) : option partition_data :=
  e ← partitions mt !! k;
  match streamed e with
  | O => None
  | S _ => Some (squash (streamed_versions e))
  end.

(** [new_source] holds the flushed data: for every key at least what the
    flush streamed, and nothing that was never applied. *)
Definition holds_flushed_data (new_source : database) (mt : memtable) : Prop :=
  forall k,
    within (streamed_data mt k) (new_source !! k)
    /\ within (new_source !! k) (content <$> partitions mt !! k).

Lemma as_data_source_mark_flushed (new_source : database) (mt : memtable) :
  _underlying mt = None ->
  holds_flushed_data new_source mt ->
  as_data_source (mark_flushed new_source mt) = as_data_source mt.
Proof.
  intros Hnone Hholds. unfold as_data_source. rewrite Hnone. cbn.
  apply map_eq. intros k. unfold merge_database.
  rewrite lookup_join_maps, !lookup_fmap, lookup_omap.
  destruct (Hholds k) as [Hlow Hhigh]. unfold within, streamed_data in *.
  destruct (partitions mt !! k) as [e|] eqn:He; cbn in *.
  - unfold keep_pending.
    pose proof (content_pending_streamed e) as Hc.
    destruct (streamed e) as [|n] eqn:Hs; cbn in *.
    + (* nothing of the partition was streamed *)
      assert (Hp : pending_versions e = versions e).
      { unfold pending_versions. by rewrite Hs, Nat.sub_0_r, firstn_all. }
      rewrite Hp. fold (squash (versions e)). fold (content e).
      destruct (new_source !! k) as [x|]; cbn in *; [exact Hhigh|done].
    + destruct (new_source !! k) as [x|]; cbn in *; [|done].
      inversion Hlow as [Hlow']. inversion Hhigh as [Hhigh'].
      rewrite Hhigh'.
      destruct (pending_versions e) as [|p ps] eqn:Hp; cbn.
      * (* the whole partition was streamed *)
        assert (Hsv : content e = squash (streamed_versions e)).
        { rewrite Hc. apply merge_partition_empty_l. }
        rewrite Hsv in *. f_equal.
        by rewrite merge_partition_comm.
      * (* newer versions lie on top of the streamed ones *)
        f_equal.
        change (merge_partition p (foldr merge_partition ∅ ps))
          with (squash (p :: ps)).
        rewrite Hlow'.
        transitivity (merge_partition x (content e)); [|exact Hhigh'].
        rewrite Hc. rewrite <- Hlow' at 1.
        rewrite (merge_partition_comm (squash (streamed_versions e)) x).
        rewrite <- merge_partition_assoc.
        by rewrite (merge_partition_comm (squash (streamed_versions e))).
  - destruct (new_source !! k) as [x|]; cbn in *; done.
Qed.

(** A source with the memtable's own content (such as a second memtable
    to which the same mutations were applied) holds the flushed data. *)
Lemma holds_flushed_data_content (mt : memtable) :
  holds_flushed_data (content <$> partitions mt) mt.
Proof.
  intros k. unfold within, streamed_data. rewrite lookup_fmap.
  destruct (partitions mt !! k) as [e|]; cbn; [|done].
  split; [|by rewrite merge_partition_idem].
  destruct (streamed e); cbn; [done|]. f_equal.
  rewrite (content_pending_streamed e).
  rewrite (merge_partition_comm (squash (pending_versions e))).
  by rewrite merge_partition_assoc, merge_partition_idem.
Qed.

(** C5. Once the flush is complete and [new_source] holds the flushed
    data, [mark_flushed(new_source)] does not change what the memtable
    shows: a reader created before it, at whatever position it has reached,
    produces from then on, also after a [fast_forward_to] to another range,
    the same mutations as if [mark_flushed] had not been called, each time
    the least remaining key of its range. *)
Theorem mark_flushed_is_transparent_to_readers :
  forall (mt : memtable) (new_source : database) (rd : reader)
         (before after : list reader_op),
    _underlying mt = None ->
    holds_flushed_data new_source mt ->
    let rd1 := (run before (as_data_source mt) rd).2 in
    run after (as_data_source (mark_flushed new_source mt)) rd1
    = run after (as_data_source mt) rd1
    /\ as_data_source (mark_flushed new_source mt) = as_data_source mt
    /\ forall rd2,
         match reader_next (as_data_source (mark_flushed new_source mt)) rd2 with
         | (Some m, _) =>
             is_Some (as_data_source mt !! m_key m)
             /\ contains (rd_range rd2) (m_key m) = true
             /\ after_last (rd_last rd2) (m_key m) = true
             /\ forall k, is_Some (as_data_source mt !! k) ->
                  contains (rd_range rd2) k = true ->
                  after_last (rd_last rd2) k = true -> m_key m <= k
         | (None, _) =>
             forall k, is_Some (as_data_source mt !! k) ->
               contains (rd_range rd2) k = true ->
               after_last (rd_last rd2) k = false
         end.
Proof.
  intros mt new_source rd before after Hnone Hholds rd1.
  rewrite (as_data_source_mark_flushed new_source mt Hnone Hholds).
  split; [done|]. split; [done|].
  intros rd2.
  pose proof (reader_next_least (as_data_source mt) rd2) as Hnext.
  destruct (reader_next (as_data_source mt) rd2) as [[m|] rd'].
  - destruct Hnext as (_ & Hk & _ & Hr & Ha & Hle & _).
    repeat split; eauto.
  - by destruct Hnext as [_ Hnone'].
Qed.

(** ** Flush reads *)

Inductive flush_result :=
| flush_complete
| flush_failed.

Section Flush.

Variable occupancy : partition_data -> Z.

(** The table's GC-grace policy: the cells that compaction may drop. *)
Variable purgeable : atomic_cell -> bool.

Definition compact_for_compaction (data : partition_data) : partition_data :=
  filter (fun kv => negb (purgeable kv.2)) data.

(** Modelled from the spec: one partition of [flush()] (4.3): the "fully
    compacted" content of the partition as it is when the flush opens it;
    the versions it streams are marked, and their bytes move from virtual
    dirty to flushed memory. *)
Definition flush_partition (k : Z) (e : partition_entry) (mt : memtable)
    : mutation * memtable :=
  (Mutation (_schema mt) k (compact_for_compaction (content e)),
   Memtable (_schema mt)
     (<[k := PartitionEntry (versions e) (length (versions e))]> (partitions mt))
     (_underlying mt) (real_dirty mt)
     (virtual_dirty mt - occupancy (content e))
     (flushed_memory mt + occupancy (content e))).

(** The keys the flush has still to stream. *)
Definition unflushed_keys (last : option Z) (mt : memtable) : list Z :=
  List.filter (after_last last) (elements (dom (partitions mt))).

(** Modelled from the spec: a flush read (4.3, 7) streams the partitions
    "partition by partition in key order"; "allocation exhaustion" may make
    it fail at any point: [failure = Some n] lets [n] partitions through
    and fails on the next. *)
Fixpoint flush_read (fuel : nat) (failure : option nat) (last : option Z)
    (mt : memtable) : flush_result * list mutation * memtable :=
  match fuel with
  | O => (flush_complete, [], mt)
  | S fuel' =>
      match min_key (unflushed_keys last mt) with
      | None => (flush_complete, [], mt)
      | Some k =>
          match failure with
          | Some O => (flush_failed, [], mt)
          | _ =>
              match partitions mt !! k with
              | None => (flush_complete, [], mt)
              | Some e =>
                  let '(m, mt1) := flush_partition k e mt in
                  let '(res, out, mt2) :=
                    flush_read fuel' (pred <$> failure) (Some k) mt1 in
                  (res, m :: out, mt2)
              end
          end
      end
  end.

(** [make_flush_reader] read to its end (or to its failure). *)
Definition flush (failure : option nat) (mt : memtable)
    : flush_result * list mutation * memtable :=
  flush_read (size (partitions mt)) failure None mt.

(** Modelled from the spec: [revert_flushed_memory()], the compensating
    revert accounting of 4.3: what the failed flush moved out of virtual
    dirty goes back. *)
Definition revert_flushed_memory (mt : memtable) : memtable :=
  Memtable (_schema mt) (partitions mt) (_underlying mt) (real_dirty mt)
    (virtual_dirty mt + flushed_memory mt) 0.

(** *** A flush read touches the accounting and nothing else *)

Lemma flush_partition_frame (k : Z) (e : partition_entry) (mt : memtable) :
  partitions mt !! k = Some e ->
  let mt1 := (flush_partition k e mt).2 in
  _schema mt1 = _schema mt
  /\ _underlying mt1 = _underlying mt
  /\ real_dirty mt1 = real_dirty mt
  /\ virtual_dirty mt1 + flushed_memory mt1
     = virtual_dirty mt + flushed_memory mt
  /\ dom (partitions mt1) = dom (partitions mt)
  /\ (forall k', versions <$> partitions mt1 !! k'
                 = versions <$> partitions mt !! k').
Proof.
  intros He. cbn. repeat split; try lia.
  - by apply dom_insert_lookup_L.
  - intros k'. destruct (decide (k = k')) as [<-|Hne].
    + by rewrite lookup_insert_eq, He.
    + by rewrite lookup_insert_ne.
Qed.

Lemma flush_read_frame (fuel : nat) :
  forall (failure : option nat) (last : option Z) (mt : memtable),
    let mt' := (flush_read fuel failure last mt).2 in
    _schema mt' = _schema mt
    /\ _underlying mt' = _underlying mt
    /\ real_dirty mt' = real_dirty mt
    /\ virtual_dirty mt' + flushed_memory mt'
       = virtual_dirty mt + flushed_memory mt
    /\ dom (partitions mt') = dom (partitions mt)
    /\ (forall k, versions <$> partitions mt' !! k
                  = versions <$> partitions mt !! k).
Proof.
  induction fuel as [|fuel IH]; intros failure last mt; [done|].
  cbn [flush_read].
  destruct (min_key (unflushed_keys last mt)) as [k|]; [|done].
  assert (Hstep : forall failure',
    let mt' :=
      (match partitions mt !! k with
       | None => (flush_complete, [], mt)
       | Some e =>
           let '(m, mt1) := flush_partition k e mt in
           let '(res, out, mt2) := flush_read fuel failure' (Some k) mt1 in
           (res, m :: out, mt2)
       end).2 in
    _schema mt' = _schema mt
    /\ _underlying mt' = _underlying mt
    /\ real_dirty mt' = real_dirty mt
    /\ virtual_dirty mt' + flushed_memory mt'
       = virtual_dirty mt + flushed_memory mt
    /\ dom (partitions mt') = dom (partitions mt)
    /\ (forall k0, versions <$> partitions mt' !! k0
                   = versions <$> partitions mt !! k0)).
  { intros failure'.
    destruct (partitions mt !! k) as [e|] eqn:He; [|done].
    pose proof (flush_partition_frame k e mt He) as Hp.
    destruct (flush_partition k e mt) as [m mt1]. cbn in Hp.
    specialize (IH failure' (Some k) mt1).
    destruct (flush_read fuel failure' (Some k) mt1) as [[res out] mt2].
    cbn in *.
    destruct Hp as (Hs & Hu & Hr & Hv & Hd & Hvs).
    destruct IH as (Hs' & Hu' & Hr' & Hv' & Hd' & Hvs').
    repeat split; try congruence.
    all: intros k0; by rewrite Hvs', Hvs. }
  destruct failure as [[|n]|]; [done|apply Hstep|apply Hstep].
Qed.

Lemma as_data_source_versions (mt mt' : memtable) :
  _underlying mt' = _underlying mt ->
  (forall k, versions <$> partitions mt' !! k = versions <$> partitions mt !! k) ->
  as_data_source mt' = as_data_source mt.
Proof.
  intros Hu Hvs. unfold as_data_source. rewrite Hu.
  assert (Hc : content <$> partitions mt' = content <$> partitions mt).
  { apply map_eq. intros k. rewrite !lookup_fmap. specialize (Hvs k).
    destruct (partitions mt' !! k) as [e'|], (partitions mt !! k) as [e|];
      cbn in *; try done.
    inversion Hvs as [Hv]. unfold content. by rewrite Hv. }
  by rewrite Hc.
Qed.

(** A flush read that does not fail streams every partition, once, in key
    order. *)
Lemma flush_read_complete (fuel : nat) :
  forall (last : option Z) (mt : memtable),
    (length (unflushed_keys last mt) <= fuel)%nat ->
    (flush_read fuel None last mt).1.1 = flush_complete
    /\ (forall k e, partitions mt !! k = Some e -> after_last last k = true ->
          In (Mutation (_schema mt) k (compact_for_compaction (content e)))
             (flush_read fuel None last mt).1.2)
    /\ Forall (fun m => after_last last (m_key m) = true)
         (flush_read fuel None last mt).1.2
    /\ strictly_ascending (m_key <$> (flush_read fuel None last mt).1.2) = true.
Proof.
  induction fuel as [|fuel IH]; intros last mt Hlen.
  - assert (Hnil : unflushed_keys last mt = [])
      by (destruct (unflushed_keys last mt); [done|cbn in Hlen; lia]).
    cbn. split; [done|]. split; [|by split].
    intros k e He Ha.
    assert (Hin : In k (unflushed_keys last mt)).
    { apply filter_In. split; [|done].
      apply list_elem_of_In, elem_of_elements. by apply elem_of_dom_2 in He. }
    rewrite Hnil in Hin. done.
  - cbn [flush_read].
    destruct (min_key (unflushed_keys last mt)) as [k|] eqn:Hmin.
    2: { apply min_key_None in Hmin. cbn. split; [done|]. split; [|by split].
         intros k e He Ha.
         assert (Hin : In k (unflushed_keys last mt)).
         { apply filter_In. split; [|done].
           apply list_elem_of_In, elem_of_elements. by apply elem_of_dom_2 in He. }
         rewrite Hmin in Hin. done. }
    apply min_key_least in Hmin as [Hin Hleast].
    pose proof Hin as Hin'.
    apply filter_In in Hin' as [Hdom Hafter].
    apply list_elem_of_In, elem_of_elements, elem_of_dom in Hdom as [e0 He0].
    rewrite He0. cbn [fmap option_fmap option_map].
    pose proof (flush_partition_frame k e0 mt He0) as Hp.
    destruct (flush_partition k e0 mt) as [m mt1] eqn:Hfp. cbn in Hp.
    destruct Hp as (Hs & _ & _ & _ & Hd & _).
    assert (Hm : m = Mutation (_schema mt) k (compact_for_compaction (content e0)))
      by (unfold flush_partition in Hfp; by inversion Hfp).
    assert (Hother : forall k', k' <> k ->
              partitions mt1 !! k' = partitions mt !! k').
    { intros k' Hne. unfold flush_partition in Hfp. inversion Hfp; subst mt1.
      cbn. by rewrite lookup_insert_ne. }
    assert (Hlt : forall k', after_last (Some k) k' = true ->
              after_last last k' = true).
    { intros k' Hk'. cbn in Hk'. apply Z.ltb_lt in Hk'.
      destruct last as [l|]; [|done]. cbn in *.
      apply Z.ltb_lt in Hafter. apply Z.ltb_lt. lia. }
    destruct (IH (Some k) mt1) as (Hres & Hall & Hafterall & Hasc).
    { unfold unflushed_keys in *. rewrite Hd.
      assert (Hstrict :
        (length (List.filter (after_last (Some k))
                   (elements (dom (partitions mt))))
         < length (List.filter (after_last last)
                     (elements (dom (partitions mt)))))%nat).
      { apply (filter_length_lt _ _ _ k); [exact Hlt| |done|].
        - by apply filter_In in Hin as [? _].
        - cbn. apply Z.ltb_irrefl. }
      lia. }
    destruct (flush_read fuel None (Some k) mt1) as [[res out] mt2].
    cbn in *. split; [done|]. split; [|split].
    + intros k' e He Ha. destruct (decide (k' = k)) as [->|Hne].
      * left. rewrite He0 in He. inversion He; subst e. done.
      * right. rewrite <- Hs. apply Hall.
        -- by rewrite Hother.
        -- apply Z.ltb_lt.
           assert (k <= k'); [|lia].
           apply Hleast, filter_In. split; [|done].
           apply list_elem_of_In, elem_of_elements.
           by apply elem_of_dom_2 in He.
    + constructor; [by subst m|].
      eapply Forall_impl; [exact Hafterall|]. cbn. intros m'. apply Hlt.
    + subst m. cbn. apply strictly_ascending_cons; [|done].
      apply Forall_fmap. eapply Forall_impl; [exact Hafterall|].
      cbn. intros m' Hm'. by apply Z.ltb_lt.
Qed.

(** C6. Whatever the point at which the flush read runs out of memory,
    once the flushed-memory accounting is reverted no applied mutation is
    lost: the version chains, and so what the memtable shows, are as before
    the flush; real and virtual dirty memory have their pre-flush values;
    and a flush read made again runs to completion and streams every
    partition of the memtable, compacted, in key order. *)
Theorem flush_failure_loses_nothing :
  forall (mt : memtable) (n : nat),
    flushed_memory mt = 0 ->
    let mt2 := revert_flushed_memory (flush (Some n) mt).2 in
    as_data_source mt2 = as_data_source mt
    /\ (forall k, versions <$> partitions mt2 !! k
                  = versions <$> partitions mt !! k)
    /\ real_dirty mt2 = real_dirty mt
    /\ virtual_dirty mt2 = virtual_dirty mt
    /\ flushed_memory mt2 = 0
    /\ (flush None mt2).1.1 = flush_complete
    /\ (forall k e, partitions mt !! k = Some e ->
          In (Mutation (_schema mt) k (compact_for_compaction (content e)))
             (flush None mt2).1.2)
    /\ strictly_ascending (m_key <$> (flush None mt2).1.2) = true.
Proof.
  intros mt n Hzero mt2.
  pose proof (flush_read_frame (size (partitions mt)) (Some n) None mt) as Hf.
  cbn zeta in Hf. fold (flush (Some n) mt) in Hf.
  destruct Hf as (Hs & Hu & Hr & Hv & Hd & Hvs).
  assert (Hvs2 : forall k, versions <$> partitions mt2 !! k
                           = versions <$> partitions mt !! k) by exact Hvs.
  split; [by apply as_data_source_versions|].
  split; [done|]. split; [done|].
  split; [subst mt2; cbn; lia|]. split; [done|].
  destruct (flush_read_complete (size (partitions mt2)) None mt2)
    as (Hres & Hall & _ & Hasc).
  { unfold unflushed_keys.
    etransitivity; [apply List.filter_length_le|].
    rewrite <- (size_dom (D := gset Z)). done. }
  split; [exact Hres|]. split; [|exact Hasc].
  intros k e He. specialize (Hvs2 k). rewrite He in Hvs2.
  destruct (partitions mt2 !! k) as [e2|] eqn:He2; [|done].
  cbn in Hvs2. inversion Hvs2 as [Hv2].
  specialize (Hall k e2 He2 eq_refl).
  unfold content in *. rewrite Hv2 in Hall.
  replace (_schema mt2) with (_schema mt) in Hall by (by rewrite <- Hs).
  exact Hall.
Qed.

End Flush.

(** ** Concrete runs *)

Definition example_schema : schema := {["v"%string]}.

Definition example_cell (ts v : Z) : partition_data :=
  {[ (0, "v"%string) := AtomicCell ts (Some v) ]}.

Definition write_1 : mutation := Mutation example_schema 1 (example_cell 1 10).
Definition overwrite_1 : mutation := Mutation example_schema 1 (example_cell 2 20).
Definition write_3 : mutation := Mutation example_schema 3 (example_cell 3 30).

(** The number of cells stands for the bytes they occupy. *)
Definition example_occupancy (data : partition_data) : Z :=
  Z.of_nat (size data).

(** Two versions of partition 1 and one of partition 3, of which the flush
    has streamed the older version of partition 1. *)
Definition example_memtable : memtable :=
  Memtable example_schema
    {[ 1 := PartitionEntry [example_cell 2 20; example_cell 1 10] 1;
       3 := PartitionEntry [example_cell 3 30] 0 ]}
    None 2 2 0.

Lemma memtable_conforms_to_mutation_source_witness :
  exists mt,
    apply_all example_occupancy [write_3; overwrite_1; write_1]
      (empty_memtable example_schema) = Some mt
    /\ as_data_source mt = merge_mutations [write_1; overwrite_1; write_3]
    /\ as_data_source (full_compaction mt)
       = merge_mutations [write_1; overwrite_1; write_3]
    /\ (forall s' r,
          produce (as_data_source mt) s' r
          = produce (merge_mutations [write_1; overwrite_1; write_3]) s' r
          /\ strictly_ascending (m_key <$> produce (as_data_source mt) s' r)
             = true
          /\ forall k d,
               merge_mutations [write_1; overwrite_1; write_3] !! k = Some d ->
               contains r k = true ->
               In (Mutation s' k (upgrade s' d))
                  (produce (as_data_source mt) s' r))
    /\ (forall m, In m [write_1; overwrite_1; write_3] ->
          exists mt2,
            apply example_occupancy m mt = Some mt2
            /\ as_data_source mt2 = as_data_source mt).
Proof.
  apply (memtable_conforms_to_mutation_source example_occupancy example_schema
           [write_1; overwrite_1; write_3] [write_3; overwrite_1; write_1]).
  - symmetry. apply (Permutation_rev [write_1; overwrite_1; write_3]).
  - repeat constructor.
Defined.

Lemma mark_flushed_is_transparent_to_readers_witness :
  let mt := example_memtable in
  let new_source := content <$> partitions mt in
  let rd := make_flat_reader example_schema full_range in
  let rd1 := (run [next_mutation] (as_data_source mt) rd).2 in
  run [next_mutation; forward_to full_range; next_mutation]
    (as_data_source (mark_flushed new_source mt)) rd1
  = run [next_mutation; forward_to full_range; next_mutation]
      (as_data_source mt) rd1
  /\ as_data_source (mark_flushed new_source mt) = as_data_source mt.
Proof.
  intros mt new_source rd rd1.
  destruct (mark_flushed_is_transparent_to_readers mt new_source rd
              [next_mutation]
              [next_mutation; forward_to full_range; next_mutation]
              eq_refl (holds_flushed_data_content mt)) as (Hrun & Hsrc & _).
  split; [exact Hrun|exact Hsrc].
Defined.

Lemma flush_failure_loses_nothing_witness :
  let mt2 :=
    revert_flushed_memory
      (flush example_occupancy (fun _ => false) (Some 1%nat) example_memtable).2 in
  as_data_source mt2 = as_data_source example_memtable
  /\ real_dirty mt2 = 2
  /\ virtual_dirty mt2 = 2
  /\ flushed_memory mt2 = 0
  /\ (flush example_occupancy (fun _ => false) None mt2).1.1 = flush_complete.
Proof.
  intros mt2.
  destruct (flush_failure_loses_nothing example_occupancy (fun _ => false)
              example_memtable 1 eq_refl)
    as (Hsrc & _ & Hreal & Hvirtual & Hflushed & Hres & _).
  split; [exact Hsrc|]. split; [exact Hreal|]. split; [exact Hvirtual|].
  split; [exact Hflushed|exact Hres].
Defined.

(** Applied newest first, the three writes still read back as the later
    write of partition 1 followed by partition 3. *)
Example example_out_of_order_reads_latest :
  (fun mt => produce (as_data_source mt) example_schema full_range)
    <$> apply_all example_occupancy [write_3; overwrite_1; write_1]
          (empty_memtable example_schema)
  = Some [Mutation example_schema 1 (example_cell 2 20);
          Mutation example_schema 3 (example_cell 3 30)].
Proof. vm_compute. reflexivity. Qed.

(** The failed flush of [example_memtable] did stream a partition and move
    its bytes before it failed. *)
Example example_flush_fails_after_one_partition :
  let r := flush example_occupancy (fun _ => false) (Some 1%nat) example_memtable in
  r.1.1 = flush_failed
  /\ m_key <$> r.1.2 = [1]
  /\ virtual_dirty r.2 = 1
  /\ flushed_memory r.2 = 1.
Proof. vm_compute. repeat split; reflexivity. Qed.

End memtable_model.

(* ===================================================================== *)
(** * cql3/statements/alter_type_statement.cc *)
(* ===================================================================== *)

Module alter_type_statement.

(** [bytes]: the names of fields and of user types. *)
Definition bytes := string.

(** The requests the statement refuses: one constructor for each [throw]
    of an [invalid_request_exception] in the file, with the field the
    message names. *)
Inductive refusal :=
| no_user_type_named
| used_in_partition_key_column
| field_already_exists (field : bytes)
| maximum_number_of_fields_reached
| circular_reference (field : bytes)
| unknown_field (field : bytes)
| incompatible_with_previous_type (field : bytes)
| unknown_keyspace.

Section AlterType.

(** [data_type], [cql3_type::raw], [database], [ut_name], [schema],
    [schema_builder], [column_definition] and the exceptions of the
    collaborators are declared in other files. *)
Context {data_type raw_type database ut_name schema schema_builder
         column_definition external_exception : Type}.

Inductive exception :=
| invalid_request_exception (why : refusal)
| no_such_keyspace
| thrown_by_collaborator (e : external_exception).

(** What a call comes to: it returns, it throws, or it indexes a vector
    past its end, which leaves the behaviour undefined. *)
Inductive result (A : Type) :=
| Returned (a : A)
| Thrown (e : exception)
| Undefined.
Arguments Returned {A} a.
Arguments Thrown {A} e.
Arguments Undefined {A}.

(** [user_type_impl]: the members that
    [user_type_impl::get_instance(keyspace, name, field_names, field_types,
    is_multi_cell)] is given; [type_keyspace] and [type_name] are its
    [_keyspace] and [_name]. *)
Record user_type := get_instance {
  type_keyspace : string;
  type_name : bytes;
  field_names : list bytes;
  field_types : list data_type;
  is_multi_cell : bool
}.

(** [user_type_impl::idx_of_field(name)] and [tuple_type_impl::size()]. *)
Variable idx_of_field : user_type -> bytes -> option nat.
Variable size : user_type -> nat.

Variable max_udt_fields : nat.

(** [abstract_type::references_user_type(keyspace, name)],
    [abstract_type::is_compatible_with(previous)] and
    [abstract_type::update_user_type(updated)]. *)
Variable references_user_type : data_type -> string -> bytes -> bool.
Variable is_compatible_with : data_type -> data_type -> bool.
Variable update_user_type : data_type -> user_type -> option data_type.

(** [raw->prepare(db, keyspace).get_type()]: the exception it throws or
    the type it returns. *)
Variable prepare : raw_type -> database -> string -> exception + data_type.

(** [create_type_statement::check_for_duplicate_names(type)]: what it
    throws, if it throws. *)
Variable check_for_duplicate_names : user_type -> option exception.

(** [ut_name::get_keyspace()] and [ut_name::get_user_type_name()]. *)
Variable get_keyspace : ut_name -> string.
Variable get_user_type_name : ut_name -> bytes.

(** [alter_type_statement::add_or_alter]. *)
Record add_or_alter := AddOrAlter {
  _name : ut_name;
  _is_add : bool;
  _field_name : bytes;
  _field_type : raw_type
}.

(** [alter_type_statement::renames]; a rename is the pair of the names of
    its two [column_identifier]s. *)
Record renames := Renames {
  renames_name : ut_name;
  _renames : list (bytes * bytes)
}.

(** [keyspace()]: [_name.get_keyspace()]. *)
Definition keyspace (name : ut_name) : string := get_keyspace name.

(** [add_or_alter::do_add(db, to_update)]. *)
Definition do_add (s : add_or_alter) (db : database) (to_update : user_type)
    : result user_type :=
  match idx_of_field to_update (_field_name s) with
  | Some _ =>
      Thrown (invalid_request_exception (field_already_exists (_field_name s)))
  | None =>
      if Nat.eqb (size to_update) max_udt_fields then
        Thrown (invalid_request_exception maximum_number_of_fields_reached)
      else
        let new_names := field_names to_update ++ [_field_name s] in
        let new_types := field_types to_update in
        match prepare (_field_type s) db (keyspace (_name s)) with
        | inr add_type =>
            if references_user_type add_type (type_keyspace to_update)
                 (type_name to_update)
            then Thrown (invalid_request_exception
                           (circular_reference (_field_name s)))
            else
              Returned
                (get_instance (type_keyspace to_update) (type_name to_update)
                   new_names (new_types ++ [add_type])
                   (is_multi_cell to_update))
        | inl e => Thrown e
        end
  end.

(** [add_or_alter::do_alter(db, to_update)]. *)
Definition do_alter (s : add_or_alter) (db : database) (to_update : user_type)
    : result user_type :=
  match idx_of_field to_update (_field_name s) with
  | None =>
      Thrown (invalid_request_exception (unknown_field (_field_name s)))
  | Some idx =>
      match field_types to_update !! idx with
      | None => Undefined
      | Some previous =>
          match prepare (_field_type s) db (keyspace (_name s)) with
          | inr new_type =>
              if negb (is_compatible_with new_type previous) then
                Thrown (invalid_request_exception
                          (incompatible_with_previous_type (_field_name s)))
              else
                Returned
                  (get_instance (type_keyspace to_update)
                     (type_name to_update) (field_names to_update)
                     (<[idx := new_type]> (field_types to_update))
                     (is_multi_cell to_update))
          | inl e => Thrown e
          end
      end
  end.

(** [add_or_alter::make_updated_type(db, to_update)]. *)
Definition add_or_alter_make_updated_type (s : add_or_alter) (db : database)
    (to_update : user_type) : result user_type :=
  if _is_add s then do_add s db to_update else do_alter s db to_update.

(** [renames::add_rename(previous_name, new_name)]. *)
Definition add_rename (previous_name new_name : bytes) (s : renames)
    : renames :=
  Renames (renames_name s) (_renames s ++ [(previous_name, new_name)]).

(** The loop of [renames::make_updated_type]:
<<
    for (auto&& rename : _renames) {
        auto&& from = rename.first;
        auto idx = to_update->idx_of_field(from->name());
        if (!idx) { throw exceptions::invalid_request_exception(...); }
        new_names[*idx] = rename.second->name();
    }
>> *)
Fixpoint rename_fields (to_update : user_type) (rs : list (bytes * bytes))
    (new_names : list bytes) : result (list bytes) :=
  match rs with
  | [] => Returned new_names
  | rename :: rest =>
      match idx_of_field to_update rename.1 with
      | None => Thrown (invalid_request_exception (unknown_field rename.1))
      | Some idx =>
          if decide (idx < length new_names)%nat then
            rename_fields to_update rest (<[idx := rename.2]> new_names)
          else Undefined
      end
  end.

(** [renames::make_updated_type(db, to_update)]. *)
Definition renames_make_updated_type (s : renames) (db : database)
    (to_update : user_type) : result user_type :=
  match rename_fields to_update (_renames s) (field_names to_update) with
  | Returned new_names =>
      let updated :=
        get_instance (type_keyspace to_update) (type_name to_update)
          new_names (field_types to_update) (is_multi_cell to_update) in
      match check_for_duplicate_names updated with
      | Some e => Thrown e
      | None => Returned updated
      end
  | Thrown e => Thrown e
  | Undefined => Undefined
  end.

(** The name a field called [n] has after the renames [rs]: the new name
    of the last rename of [n], and [n] when there is none. *)
Definition renamed (rs : list (bytes * bytes)) (n : bytes) : bytes :=
  foldl (fun acc rename => if decide (rename.1 = n) then rename.2 else acc)
    n rs.

(** ** The migration *)

(** [database::find_keyspace(name)], empty when it throws
    [no_such_keyspace]; of the keyspace found, the user type of a name in
    [metadata()->user_types().get_all_types()] and the schemas of
    [metadata()->cf_meta_data()] in the order the loop meets them. *)
Context {keyspace_type : Type}.
Variable find_keyspace : database -> string -> option keyspace_type.
Variable find_user_type : keyspace_type -> bytes -> option user_type.
Variable cf_meta_data : keyspace_type -> list schema.

(** [schema::partition_key_columns()], [schema::all_columns()],
    [schema::is_view()], and of a column its [type] and [name()]. *)
Variable partition_key_columns : schema -> list column_definition.
Variable all_columns : schema -> list column_definition.
Variable is_view : schema -> bool.
Variable column_type : column_definition -> data_type.
Variable column_name : column_definition -> bytes.

(** [schema_builder(schema)], [alter_column_type(name, type)] and
    [build()]. *)
Variable schema_builder_of : schema -> schema_builder.
Variable alter_column_type : schema_builder -> bytes -> data_type -> schema_builder.
Variable build : schema_builder -> schema.

(** What the migration manager is asked to announce. *)
Inductive announcement :=
| announce_type_update (updated : user_type)
| announce_view_update (view : schema)
| announce_column_family_update (cfm : schema).

(** What an announcement throws, if it throws. *)
Variable announcement_throws : announcement -> option exception.

(** A computation that announces: the announcements made so far are kept
    whatever the computation comes to. *)
Definition announcing (A : Type) : Type :=
  list announcement -> result A * list announcement.

Definition announce (a : announcement) : announcing unit :=
  fun made =>
    match announcement_throws a with
    | Some e => (Thrown e, made ++ [a])
    | None => (Returned tt, made ++ [a])
    end.

Definition and_then {A B} (m : announcing A) (k : A -> announcing B)
    : announcing B :=
  fun made =>
    match m made with
    | (Returned a, made') => k a made'
    | (Thrown e, made') => (Thrown e, made')
    | (Undefined, made') => (Undefined, made')
    end.

(** The inner loop of [do_announce_migration]: the builder with the
    columns that use the type altered, and whether there was any. *)
Definition update_columns (updated : user_type) (cfm : schema_builder)
    (columns : list column_definition) : schema_builder * bool :=
  foldl (fun acc column =>
           match update_user_type (column_type column) updated with
           | Some t => (alter_column_type acc.1 (column_name column) t, true)
           | None => acc
           end)
    (cfm, false) columns.

(** The second loop of [do_announce_migration]. *)
Fixpoint announce_schemas (updated : user_type) (schemas : list schema)
    : announcing unit :=
  match schemas with
  | [] => fun made => (Returned tt, made)
  | s :: rest =>
      let cfm_modified :=
        update_columns updated (schema_builder_of s) (all_columns s) in
      if cfm_modified.2 then
        and_then
          (if is_view s
           then announce (announce_view_update (build cfm_modified.1))
           else announce (announce_column_family_update (build cfm_modified.1)))
          (fun _ => announce_schemas updated rest)
      else announce_schemas updated rest
  end.

(** The first loop of [do_announce_migration]: whether some partition key
    column of some table refers to the type. *)
Definition used_in_partition_key (name : ut_name) (schemas : list schema)
    : bool :=
  existsb (fun s =>
             existsb (fun column =>
                        references_user_type (column_type column)
                          (get_keyspace name) (get_user_type_name name))
               (partition_key_columns s))
    schemas.

(** [do_announce_migration(db, mm)]; [make_updated_type] is the virtual
    member function of the statement. *)
Definition do_announce_migration
    (make_updated_type : database -> user_type -> result user_type)
    (name : ut_name) (db : database) : announcing unit :=
  fun made =>
    match find_keyspace db (keyspace name) with
    | None => (Thrown no_such_keyspace, made)
    | Some ks =>
        match find_user_type ks (get_user_type_name name) with
        | None => (Thrown (invalid_request_exception no_user_type_named), made)
        | Some to_update =>
            if used_in_partition_key name (cf_meta_data ks) then
              (Thrown (invalid_request_exception used_in_partition_key_column),
               made)
            else
              match make_updated_type db to_update with
              | Returned updated =>
                  and_then (announce (announce_type_update updated))
                    (fun _ => announce_schemas updated (cf_meta_data ks))
                    made
              | Thrown e => (Thrown e, made)
              | Undefined => (Undefined, made)
              end
        end
    end.

(** The event [announce_migration] returns: a schema change of kind
    UPDATED and target TYPE for the statement's keyspace and type. *)
Record schema_change := SchemaChange {
  change_keyspace : string;
  change_type_name : ut_name
}.

(** [announce_migration(qp)]: [no_such_keyspace] is caught and turned into
    an [invalid_request_exception]. *)
Definition announce_migration
    (make_updated_type : database -> user_type -> result user_type)
    (name : ut_name) (db : database) : announcing schema_change :=
  fun made =>
    match do_announce_migration make_updated_type name db made with
    | (Returned _, made') =>
        (Returned (SchemaChange (keyspace name) name), made')
    | (Thrown no_such_keyspace, made') =>
        (Thrown (invalid_request_exception unknown_keyspace), made')
    | (Thrown e, made') => (Thrown e, made')
    | (Undefined, made') => (Undefined, made')
    end.

(** A schema some column of which uses the type that is updated. *)
Definition uses_type (updated : user_type) (s : schema) : bool :=
  existsb (fun column =>
             match update_user_type (column_type column) updated with
             | Some _ => true
             | None => false
             end)
    (all_columns s).

(** The announcement made for a schema that uses the type. *)
Definition schema_announcement (updated : user_type) (s : schema)
    : announcement :=
  let cfm := (update_columns updated (schema_builder_of s) (all_columns s)).1 in
  if is_view s then announce_view_update (build cfm)
  else announce_column_family_update (build cfm).

(** ** Properties *)

Lemma renamed_snoc (rs : list (bytes * bytes)) (from to n : bytes) :
  renamed (rs ++ [(from, to)]) n
  = if decide (from = n) then to else renamed rs n.
Proof. unfold renamed. by rewrite foldl_app. Qed.

Lemma foldl_renamed (rs : list (bytes * bytes)) (n : bytes) : forall c,
  foldl (fun acc rename => if decide (rename.1 = n) then rename.2 else acc) c rs
  = match rs with
    | [] => c
    | r :: rest =>
        foldl (fun acc rename => if decide (rename.1 = n) then rename.2 else acc)
          (if decide (r.1 = n) then r.2 else c) rest
    end.
Proof. by destruct rs. Qed.

(** The loop of the renames, from any point on. *)
Lemma rename_fields_run (to_update : user_type) :
  (forall n i, idx_of_field to_update n = Some i ->
               field_names to_update !! i = Some n) ->
  NoDup (field_names to_update) ->
  forall (rs : list (bytes * bytes)) (cur res : list bytes),
    length cur = length (field_names to_update) ->
    rename_fields to_update rs cur = Returned res ->
    length res = length (field_names to_update)
    /\ forall i n c,
         field_names to_update !! i = Some n ->
         cur !! i = Some c ->
         res !! i
         = Some (foldl (fun acc rename =>
                          if decide (rename.1 = n) then rename.2 else acc)
                   c rs).
Proof.
  intros Hidx Hnd.
  induction rs as [|[from to] rs IH]; intros cur res Hlen Hrun.
  - cbn in Hrun. inversion Hrun; subst res. split; [done|].
    intros i n c _ Hc. done.
  - cbn [rename_fields fst snd] in Hrun.
    destruct (idx_of_field to_update from) as [idx|] eqn:Hfrom; [|done].
    destruct (decide (idx < length cur)%nat) as [Hlt|]; [|done].
    apply IH in Hrun as [Hres Hat]; [|by rewrite length_insert].
    split; [done|].
    intros i n c Hn Hc. cbn [foldl fst snd].
    pose proof (Hidx _ _ Hfrom) as Hfromat.
    destruct (decide (from = n)) as [->|Hne].
    + assert (i = idx) as -> by (eapply NoDup_lookup; eauto).
      apply (Hat idx n); [done|]. by rewrite list_lookup_insert_eq.
    + assert (i <> idx) by (intros ->; congruence).
      apply (Hat i n); [done|]. by rewrite list_lookup_insert_ne.
Qed.

Lemma rename_fields_refuses (to_update : user_type) :
  forall (rs : list (bytes * bytes)) (cur : list bytes) (e : exception),
    rename_fields to_update rs cur = Thrown e ->
    exists before from to after,
      rs = before ++ (from, to) :: after
      /\ e = invalid_request_exception (unknown_field from)
      /\ idx_of_field to_update from = None
      /\ Forall (fun rename => idx_of_field to_update rename.1 <> None) before.
Proof.
  induction rs as [|[from to] rs IH]; intros cur e Hrun; [done|].
  cbn [rename_fields fst snd] in Hrun.
  destruct (idx_of_field to_update from) as [idx|] eqn:Hfrom.
  - destruct (decide (idx < length cur)%nat); [|done].
    apply IH in Hrun as (before & from' & to' & after & -> & -> & Hnone & Hall).
    exists ((from, to) :: before), from', to', after.
    split; [done|]. split; [done|]. split; [done|].
    constructor; [cbn; congruence|done].
  - inversion Hrun; subst e.
    exists [], from, to, rs. by repeat split.
Qed.

Lemma update_columns_modified (updated : user_type) (columns : list column_definition) :
  forall (cfm : schema_builder) (modified : bool),
    (foldl (fun acc column =>
              match update_user_type (column_type column) updated with
              | Some t => (alter_column_type acc.1 (column_name column) t, true)
              | None => acc
              end)
       (cfm, modified) columns).2
    = modified
      || existsb (fun column =>
                    match update_user_type (column_type column) updated with
                    | Some _ => true
                    | None => false
                    end) columns.
Proof.
  induction columns as [|column columns IH]; intros cfm modified.
  - cbn. by rewrite orb_false_r.
  - cbn [foldl existsb].
    destruct (update_user_type (column_type column) updated) as [t|].
    + rewrite IH. cbn. by rewrite orb_true_r.
    + by rewrite IH.
Qed.

Lemma announce_schemas_run (updated : user_type) (schemas : list schema) :
  forall made,
    exists done_,
      (announce_schemas updated schemas made).2
      = made ++ map (schema_announcement updated) done_
      /\ done_ `prefix_of` List.filter (uses_type updated) schemas
      /\ match (announce_schemas updated schemas made).1 with
         | Returned _ => done_ = List.filter (uses_type updated) schemas
         | Thrown e =>
             exists s, last done_ = Some s
                       /\ announcement_throws (schema_announcement updated s)
                          = Some e
         | Undefined => False
         end.
Proof.
  induction schemas as [|s schemas IH]; intros made.
  - exists []. cbn. by rewrite app_nil_r.
  - cbn [announce_schemas List.filter].
    assert (Huses :
      (update_columns updated (schema_builder_of s) (all_columns s)).2
      = uses_type updated s).
    { unfold update_columns, uses_type. by rewrite update_columns_modified. }
    rewrite Huses. destruct (uses_type updated s) eqn:Hu; [|apply IH].
    assert (Hann :
      (if is_view s
       then announce (announce_view_update
                        (build (update_columns updated (schema_builder_of s)
                                  (all_columns s)).1))
       else announce (announce_column_family_update
                        (build (update_columns updated (schema_builder_of s)
                                  (all_columns s)).1)))
      = announce (schema_announcement updated s)).
    { unfold schema_announcement. by destruct (is_view s). }
    rewrite Hann. unfold and_then, announce.
    destruct (announcement_throws (schema_announcement updated s)) as [e|] eqn:He.
    + exists [s]. cbn. split; [done|].
      split; [by apply prefix_cons, prefix_nil|]. by exists s.
    + destruct (IH (made ++ [schema_announcement updated s]))
        as (done_ & Hlog & Hpre & Hres).
      exists (s :: done_). rewrite Hlog. cbn [map].
      split; [by rewrite <- app_assoc|].
      split; [by apply prefix_cons|].
      destruct ((announce_schemas updated schemas
                   (made ++ [schema_announcement updated s])).1).
      * by rewrite Hres.
      * destruct Hres as (s' & Hlast & Hthrow). exists s'.
        split; [|done]. destruct done_; [done|]. done.
      * done.
Qed.

(** X12. [do_add] returns a type exactly when the type has no field of
    that name yet, does not already have [max_udt_fields] fields, and the
    prepared field type does not refer back to the type; the returned type
    is the old one with the new field appended: every old field keeps its
    place, name and type, and the field names stay pairwise different,
    names and types stay equally many and the number of fields stays
    within [max_udt_fields] if they were so before. *)
Theorem do_add_appends_a_new_field :
  forall (s : add_or_alter) (db : database) (to_update : user_type),
    (forall t n, idx_of_field t n = None -> n ∉ field_names t) ->
    (forall t, size t = length (field_types t)) ->
    (forall updated,
       do_add s db to_update = Returned updated <->
       idx_of_field to_update (_field_name s) = None
       /\ size to_update <> max_udt_fields
       /\ exists add_type,
            prepare (_field_type s) db (keyspace (_name s)) = inr add_type
            /\ references_user_type add_type (type_keyspace to_update)
                 (type_name to_update) = false
            /\ updated
               = get_instance (type_keyspace to_update) (type_name to_update)
                   (field_names to_update ++ [_field_name s])
                   (field_types to_update ++ [add_type])
                   (is_multi_cell to_update))
    /\ (forall updated,
          do_add s db to_update = Returned updated ->
          (forall i, (i < length (field_names to_update))%nat ->
                     field_names updated !! i = field_names to_update !! i)
          /\ (forall i, (i < length (field_types to_update))%nat ->
                        field_types updated !! i = field_types to_update !! i)
          /\ (NoDup (field_names to_update) -> NoDup (field_names updated))
          /\ (length (field_names to_update) = length (field_types to_update) ->
              length (field_names updated) = length (field_types updated))
          /\ ((size to_update <= max_udt_fields)%nat ->
              (size updated <= max_udt_fields)%nat))
    /\ do_add s db to_update <> Undefined.
Proof.
  intros s db to_update Hnone Hsize.
  assert (Hiff : forall updated,
    do_add s db to_update = Returned updated <->
    idx_of_field to_update (_field_name s) = None
    /\ size to_update <> max_udt_fields
    /\ exists add_type,
         prepare (_field_type s) db (keyspace (_name s)) = inr add_type
         /\ references_user_type add_type (type_keyspace to_update)
              (type_name to_update) = false
         /\ updated
            = get_instance (type_keyspace to_update) (type_name to_update)
                (field_names to_update ++ [_field_name s])
                (field_types to_update ++ [add_type])
                (is_multi_cell to_update)).
  { intros updated. unfold do_add.
    destruct (idx_of_field to_update (_field_name s)) as [i|];
      [split; [done|by intros [? _]]|].
    destruct (Nat.eqb_spec (size to_update) max_udt_fields) as [Heq|Hne];
      [split; [done|by intros (_ & ? & _)]|].
    destruct (prepare (_field_type s) db (keyspace (_name s))) as [e|add_type];
      [split; [done|by intros (_ & _ & ? & ? & _)]|].
    destruct (references_user_type add_type (type_keyspace to_update)
                (type_name to_update)) eqn:Href.
    - split; [done|]. intros (_ & _ & t & [= <-] & ? & _). congruence.
    - split.
      + intros [= <-]. repeat split; [done|]. by exists add_type.
      + intros (_ & _ & t & [= <-] & _ & ->). done. }
  split; [exact Hiff|]. split.
  - intros updated Hrun.
    apply Hiff in Hrun as (Hidx & Hmax & add_type & _ & _ & ->). cbn.
    split; [intros i Hi; by rewrite lookup_app_l|].
    split; [intros i Hi; by rewrite lookup_app_l|].
    split.
    { intros Hnd. apply NoDup_app. split; [done|].
      split; [|apply NoDup_singleton].
      intros x Hx Hx'. apply list_elem_of_singleton in Hx'. subst x.
      by apply (Hnone to_update (_field_name s)). }
    split; [rewrite !length_app; cbn; lia|].
    rewrite !Hsize in *. cbn. rewrite length_app. cbn. lia.
  - unfold do_add.
    destruct (idx_of_field to_update (_field_name s)); [done|].
    destruct (Nat.eqb (size to_update) max_udt_fields); [done|].
    destruct (prepare (_field_type s) db (keyspace (_name s))) as [e|t]; [done|].
    by destruct (references_user_type t _ _).
Qed.

(** X13. [do_alter] returns a type exactly when the type has a field of
    that name and the prepared type is compatible with the field's
    previous type; the returned type has the new type at the place of that
    field and is otherwise the old one: the names, the number of fields
    and the types of all other fields are the same.  A type whose names
    and types are equally many is never indexed past its end. *)
Theorem do_alter_changes_one_field_type :
  forall (s : add_or_alter) (db : database) (to_update : user_type),
    (forall t n i, idx_of_field t n = Some i -> field_names t !! i = Some n) ->
    length (field_names to_update) = length (field_types to_update) ->
    (forall updated,
       do_alter s db to_update = Returned updated <->
       exists idx previous new_type,
         idx_of_field to_update (_field_name s) = Some idx
         /\ field_types to_update !! idx = Some previous
         /\ prepare (_field_type s) db (keyspace (_name s)) = inr new_type
         /\ is_compatible_with new_type previous = true
         /\ updated
            = get_instance (type_keyspace to_update) (type_name to_update)
                (field_names to_update)
                (<[idx := new_type]> (field_types to_update))
                (is_multi_cell to_update))
    /\ (forall updated,
          do_alter s db to_update = Returned updated ->
          exists idx new_type,
            field_names to_update !! idx = Some (_field_name s)
            /\ field_names updated = field_names to_update
            /\ field_types updated !! idx = Some new_type
            /\ prepare (_field_type s) db (keyspace (_name s)) = inr new_type
            /\ (forall j, j <> idx ->
                  field_types updated !! j = field_types to_update !! j)
            /\ length (field_types updated) = length (field_types to_update))
    /\ do_alter s db to_update <> Undefined
    /\ (idx_of_field to_update (_field_name s) = None ->
        do_alter s db to_update
        = Thrown (invalid_request_exception (unknown_field (_field_name s)))).
Proof.
  intros s db to_update Hidx Hlen.
  assert (Hiff : forall updated,
    do_alter s db to_update = Returned updated <->
    exists idx previous new_type,
      idx_of_field to_update (_field_name s) = Some idx
      /\ field_types to_update !! idx = Some previous
      /\ prepare (_field_type s) db (keyspace (_name s)) = inr new_type
      /\ is_compatible_with new_type previous = true
      /\ updated
         = get_instance (type_keyspace to_update) (type_name to_update)
             (field_names to_update)
             (<[idx := new_type]> (field_types to_update))
             (is_multi_cell to_update)).
  { intros updated. unfold do_alter.
    destruct (idx_of_field to_update (_field_name s)) as [idx|];
      [|split; [done|by intros (? & ? & ? & ? & _)]].
    destruct (field_types to_update !! idx) as [previous|] eqn:Hprev;
      [|split; [done|intros (? & ? & ? & [= <-] & ? & _); congruence]].
    destruct (prepare (_field_type s) db (keyspace (_name s))) as [e|new_type];
      [split; [done|by intros (? & ? & ? & _ & _ & ? & _)]|].
    destruct (is_compatible_with new_type previous) eqn:Hc; cbn.
    - split.
      + intros [= <-]. by exists idx, previous, new_type.
      + intros (? & ? & ? & [= <-] & Hp & [= <-] & _ & ->). done.
    - split; [done|].
      intros (? & ? & ? & [= <-] & Hp & [= <-] & ? & _).
      rewrite Hprev in Hp. inversion Hp; subst. congruence. }
  split; [exact Hiff|]. split; [|split].
  - intros updated Hrun.
    apply Hiff in Hrun as (idx & previous & new_type & Hi & Hp & Hprep & _ & ->).
    exists idx, new_type. cbn.
    split; [by apply Hidx|]. split; [done|].
    split; [apply list_lookup_insert_eq; by eapply lookup_lt_Some|].
    split; [done|].
    split; [intros j Hj; by rewrite list_lookup_insert_ne|].
    by rewrite length_insert.
  - unfold do_alter.
    destruct (idx_of_field to_update (_field_name s)) as [idx|] eqn:Hi; [|done].
    apply Hidx, lookup_lt_Some in Hi. rewrite Hlen in Hi.
    apply lookup_lt_is_Some in Hi as [previous ->].
    destruct (prepare (_field_type s) db (keyspace (_name s))) as [e|new_type];
      [done|].
    by destruct (is_compatible_with new_type previous).
  - intros Hnone. unfold do_alter. by rewrite Hnone.
Qed.

Lemma rename_fields_defined (to_update : user_type) :
  (forall n i, idx_of_field to_update n = Some i ->
               field_names to_update !! i = Some n) ->
  forall (rs : list (bytes * bytes)) (cur : list bytes),
    length cur = length (field_names to_update) ->
    rename_fields to_update rs cur <> Undefined.
Proof.
  intros Hidx. induction rs as [|[from to] rs IH]; intros cur Hlen; [done|].
  cbn [rename_fields fst snd].
  destruct (idx_of_field to_update from) as [idx|] eqn:Hfrom; [|done].
  apply Hidx, lookup_lt_Some in Hfrom. rewrite <- Hlen in Hfrom.
  destruct (decide (idx < length cur)%nat); [|done].
  apply IH. by rewrite length_insert.
Qed.

(** X14. Every rename of [renames::make_updated_type] is looked up among
    the names the type had before the statement, not among the names as
    renamed so far: the returned type has, place by place, each old name
    replaced by the new name of its last rename, and the same types; the
    statement is refused with the first rename whose old name the type
    does not have, or by the check for duplicate names; and a type with
    pairwise different names is never indexed past its end. *)
Theorem renames_are_looked_up_in_the_old_names :
  forall (s : renames) (db : database) (to_update : user_type),
    (forall n i, idx_of_field to_update n = Some i ->
                 field_names to_update !! i = Some n) ->
    NoDup (field_names to_update) ->
    let renamed_type :=
      get_instance (type_keyspace to_update) (type_name to_update)
        (map (renamed (_renames s)) (field_names to_update))
        (field_types to_update) (is_multi_cell to_update) in
    (forall updated,
       renames_make_updated_type s db to_update = Returned updated ->
       updated = renamed_type /\ check_for_duplicate_names updated = None)
    /\ (forall e,
          renames_make_updated_type s db to_update = Thrown e ->
          (exists before from to after,
             _renames s = before ++ (from, to) :: after
             /\ e = invalid_request_exception (unknown_field from)
             /\ idx_of_field to_update from = None
             /\ Forall (fun rename => idx_of_field to_update rename.1 <> None)
                  before)
          \/ check_for_duplicate_names renamed_type = Some e)
    /\ renames_make_updated_type s db to_update <> Undefined.
Proof.
  intros s db to_update Hidx Hnd renamed_type.
  assert (Hnames : forall res,
    rename_fields to_update (_renames s) (field_names to_update) = Returned res ->
    res = map (renamed (_renames s)) (field_names to_update)).
  { intros res Hrun.
    destruct (rename_fields_run to_update Hidx Hnd _ _ _ eq_refl Hrun)
      as [Hlen Hat].
    apply list_eq. intros i.
    change (map ?f ?l) with (f <$> l). rewrite list_lookup_fmap.
    destruct (field_names to_update !! i) as [n|] eqn:Hn.
    - by rewrite (Hat i n n Hn Hn).
    - cbn. apply lookup_ge_None. rewrite Hlen. by apply lookup_ge_None. }
  unfold renames_make_updated_type.
  destruct (rename_fields to_update (_renames s) (field_names to_update))
    as [res|e'|] eqn:Hrun.
  - rewrite (Hnames res eq_refl). fold renamed_type.
    destruct (check_for_duplicate_names renamed_type) as [e'|] eqn:Hdup.
    + split; [done|]. split; [|done]. intros e [= <-]. by right.
    + split; [|done]. by intros updated [= <-].
  - split; [done|]. split; [|done]. intros e [= <-]. left.
    by apply (rename_fields_refuses to_update _ _ _ Hrun).
  - by destruct (rename_fields_defined to_update Hidx (_renames s)
                   (field_names to_update) eq_refl).
Qed.

(** X15. [announce_migration] announces nothing before the statement has
    been validated: whatever it comes to, either nothing was announced, or
    the keyspace and the type were found, no partition key column uses the
    type, the updated type was built, the type update was announced first
    and after it, in the order of the tables, updates of tables of which
    some column uses the type and of no other table.  When it returns, the
    update of every such table has been announced; and it never throws
    [no_such_keyspace]. *)
Theorem announce_migration_validates_before_it_announces :
  forall (make_updated_type : database -> user_type -> result user_type)
         (name : ut_name) (db : database),
    let out := announce_migration make_updated_type name db [] in
    out.1 <> Thrown no_such_keyspace
    /\ (out.2 = []
        \/ exists ks to_update updated done_,
             find_keyspace db (keyspace name) = Some ks
             /\ find_user_type ks (get_user_type_name name) = Some to_update
             /\ used_in_partition_key name (cf_meta_data ks) = false
             /\ make_updated_type db to_update = Returned updated
             /\ out.2 = announce_type_update updated
                          :: map (schema_announcement updated) done_
             /\ done_ `prefix_of`
                  List.filter (uses_type updated) (cf_meta_data ks)
             /\ forall event,
                  out.1 = Returned event ->
                  done_ = List.filter (uses_type updated) (cf_meta_data ks)
                  /\ event = SchemaChange (keyspace name) name).
Proof.
  intros make_updated_type name db out. subst out.
  unfold announce_migration, do_announce_migration.
  destruct (find_keyspace db (keyspace name)) as [ks|] eqn:Hks;
    [|by split; [|left]].
  destruct (find_user_type ks (get_user_type_name name)) as [to_update|] eqn:Hty;
    [|by split; [|left]].
  destruct (used_in_partition_key name (cf_meta_data ks)) eqn:Hpk;
    [by split; [|left]|].
  destruct (make_updated_type db to_update) as [updated|e|] eqn:Hmk;
    [|destruct e; by split; [|left]|by split; [|left]].
  unfold and_then, announce. cbn [app].
  destruct (announcement_throws (announce_type_update updated)) as [e|] eqn:He.
  - destruct e; (split; [done|]; right; exists ks, to_update, updated, [];
      repeat split; try done; apply prefix_nil).
  - destruct (announce_schemas_run updated (cf_meta_data ks)
                [announce_type_update updated]) as (done_ & Hlog & Hpre & Hres).
    destruct (announce_schemas updated (cf_meta_data ks)
                [announce_type_update updated]) as [[u|e|] made] eqn:Hrun;
      cbn [fst snd] in *; [| |done].
    + split; [done|]. right. exists ks, to_update, updated, done_.
      repeat split; try done. congruence.
    + destruct e; (split; [done|]; right;
        exists ks, to_update, updated, done_; repeat split; done).
Qed.

End AlterType.

Arguments Returned {external_exception A} a.
Arguments Thrown {external_exception A} e.
Arguments Undefined {external_exception A}.

(** ** Concrete runs *)

(** Types are numbered; a user type is looked up by name in its list of
    field names, as [idx_of_field] does. *)
Definition example_idx_of_field (t : @user_type nat) (n : bytes) : option nat :=
  fst <$> list_find (fun x => x = n) (field_names t).

Definition example_size (t : @user_type nat) : nat := length (field_types t).

Definition example_prepare (raw : nat) (db : unit) (ks : string)
    : @exception unit + nat :=
  inr raw.

Definition example_check_for_duplicate_names (t : @user_type nat)
    : option (@exception unit) :=
  if decide (NoDup (field_names t)) then None
  else Some (thrown_by_collaborator tt).

(** The type [address] with the fields [street] and [city], both of
    type 1. *)
Definition example_address : @user_type nat :=
  get_instance "ks" "address" ["street"; "city"]%string [1; 1]%nat true.

Lemma example_idx_of_field_some (t : @user_type nat) (n : bytes) (i : nat) :
  example_idx_of_field t n = Some i -> field_names t !! i = Some n.
Proof.
  unfold example_idx_of_field. intros Hfind.
  destruct (list_find (fun x => x = n) (field_names t)) as [[j x]|] eqn:Hf;
    [|done].
  cbn in Hfind. inversion Hfind; subst j.
  apply list_find_Some in Hf as (Hx & -> & _). done.
Qed.

Lemma example_idx_of_field_none (t : @user_type nat) (n : bytes) :
  example_idx_of_field t n = None -> n ∉ field_names t.
Proof.
  unfold example_idx_of_field. intros Hfind.
  destruct (list_find (fun x => x = n) (field_names t)) as [[j x]|] eqn:Hf;
    [done|].
  apply list_find_None in Hf. rewrite Forall_forall in Hf.
  intros Hin. by apply (Hf n).
Qed.

Lemma do_add_appends_a_new_field_witness :
  do_add example_idx_of_field example_size 8 (fun _ _ _ => false)
    example_prepare id (AddOrAlter "ks"%string true "zip"%string 2%nat) tt
    example_address
  = Returned
      (get_instance "ks" "address" ["street"; "city"; "zip"]%string
         [1; 1; 2]%nat true).
Proof.
  destruct (do_add_appends_a_new_field example_idx_of_field example_size 8
              (fun _ _ _ => false) example_prepare id
              (AddOrAlter "ks"%string true "zip"%string 2%nat) tt
              example_address example_idx_of_field_none
              (fun t => eq_refl)) as (Hiff & _).
  apply Hiff. split; [reflexivity|]. split; [cbn; lia|].
  exists 2%nat. repeat split.
Defined.

Lemma do_alter_changes_one_field_type_witness :
  do_alter example_idx_of_field (fun new previous => Nat.leb previous new)
    example_prepare id (AddOrAlter "ks"%string false "city"%string 3%nat) tt
    example_address
  = Returned
      (get_instance "ks" "address" ["street"; "city"]%string [1; 3]%nat true).
Proof.
  destruct (do_alter_changes_one_field_type example_idx_of_field
              (fun new previous => Nat.leb previous new)
              example_prepare id
              (AddOrAlter "ks"%string false "city"%string 3%nat) tt
              example_address example_idx_of_field_some eq_refl)
    as (Hiff & _).
  apply Hiff. exists 1%nat, 1%nat, 3%nat. repeat split.
Defined.

(** Two renames that swap the names of the two fields. *)
Lemma renames_are_looked_up_in_the_old_names_witness :
  renames_make_updated_type example_idx_of_field
    example_check_for_duplicate_names
    (Renames "ks"%string
       [("street", "city"); ("city", "street")]%string) tt
    example_address
  = Returned
      (get_instance "ks" "address" ["city"; "street"]%string [1; 1]%nat true).
Proof.
  destruct (renames_are_looked_up_in_the_old_names example_idx_of_field
              example_check_for_duplicate_names
              (Renames "ks"%string
                 [("street", "city"); ("city", "street")]%string) tt
              example_address
              (example_idx_of_field_some example_address)
              ltac:(apply (bool_decide_unpack _); vm_compute; exact I))
    as (Hret & Hthrown & Hdef).
  destruct (renames_make_updated_type example_idx_of_field
              example_check_for_duplicate_names
              (Renames "ks"%string
                 [("street", "city"); ("city", "street")]%string) tt
              example_address) as [updated|e|] eqn:Hrun.
  - destruct (Hret updated eq_refl) as [-> _]. reflexivity.
  - vm_compute in Hrun. discriminate.
  - by destruct Hdef.
Defined.

(** A rename of a name that only an earlier rename of the same statement
    introduces is refused: [road] is not a field of [address]. *)
Example example_rename_of_a_new_name_is_refused :
  renames_make_updated_type example_idx_of_field
    example_check_for_duplicate_names
    (Renames "ks"%string [("street", "road"); ("road", "way")]%string) tt
    example_address
  = Thrown (invalid_request_exception (unknown_field "road")).
Proof. reflexivity. Qed.

End alter_type_statement.

(* ===================================================================== *)
(** * main.cc: the checks made at start-up and the signal handlers *)
(* ===================================================================== *)

Module scylla_main.

(** [startlog.warn], [startlog.error] and [startlog.info]. *)
Inductive log_level := log_warn | log_error | log_info.

(** What the functions below throw. *)
Inductive exception :=
| system_error
| runtime_error (what : string).

(** The messages the functions below log, without their wording. *)
Inductive message :=
| adjusting_nofile_failed
| nofile_too_low_may_run_out
| nofile_too_low_refusing
| io_scheduler_none_set (with_developer_mode_hint : bool)
| io_scheduler_capacity_too_low (capacity : Z) (with_developer_mode_hint : bool)
| memory_per_shard_continuing (mib : Z)
| memory_per_shard_terminating (mib : Z).

Definition log := list (log_level * message).

(** ** [adjust_and_verify_rlimit] *)

(** [struct rlimit]; [rlim_t] is an unsigned 64-bit integer. *)
Record rlimit := Rlimit {
  rlim_cur : Z;
  rlim_max : Z
}.

(** What a call leaves behind: what it threw, if it threw, the
    [RLIMIT_NOFILE] of the process and what it logged. *)
Record rlimit_outcome := RlimitOutcome {
  rlimit_thrown : option exception;
  nofile : rlimit;
  rlimit_logged : log
}.

(** [adjust_and_verify_rlimit(developer_mode)] in a process whose
    [RLIMIT_NOFILE] is [os]; the two flags say whether [getrlimit] and
    [setrlimit] return -1.
<<
    struct rlimit lim;
    int r = getrlimit(RLIMIT_NOFILE, &lim);
    if (r == -1) { throw std::system_error(errno, std::system_category()); }
    if (lim.rlim_cur < lim.rlim_max) {
        lim.rlim_cur = lim.rlim_max;
        r = setrlimit(RLIMIT_NOFILE, &lim);
        if (r == -1) { startlog.warn(...); }
    }
    auto recommended = 200'000U;
    auto min = 10'000U;
    if (lim.rlim_cur < min) {
        if (developer_mode) { startlog.warn(...); }
        else { startlog.error(...); throw std::runtime_error("NOFILE rlimit too low"); }
    }
>> *)
Definition adjust_and_verify_rlimit (developer_mode : bool) (os : rlimit)
    (getrlimit_fails setrlimit_fails : bool) : rlimit_outcome :=
  if getrlimit_fails then RlimitOutcome (Some system_error) os []
  else
    let lim := os in
    let raised :=
      if rlim_cur lim <? rlim_max lim then
        let lim := Rlimit (rlim_max lim) (rlim_max lim) in
        if setrlimit_fails
        then (lim, os, [(log_warn, adjusting_nofile_failed)])
        else (lim, lim, [])
      else (lim, os, []) in
    let lim := raised.1.1 in
    let os := raised.1.2 in
    let logged := raised.2 in
    let min := 10000 in
    if rlim_cur lim <? min then
      if developer_mode then
        RlimitOutcome None os (logged ++ [(log_warn, nofile_too_low_may_run_out)])
      else
        RlimitOutcome (Some (runtime_error "NOFILE rlimit too low")) os
          (logged ++ [(log_error, nofile_too_low_refusing)])
    else RlimitOutcome None os logged.

(** ** [verify_seastar_io_scheduler] *)

(** The three options the function looks at: the value of
    [max-io-requests] if it is set, and whether [io-properties] and
    [io-properties-file] are set. *)
Record io_options := IoOptions {
  max_io_requests : option Z;
  io_properties : bool;
  io_properties_file : bool
}.

Inductive io_cause :=
| none_set
| capacity_too_low (capacity : Z).

Definition io_message (cause : io_cause) (hint : bool) : message :=
  match cause with
  | none_set => io_scheduler_none_set hint
  | capacity_too_low n => io_scheduler_capacity_too_low n hint
  end.

(** The lambda [note_bad_conf]: a warning in developer mode, an error and
    an exception otherwise. *)
Definition note_bad_conf (developer_mode : bool) (cause : io_cause)
    : option exception * log :=
  if developer_mode then (None, [(log_warn, io_message cause false)])
  else (Some (runtime_error "Bad I/O Scheduler configuration"),
        [(log_error, io_message cause true)]).

(** [verify_seastar_io_scheduler(opts, developer_mode)].
<<
    if (!opts.contains("max-io-requests")
        && !(opts.contains("io-properties") || opts.contains("io-properties-file"))) {
        note_bad_conf("none of ... are set.");
    }
    if (opts.contains("max-io-requests") && opts["max-io-requests"].as<unsigned>() < 4) {
        note_bad_conf(cause);
    }
>> *)
Definition verify_seastar_io_scheduler (opts : io_options)
    (developer_mode : bool) : option exception * log :=
  let first :=
    if match max_io_requests opts with Some _ => false | None => true end
       && negb (io_properties opts || io_properties_file opts)
    then note_bad_conf developer_mode none_set
    else (None, []) in
  match first.1 with
  | Some e => first
  | None =>
      match max_io_requests opts with
      | Some n =>
          if n <? 4 then
            let second := note_bad_conf developer_mode (capacity_too_low n) in
            (second.1, first.2 ++ second.2)
          else first
      | None => first
      end
  end.

(** ** [verify_adequate_memory_per_shard] *)

(** [verify_adequate_memory_per_shard(developer_mode)] on a shard with
    [shard_mem] bytes ([memory::stats().total_memory()]). *)
Definition verify_adequate_memory_per_shard (developer_mode : bool)
    (shard_mem : Z) : option exception * log :=
  if Z.shiftl 1 30 <=? shard_mem then (None, [])
  else if developer_mode then
    (None, [(log_warn, memory_per_shard_continuing (Z.shiftr shard_mem 20))])
  else
    (Some (runtime_error "configuration (memory per shard too low)"),
     [(log_error, memory_per_shard_terminating (Z.shiftr shard_mem 20))]).

(** The three checks as [main] runs them, one after the other; a check
    that throws ends the start-up.
<<
    adjust_and_verify_rlimit(cfg->developer_mode());
    verify_adequate_memory_per_shard(cfg->developer_mode());
    verify_seastar_io_scheduler(opts, cfg->developer_mode());
>> *)
Definition startup_checks (developer_mode : bool) (os : rlimit)
    (getrlimit_fails setrlimit_fails : bool) (shard_mem : Z)
    (opts : io_options) : option exception * log :=
  let limits :=
    adjust_and_verify_rlimit developer_mode os getrlimit_fails
      setrlimit_fails in
  match rlimit_thrown limits with
  | Some e => (Some e, rlimit_logged limits)
  | None =>
      let memory := verify_adequate_memory_per_shard developer_mode shard_mem in
      match memory.1 with
      | Some e => (Some e, rlimit_logged limits ++ memory.2)
      | None =>
          let io := verify_seastar_io_scheduler opts developer_mode in
          (io.1, rlimit_logged limits ++ memory.2 ++ io.2)
      end
  end.

(** ** [class stop_signal] *)

(** Of the members, [_caught]; of the effects, how many times
    [_cond.broadcast()] has run and how many times a
    [request_abort] of all abort sources has been queued. *)
Record stop_signal := StopSignal {
  _caught : bool;
  cond_broadcasts : nat;
  abort_requests : nat
}.

(** The constructor; it makes SIGINT and SIGTERM call [signaled()]. *)
Definition stop_signal_new : stop_signal := StopSignal false 0 0.

(** [signaled()]. *)
Definition signaled (s : stop_signal) : stop_signal :=
  if _caught s then s
  else StopSignal true (S (cond_broadcasts s)) (S (abort_requests s)).

Definition stopping (s : stop_signal) : bool := _caught s.

(** [wait()] is over once [_caught] holds. *)
Definition wait_is_over (s : stop_signal) : bool := _caught s.

Inductive signal := SIGINT | SIGTERM.

(** The signals that arrive while the object lives. *)
Definition deliver (signals : list signal) (s : stop_signal) : stop_signal :=
  foldl (fun acc _ => signaled acc) s signals.

(** ** [class sighup_handler] *)

(** Where the work loop of [do_work()] stands: in [_cond.wait], in the
    middle of re-reading the configuration (its [get()] calls let other
    tasks and signal handlers run), or over. *)
Inductive loop_phase := waiting | reading | finished.

(** The members [_pending] and [_stopping], the work loop, and how many
    times the loop has begun to re-read the configuration. *)
Record sighup_handler := SighupHandler {
  _pending : bool;
  _stopping : bool;
  phase : loop_phase;
  rereads_begun : nat
}.

(** The object as constructed: the loop has been launched and waits. *)
Definition sighup_handler_new : sighup_handler :=
  SighupHandler false false waiting 0.

(** [reread_config()], what SIGHUP calls. *)
Definition reread_config (h : sighup_handler) : sighup_handler :=
  if _stopping h then h
  else SighupHandler true (_stopping h) (phase h) (rereads_begun h).

(** [stop()]: [_pending = false; _stopping = true; _cond.broadcast();]. *)
Definition stop (h : sighup_handler) : sighup_handler :=
  SighupHandler false true (phase h) (rereads_begun h).

(** One turn of the loop, when it waits and the wait's condition
    [_pending || _stopping] holds:
<<
    if (_stopping) { return stop_iteration::yes; }
    else if (_pending) { _pending = false; ... read_config ... }
    return stop_iteration::no;
>> *)
Definition loop_turn (h : sighup_handler) : sighup_handler :=
  match phase h with
  | waiting =>
      if _pending h || _stopping h then
        if _stopping h then
          SighupHandler (_pending h) (_stopping h) finished (rereads_begun h)
        else if _pending h then
          SighupHandler false (_stopping h) reading (S (rereads_begun h))
        else h
      else h
  | _ => h
  end.

(** The re-reading comes to its end, well or badly, and the loop waits
    again. *)
Definition reread_ends (h : sighup_handler) : sighup_handler :=
  match phase h with
  | reading =>
      SighupHandler (_pending h) (_stopping h) waiting (rereads_begun h)
  | _ => h
  end.

Inductive event := ev_sighup | ev_stop | ev_loop_turn | ev_reread_ends.

Definition handle (e : event) (h : sighup_handler) : sighup_handler :=
  match e with
  | ev_sighup => reread_config h
  | ev_stop => stop h
  | ev_loop_turn => loop_turn h
  | ev_reread_ends => reread_ends h
  end.

Definition handle_all (es : list event) (h : sighup_handler)
    : sighup_handler :=
  foldl (fun acc e => handle e acc) h es.

(** ** Properties *)

(** X16. [adjust_and_verify_rlimit] never lowers the soft limit and never
    touches the hard limit.  It refuses to start, outside developer mode,
    exactly when the larger of the two limits is below 10000: the limit it
    checks is the one it asked for, whether or not [setrlimit] granted it,
    so that with a soft limit below 10000, a hard limit of at least 10000
    and a failing [setrlimit] it logs the failure and lets the process go
    on with the low soft limit. *)
Theorem adjust_and_verify_rlimit_checks_the_limit_it_asked_for :
  forall (developer_mode : bool) (os : rlimit)
         (getrlimit_fails setrlimit_fails : bool),
    let out :=
      adjust_and_verify_rlimit developer_mode os getrlimit_fails
        setrlimit_fails in
    rlim_cur os <= rlim_cur (nofile out)
    /\ rlim_max (nofile out) = rlim_max os
    /\ (rlimit_thrown out = Some (runtime_error "NOFILE rlimit too low") <->
        getrlimit_fails = false /\ developer_mode = false
        /\ Z.max (rlim_cur os) (rlim_max os) < 10000)
    /\ (rlimit_thrown out = Some system_error <-> getrlimit_fails = true)
    /\ (getrlimit_fails = false -> setrlimit_fails = true ->
        rlim_cur os < 10000 <= rlim_max os ->
        rlimit_thrown out = None
        /\ nofile out = os
        /\ rlimit_logged out = [(log_warn, adjusting_nofile_failed)])
    /\ (getrlimit_fails = false -> setrlimit_fails = false ->
        nofile out = Rlimit (Z.max (rlim_cur os) (rlim_max os)) (rlim_max os)).
Proof.
  intros dev [cur mx] gf sf out. subst out.
  unfold adjust_and_verify_rlimit. cbn [rlim_cur rlim_max].
  destruct gf.
  { cbn. repeat split; try lia; try done; intros; destruct_and?; try done. }
  destruct (Z.ltb_spec cur mx) as [Hlt|Hge]; destruct sf; cbn [fst snd];
    cbn [rlim_cur rlim_max];
    match goal with |- context [?a <? 10000] =>
      destruct (Z.ltb_spec a 10000) as [Hm|Hm] end;
    destruct dev; cbn;
    repeat split; intros; destruct_and?; try lia; try done;
    try (f_equal; lia).
  all: try (rewrite Z.max_r by lia; lia).
  all: try (rewrite Z.max_l by lia; lia).
Qed.

(** X17. Outside developer mode [verify_seastar_io_scheduler] accepts the
    options exactly when [max-io-requests] is set to at least 4, or is not
    set while one of [io-properties] and [io-properties-file] is; it logs
    something exactly when it does not accept, and never more than one
    message, in either mode. *)
Theorem verify_seastar_io_scheduler_accepts :
  forall (opts : io_options) (developer_mode : bool),
    let out := verify_seastar_io_scheduler opts developer_mode in
    let fine :=
      match max_io_requests opts with
      | Some n => 4 <= n
      | None => io_properties opts = true \/ io_properties_file opts = true
      end in
    (out.2 = [] <-> fine)
    /\ (length out.2 <= 1)%nat
    /\ (out.1 = None <-> developer_mode = true \/ fine)
    /\ (forall e, out.1 = Some e ->
          e = runtime_error "Bad I/O Scheduler configuration").
Proof.
  intros [[n|] props file] dev out fine; subst out fine;
    unfold verify_seastar_io_scheduler, note_bad_conf; cbn.
  - destruct (Z.ltb_spec n 4); destruct dev; cbn;
      repeat split; try done; try lia; intros; try done;
      try (destruct_or?; (done || lia)); try (by left); try (by right);
      try congruence.
  - destruct props, file, dev; cbn;
      repeat split; try done; try lia; intros; try done;
      try (destruct_or?; done); try (by left); try (by right);
      try (by (left; left)); try (by (right; left)); try (by (right; right));
      try congruence; try tauto.
Qed.

Lemma adjust_and_verify_rlimit_frame (os : rlimit) (setrlimit_fails : bool) :
  rlimit_thrown (adjust_and_verify_rlimit true os false setrlimit_fails) = None
  /\ Forall (fun entry => entry.1 = log_warn)
       (rlimit_logged (adjust_and_verify_rlimit true os false setrlimit_fails))
  /\ (rlimit_thrown (adjust_and_verify_rlimit false os false setrlimit_fails)
      = None
      <-> 10000 <= Z.max (rlim_cur os) (rlim_max os)).
Proof.
  destruct os as [cur mx]. unfold adjust_and_verify_rlimit.
  cbn [rlim_cur rlim_max].
  destruct (Z.ltb_spec cur mx); destruct setrlimit_fails; cbn [fst snd];
    cbn [rlim_cur rlim_max];
    match goal with |- context [?a <? 10000] =>
      destruct (Z.ltb_spec a 10000) end;
    cbn; repeat split; try done; repeat constructor; intros; try lia.
Qed.

Lemma verify_seastar_io_scheduler_frame (opts : io_options) :
  (verify_seastar_io_scheduler opts true).1 = None
  /\ Forall (fun entry => entry.1 = log_warn)
       (verify_seastar_io_scheduler opts true).2
  /\ ((verify_seastar_io_scheduler opts false).1 = None
      <-> match max_io_requests opts with
          | Some n => 4 <= n
          | None => io_properties opts = true \/ io_properties_file opts = true
          end).
Proof.
  destruct opts as [[n|] props file];
    unfold verify_seastar_io_scheduler, note_bad_conf; cbn.
  - destruct (Z.ltb_spec n 4); cbn; repeat split; try done;
      repeat constructor; intros; try lia.
  - destruct props, file; cbn; repeat split; try done; repeat constructor;
      intros; try tauto; destruct_or?; done.
Qed.

(** X18. In developer mode none of the three start-up checks refuses to
    start: run one after the other as [main] runs them, they throw only
    when [getrlimit] itself fails, and all they log are warnings.  Outside
    developer mode they let the start-up go on exactly when the larger of
    the two descriptor limits is at least 10000, the shard has at least
    1 GiB and the I/O options are accepted.  The figure the memory check
    logs is below 1024 MiB. *)
Theorem developer_mode_never_refuses_to_start :
  forall (os : rlimit) (setrlimit_fails : bool) (shard_mem : Z)
         (opts : io_options),
    (startup_checks true os false setrlimit_fails shard_mem opts).1 = None
    /\ Forall (fun entry => entry.1 = log_warn)
         (startup_checks true os false setrlimit_fails shard_mem opts).2
    /\ ((startup_checks false os false setrlimit_fails shard_mem opts).1 = None
        <-> 10000 <= Z.max (rlim_cur os) (rlim_max os)
            /\ 2 ^ 30 <= shard_mem
            /\ match max_io_requests opts with
               | Some n => 4 <= n
               | None => io_properties opts = true
                         \/ io_properties_file opts = true
               end)
    /\ (forall developer_mode,
          0 <= shard_mem < 2 ^ 30 ->
          exists mib,
            0 <= mib < 1024
            /\ (verify_adequate_memory_per_shard developer_mode shard_mem).2
               = [if developer_mode
                  then (log_warn, memory_per_shard_continuing mib)
                  else (log_error, memory_per_shard_terminating mib)]).
Proof.
  intros os sf shard_mem opts.
  pose proof (adjust_and_verify_rlimit_frame os sf) as (Hdev & Hwarn & Hstrict).
  pose proof (verify_seastar_io_scheduler_frame opts) as (Hio & Hiowarn & Hiostrict).
  unfold startup_checks.
  split; [|split; [|split]].
  - rewrite Hdev. unfold verify_adequate_memory_per_shard.
    by destruct (_ <=? _).
  - rewrite Hdev. unfold verify_adequate_memory_per_shard.
    destruct (_ <=? _); cbn [fst snd]; rewrite ?Hio, !Forall_app;
      repeat split; try done; repeat constructor.
  - destruct (rlimit_thrown (adjust_and_verify_rlimit false os false sf))
      as [e|] eqn:Hlim.
    + split; [done|]. intros (Hmax & _). apply Hstrict in Hmax. congruence.
    + assert (Hmax : 10000 <= Z.max (rlim_cur os) (rlim_max os)).
      { apply Hstrict. done. }
      unfold verify_adequate_memory_per_shard.
      change (Z.shiftl 1 30) with (2 ^ 30).
      destruct (Z.leb_spec (2 ^ 30) shard_mem) as [Hmem|Hmem]; cbn [fst snd].
      * rewrite Hiostrict. tauto.
      * split; [done|]. lia.
  - intros dev Hmem. unfold verify_adequate_memory_per_shard.
    change (Z.shiftl 1 30) with (2 ^ 30).
    destruct (Z.leb_spec (2 ^ 30) shard_mem) as [|Hlow]; [lia|].
    exists (Z.shiftr shard_mem 20). split; [|by destruct dev].
    rewrite Z.shiftr_div_pow2 by lia. split.
    + apply Z.div_pos; lia.
    + apply Z.div_lt_upper_bound; lia.
Qed.

Lemma signaled_caught (s : stop_signal) :
  _caught s = true -> signaled s = s.
Proof. unfold signaled. by intros ->. Qed.

Lemma deliver_caught (signals : list signal) : forall s,
  _caught s = true -> deliver signals s = s.
Proof.
  induction signals as [|sig signals IH]; intros s Hs; [done|].
  cbn. rewrite signaled_caught by done. by apply IH.
Qed.

(** X19. However many SIGINT and SIGTERM arrive, the first one is the
    only one that counts: afterwards [stopping()] holds and stays, the
    waiters have been woken once and the abort sources have been asked to
    abort once; before the first signal nothing of this has happened. *)
Theorem stop_signal_acts_on_the_first_signal_only :
  forall (signals : list signal),
    let s := deliver signals stop_signal_new in
    stopping s = negb (bool_decide (signals = []))
    /\ wait_is_over s = stopping s
    /\ cond_broadcasts s = (if stopping s then 1 else 0)%nat
    /\ abort_requests s = (if stopping s then 1 else 0)%nat
    /\ (forall more, stopping s = true -> deliver more s = s).
Proof.
  intros [|sig signals] s; subst s.
  - cbn. repeat split; done.
  - cbn [deliver foldl]. change (foldl _ ?x signals) with (deliver signals x).
    rewrite deliver_caught by done. cbn.
    repeat split. intros more _. by apply deliver_caught.
Qed.

Lemma handle_stopping (e : event) (h : sighup_handler) :
  _stopping h = true -> _pending h = false ->
  _stopping (handle e h) = true
  /\ _pending (handle e h) = false
  /\ rereads_begun (handle e h) = rereads_begun h
  /\ (phase h = finished -> phase (handle e h) = finished).
Proof.
  intros Hs Hp. destruct h as [p s ph n]. cbn in *. subst.
  destruct e, ph; cbn; done.
Qed.

Lemma handle_all_stopped (es : list event) : forall h,
  _stopping h = true -> _pending h = false ->
  _stopping (handle_all es h) = true
  /\ _pending (handle_all es h) = false
  /\ rereads_begun (handle_all es h) = rereads_begun h.
Proof.
  induction es as [|e es IH]; intros h Hs Hp; [done|].
  destruct (handle_stopping e h Hs Hp) as (Hs' & Hp' & Hn & _).
  destruct (IH (handle e h) Hs' Hp') as (Hs2 & Hp2 & Hn2).
  split; [exact Hs2|]. split; [exact Hp2|].
  etransitivity; [exact Hn2|exact Hn].
Qed.

(** X20. The work loop re-reads the configuration once for any number of
    SIGHUPs that arrive while it waits; a SIGHUP that arrives while it
    re-reads is kept and makes it re-read once more; and once [stop()]
    has been called no re-reading begins any more, whatever arrives, a
    SIGHUP that was pending being dropped. *)
Theorem sighup_handler_rereads :
  forall (h : sighup_handler),
    (* SIGHUPs that arrive while the loop waits are served by one re-read *)
    (forall n,
       phase h = waiting -> _stopping h = false ->
       let h' := loop_turn (Nat.iter (S n) reread_config h) in
       phase h' = reading
       /\ _pending h' = false
       /\ rereads_begun h' = S (rereads_begun h))
    (* a SIGHUP that arrives during a re-read is served after it *)
    /\ (phase h = reading -> _stopping h = false ->
        let h' := loop_turn (reread_ends (reread_config h)) in
        phase h' = reading /\ rereads_begun h' = S (rereads_begun h))
    (* without a SIGHUP the loop goes on waiting *)
    /\ (phase h = waiting -> _stopping h = false -> _pending h = false ->
        loop_turn h = h)
    (* after [stop()] nothing is re-read *)
    /\ (forall es,
          let h' := handle_all es (stop h) in
          _stopping h' = true
          /\ rereads_begun h' = rereads_begun h)
    (* and the loop ends at its next turn unless it is re-reading *)
    /\ (phase h = waiting -> phase (loop_turn (stop h)) = finished).
Proof.
  intros h. split; [|split; [|split; [|split]]].
  - intros n Hph Hs h'. subst h'.
    assert (Hiter : Nat.iter (S n) reread_config h
                    = SighupHandler true false waiting (rereads_begun h)).
    { induction n as [|n IH].
      - destruct h as [p s ph k]. cbn in *. by subst.
      - rewrite Nat.iter_succ, IH. done. }
    rewrite Hiter. done.
  - intros Hph Hs h'. subst h'.
    destruct h as [p s ph k]. cbn in *. by subst.
  - intros Hph Hs Hp. destruct h as [p s ph k]. cbn in *. by subst.
  - intros es h'. subst h'.
    destruct (handle_all_stopped es (stop h) eq_refl eq_refl) as (? & _ & ?).
    done.
  - intros Hph. destruct h as [p s ph k]. cbn in *. by subst.
Qed.

(** ** Concrete runs *)

(** The soft limit is 1024, the hard limit 65536 and [setrlimit] fails:
    the process starts with 1024 descriptors. *)
Example example_start_with_a_low_soft_limit :
  adjust_and_verify_rlimit false (Rlimit 1024 65536) false true
  = RlimitOutcome None (Rlimit 1024 65536)
      [(log_warn, adjusting_nofile_failed)].
Proof. reflexivity. Qed.

(** Two SIGHUPs, a re-read during which a third arrives, and a stop. *)
Example example_sighups :
  let h := handle_all
             [ev_sighup; ev_sighup; ev_loop_turn; ev_sighup; ev_reread_ends;
              ev_loop_turn; ev_reread_ends; ev_sighup; ev_stop; ev_loop_turn;
              ev_sighup; ev_loop_turn]
             sighup_handler_new in
  rereads_begun h = 2%nat /\ phase h = finished.
Proof. by vm_compute. Qed.

End scylla_main.
